(** * Halftone compositor: a shallow embedding of MetalHalftoneCompositor.tsx

    The development follows src/components/MetalHalftoneCompositor.tsx:
    the two per-pixel passes (applyImageAdjustments, applyLinearHalftone),
    the mask geometry (drawMaskShape, getHandlePositions, isPointInMask),
    the pointer and mask commands (handleMouseDown, handleMouseMove,
    addMask, deleteMask) and the two compositing routines
    (renderComposite, exportImage).

    Numbers.  A JavaScript number is modelled as an exact rational (Q):
    IEEE-754 rounding, infinities and overflow are outside the model.
    Where a result hangs on the rounding (a sample next to a rounding
    boundary, an equality of computed coordinates), the statements say
    so, and module Binary64 repeats the computation on the kernel's
    floats.
    NaN is modelled by [None] in the places where the source can produce
    one (parseInt on text that is not hexadecimal).  Where the source
    divides by a value that may be zero and the quotient decides a test,
    the zero case is written out.  Samples of a Uint8ClampedArray are
    integers (Z), array indices and loop counters are naturals. *)

From Stdlib Require Import ZArith QArith Qround Qabs Qminmax Lqa Lia.
From Stdlib Require Import String Ascii.
From Corelib Require PrimFloat.
From stdpp Require Import base list.

Local Open Scope Q_scope.

(** ** JavaScript arithmetic on exact numbers *)

Definition Qltb (a b : Q) : bool := negb (Qle_bool b a).
Definition Qnat (n : nat) : Q := inject_Z (Z.of_nat n).

(** Math.round: the nearest integer, halves towards plus infinity. *)
Definition Math_round (v : Q) : Z := Qfloor (v + 0.5).
Definition Math_floor (v : Q) : Z := Qfloor v.

(** Truncation towards zero, and the remainder operator [a % b], whose
    result has the sign of the dividend. *)
Definition Qtrunc (v : Q) : Z := if Qle_bool 0 v then Qfloor v else Qceiling v.
Definition jsRem (a b : Q) : Q := a - b * inject_Z (Qtrunc (a / b)).

(** The transcendental functions of the Math object are library code:
    the embedding is parametric in them. *)
Class MathLib := {
  Math_pow : Q -> Q -> Q;
  Math_sin : Q -> Q;
  Math_cos : Q -> Q;
  Math_PI : Q
}.

(** A rational stand-in for the Math object, to run the passes on
    concrete buffers: exact powers for integer exponents, short Taylor
    polynomials for the circular functions. *)
Definition rationalMath : MathLib := {|
  Math_pow := fun b e => Qpower b (Math_floor e);
  Math_sin := fun t => t - t * t * t / 6;
  Math_cos := fun t => 1 - t * t / 2;
  Math_PI := 3.14159
|}.

(** ** Pixel buffers *)

(** ImageData: [data] is the Uint8ClampedArray, row-major RGBA, of
    length 4 * width * height. *)
Module ImageData.
Record t := mk { width : nat; height : nat; data : list Z }.
Definition wf (img : t) : Prop :=
  length (data img) = (4 * (width img * height img))%nat.
Definition samples8 (img : t) : Prop :=
  Forall (fun v => (0 <= v <= 255)%Z) (data img).
End ImageData.

(** Conversion of a number stored into a Uint8ClampedArray, for the
    integer or NaN values that reach it here. *)
Definition toUint8Clamped (v : option Z) : Z :=
  match v with
  | Some z => Z.max 0 (Z.min 255 z)
  | None => 0%Z
  end.

(** [for (let i = 0; i < n; i++) body]: the body threads the state. *)
Definition for_range {S : Type} (n : nat) (body : nat -> S -> S) (s : S) : S :=
  fold_left (fun acc i => body i acc) (seq 0 n) s.

(** ** hexToRgb *)

Definition hexDigit (c : ascii) : option Z :=
  let n := Z.of_nat (nat_of_ascii c) in
  if ((48 <=? n) && (n <=? 57))%Z then Some (n - 48)%Z
  else if ((97 <=? n) && (n <=? 102))%Z then Some (n - 87)%Z
  else if ((65 <=? n) && (n <=? 70))%Z then Some (n - 55)%Z
  else None.

(** parseInt(s, 16) on a slice of a colour string: the value of the
    longest prefix of hexadecimal digits, NaN when that prefix is empty.
    (Leading blanks, a sign or a 0x prefix do not occur in text that the
    colour controls let through.) *)
Fixpoint parseHexFrom (s : string) (acc : option Z) : option Z :=
  match s with
  | EmptyString => acc
  | String c rest =>
      match hexDigit c with
      | Some d => parseHexFrom rest (Some (16 * default 0%Z acc + d)%Z)
      | None => acc
      end
  end.

Definition parseInt16 (s : string) : option Z := parseHexFrom s None.

(** [s.slice(a, b)] for 0 <= a <= b. *)
Definition slice (a b : nat) (s : string) : string := substring a (b - a) s.

Definition hexToRgb (hex : string) : list (option Z) :=
  let h := if (7 <=? String.length hex)%nat then hex else "#000000"%string in
  let r := parseInt16 (slice 1 3 h) in
  let g := parseInt16 (slice 3 5 h) in
  let b := parseInt16 (slice 5 7 h) in
  [r; g; b].

(** [arr[k]] on an array of numbers; a missing entry (undefined) behaves
    as NaN in arithmetic and in a clamped store. *)
Definition at_index (arr : list (option Z)) (k : nat) : option Z :=
  default None (arr !! k).

(** ** Image adjustment processing *)

Record ImageAdjustments := {
  greyscale : bool;
  exposure : Q;
  contrast : Q;
  highlights : Q;
  shadows : Q;
  overlayColor : string;
  overlayOpacity : Q;
  noiseEnabled : bool;
  noiseSize : Q;
  noiseColor : string;
  noiseOpacity : Q
}.

Definition DEFAULT_ADJUSTMENTS : ImageAdjustments := {|
  greyscale := false;
  exposure := 0;
  contrast := 0;
  highlights := 0;
  shadows := 0;
  overlayColor := "#0d6847";
  overlayOpacity := 0;
  noiseEnabled := false;
  noiseSize := 2;
  noiseColor := "#ffffff";
  noiseOpacity := 0.1
|}.

Definition clamp01 (v : Q) : Q :=
  if Qltb v 0 then 0 else if Qltb 1 v then 1 else v.

Definition clamp255 (v : Q) : Z :=
  Z.max 0 (Z.min 255 (Math_round (v * 255))).

Definition overlayBlend (base blend : Q) : Q :=
  if Qltb base 0.5 then 2 * base * blend
  else 1 - 2 * (1 - base) * (1 - blend).

(** A colour channel of hexToRgb scaled to the unit interval. *)
Definition unit_channel (rgb : list (option Z)) (k : nat) : option Q :=
  z ← at_index rgb k; Some (inject_Z z / 255).

(** The value stored by [data[i] = clamp255(v)]; a NaN is stored as 0. *)
Definition store255 (v : option Q) : Z :=
  match v with
  | Some q => clamp255 q
  | None => 0%Z
  end.

Section Adjust.
Context `{M : MathLib}.
Variable adj : ImageAdjustments.

Definition overlayRgb : list (option Z) :=
  if Qltb 0 (overlayOpacity adj) then hexToRgb (overlayColor adj)
  else [Some 0%Z; Some 0%Z; Some 0%Z].
Definition noiseRgb : list (option Z) :=
  if noiseEnabled adj then hexToRgb (noiseColor adj)
  else [Some 0%Z; Some 0%Z; Some 0%Z].
Definition grain : Z := Z.max 1 (Math_round (noiseSize adj)).
Definition expFactor : Q := Math_pow 2 (exposure adj).
Definition contrastFactor : Q := 1 + contrast adj.

(** Greyscale, exposure, contrast and the highlight/shadow shift
    (lines 91-114): three exact numbers. *)
Definition toneChannels (r0 g0 b0 : Z) : Q * Q * Q :=
  let r := inject_Z r0 / 255 in
  let g := inject_Z g0 / 255 in
  let b := inject_Z b0 / 255 in
  let '(r, g, b) :=
    if greyscale adj
    then let lum := 0.299 * r + 0.587 * g + 0.114 * b in (lum, lum, lum)
    else (r, g, b) in
  let r := r * expFactor in
  let g := g * expFactor in
  let b := b * expFactor in
  let r := (r - 0.5) * contrastFactor + 0.5 in
  let g := (g - 0.5) * contrastFactor + 0.5 in
  let b := (b - 0.5) * contrastFactor + 0.5 in
  let lum := 0.299 * clamp01 r + 0.587 * clamp01 g + 0.114 * clamp01 b in
  let hW := Qmax 0 ((lum - 0.5) * 2) in
  let sW := Qmax 0 ((0.5 - lum) * 2) in
  let hsMod := highlights adj * hW * 0.5 + shadows adj * sW * 0.5 in
  (r + hsMod, g + hsMod, b + hsMod).

(** The colour overlay (lines 116-122) on one channel. *)
Definition overlayChannel (v : Q) (k : nat) : option Q :=
  if Qltb 0 (overlayOpacity adj)
  then
    let oa := overlayOpacity adj in
    let c := clamp01 v in
    o ← unit_channel overlayRgb k;
    Some (c * (1 - oa) + overlayBlend c o * oa)
  else Some v.

(** The grain value of the cell of pixel (x, y) (lines 125-128). *)
Definition noiseAmount (x y : nat) : Q :=
  let gx := Math_floor (Qnat x / inject_Z grain) in
  let gy := Math_floor (Qnat y / inject_Z grain) in
  let nv :=
    jsRem (jsRem (Math_sin (inject_Z gx * 12.9898 + inject_Z gy * 78.233)
                  * 43758.5453) 1 + 1) 1 in
  noiseOpacity adj * nv.

(** The noise mix (lines 124-132) on one channel. *)
Definition noiseChannel (x y : nat) (v : option Q) (k : nat) : option Q :=
  if noiseEnabled adj && Qltb 0 (noiseOpacity adj)
  then
    let no := noiseAmount x y in
    c ← v; n ← unit_channel noiseRgb k;
    Some (c * (1 - no) + n * no)
  else v.

(** The three samples written for an opaque enough pixel. *)
Definition adjustedSamples (x y : nat) (r0 g0 b0 : Z) : Z * Z * Z :=
  let '(r, g, b) := toneChannels r0 g0 b0 in
  (store255 (noiseChannel x y (overlayChannel r 0) 0),
   store255 (noiseChannel x y (overlayChannel g 1) 1),
   store255 (noiseChannel x y (overlayChannel b 2) 2)).

(** The body of the two nested loops (lines 88-136).  An index outside
    the array cannot occur for an ImageData, whose length is
    4 * width * height; a typed array drops such a store. *)
Definition adjustPixel (width : nat) (y x : nat) (data : list Z) : list Z :=
  let i := ((y * width + x) * 4)%nat in
  match data !! (i + 3)%nat, data !! i, data !! (i + 1)%nat, data !! (i + 2)%nat with
  | Some a, Some r0, Some g0, Some b0 =>
      if (a <? 10)%Z then data
      else
        let '(r, g, b) := adjustedSamples x y r0 g0 b0 in
        <[(i + 2)%nat := b]> (<[(i + 1)%nat := g]> (<[i := r]> data))
  | _, _, _, _ => data
  end.

Definition applyImageAdjustments (sourceCanvas : ImageData.t) : ImageData.t :=
  let width := ImageData.width sourceCanvas in
  let height := ImageData.height sourceCanvas in
  let data := ImageData.data sourceCanvas in
  let data' :=
    for_range height (fun y => for_range width (fun x => adjustPixel width y x)) data in
  ImageData.mk width height data'.
End Adjust.

(** Sample [c] (0 = R, 1 = G, 2 = B, 3 = A) of pixel (x, y). *)
Definition sample (img : ImageData.t) (x y c : nat) : option Z :=
  ImageData.data img !! ((y * ImageData.width img + x) * 4 + c)%nat.

(** The alpha sample of the pixel that array index [j] belongs to. *)
Definition alphaOf (data : list Z) (j : nat) : option Z :=
  data !! (j / 4 * 4 + 3)%nat.

(** An index is frozen when it holds an alpha sample, or belongs to a
    pixel whose source alpha is below the threshold. *)
Definition frozen (src : list Z) (j : nat) : Prop :=
  (j mod 4 = 3)%nat \/ exists a, alphaOf src j = Some a /\ (a < 10)%Z.

Definition agree_frozen (src data : list Z) : Prop :=
  forall j, frozen src j -> data !! j = src !! j.

(** The neutral settings of the adjustment controls; the colours, the
    grain size and the noise opacity are free. *)
Definition neutral (adj : ImageAdjustments) : Prop :=
  greyscale adj = false /\ exposure adj == 0 /\ contrast adj == 0 /\
  highlights adj == 0 /\ shadows adj == 0 /\ overlayOpacity adj == 0 /\
  noiseEnabled adj = false.

(** ** The adjustment arithmetic in binary64 *)

(** Lines 91-114 and clamp255 on IEEE-754 doubles, for the settings
    that do not need Math.pow (its value, [expFactor], is an argument).
    Math.round(y) is v exactly when v - 0.5 <= y < v + 0.5. *)
Module Binary64.
Import PrimFloat.
Local Open Scope float_scope.
Set Warnings "-inexact-float".

Definition clamp01 (v : float) : float :=
  if ltb v 0 then 0 else if ltb 1 v then 1 else v.

(** Math.max(0, v); a NaN is returned as it is. *)
Definition Math_max0 (v : float) : float :=
  if ltb 0 v then v else if eqb v v then 0 else v.

Definition toneChannels (greyscale : bool)
    (expFactor contrast highlights shadows : float) (r0 g0 b0 : float)
    : float * float * float :=
  let r := r0 / 255 in
  let g := g0 / 255 in
  let b := b0 / 255 in
  let '(r, g, b) :=
    if greyscale
    then let lum := 0.299 * r + 0.587 * g + 0.114 * b in (lum, lum, lum)
    else (r, g, b) in
  let contrastFactor := 1 + contrast in
  let r := r * expFactor in
  let g := g * expFactor in
  let b := b * expFactor in
  let r := (r - 0.5) * contrastFactor + 0.5 in
  let g := (g - 0.5) * contrastFactor + 0.5 in
  let b := (b - 0.5) * contrastFactor + 0.5 in
  let lum := 0.299 * clamp01 r + 0.587 * clamp01 g + 0.114 * clamp01 b in
  let hW := Math_max0 ((lum - 0.5) * 2) in
  let sW := Math_max0 ((0.5 - lum) * 2) in
  let hsMod := highlights * hW * 0.5 + shadows * sW * 0.5 in
  (r + hsMod, g + hsMod, b + hsMod).

(** clamp255(v) is the sample s (an integer in 0..255). *)
Definition clamp255_is (v s : float) : bool :=
  leb (s - 0.5) (v * 255) && ltb (v * 255) (s + 0.5).

Definition neutralKeeps (r0 g0 b0 : float) : bool :=
  let '(r, g, b) := toneChannels false 1 0 0 0 r0 g0 b0 in
  clamp255_is r r0 && clamp255_is g g0 && clamp255_is b b0.

(** [p] holds of the [n] consecutive integers from [v]. *)
Fixpoint allFrom (n : nat) (v : float) (p : float -> bool) : bool :=
  match n with
  | O => true
  | S k => p v && allFrom k (v + 1) p
  end.

Definition allSamples (p : float -> bool) : bool := allFrom 256 0 p.

(** Every pixel (r, g, b) of 8-bit samples through the neutral
    settings. *)
Definition allPixelsKept : bool :=
  allSamples (fun r => allSamples (fun g => allSamples (fun b => neutralKeeps r g b))).

(** addMask's width for a 50-pixel canvas side against the minimum. *)
Definition smallMaskBelowMinimum : bool := ltb (50 * 0.35) 20.

(** Contrast -1 with highlights and shadows 0: the pixel becomes the
    mid-grey 128, with and without greyscale, for the exposure
    factor [e]. *)
Definition flatKeeps (e : float) (r0 g0 b0 : float) : bool :=
  let '(r, g, b) := toneChannels false e (-1) 0 0 r0 g0 b0 in
  let '(r', g', b') := toneChannels true e (-1) 0 0 r0 g0 b0 in
  clamp255_is r 128 && clamp255_is g 128 && clamp255_is b 128 &&
  clamp255_is r' 128 && clamp255_is g' 128 && clamp255_is b' 128.

Definition flatPixelsKept : bool :=
  allSamples (fun r => allSamples (fun g => flatKeeps 1 r g 0 && flatKeeps 1 r g 255))
  && allSamples
       (fun v =>
          flatKeeps 0.25 v v v && flatKeeps 4 v v v &&
          flatKeeps 0.25 v 0 0 && flatKeeps 4 v 0 0 &&
          flatKeeps 0.25 0 v 0 && flatKeeps 4 0 v 0 &&
          flatKeeps 0.25 0 0 v && flatKeeps 4 0 0 v).

(** With shadows -1 the same pixel is stored as 127: the luminance of
    (0.5, 0.5, 0.5) is below 0.5 in binary64 and the shadow weight is
    not 0. *)
Definition flatShadowsOff : bool :=
  let '(r, g, b) := toneChannels false 1 (-1) 0 (-1) 10 20 30 in
  clamp255_is r 127 && clamp255_is g 127 && clamp255_is b 127.

(** Math.max(20, v); a NaN is returned as it is. *)
Definition Math_max20 (v : float) : float :=
  if ltb 20 v then v else if eqb v v then 20 else v.

(** The resize branch of handleMouseMove on one axis (lines 593 and
    602-604) for the pointer coordinate [p] on a canvas shown at scale
    [cs], and the low corner of the resulting box: the centre minus half
    the size. *)
Definition resizedLowCorner (anchor p cs : float) : float :=
  let m := p / cs in
  let centre := (anchor + m) / 2 in
  let size := Math_max20 (abs (m - anchor)) in
  centre - size / 2.

(** A 100-pixel image shown 30 wide, the anchor at 32.5 and the pointer
    at 29, more than 20 units away: the corner is not the anchor, and
    less than 1e-13 from it. *)
Definition cornerOffAnchor : bool :=
  let c := resizedLowCorner 32.5 29 (30 / 100) in
  negb (eqb c 32.5) && ltb (abs (c - 32.5)) 1e-13.
End Binary64.

(** ** Halftone processing *)

Record HalftoneParams := {
  frequency : Q;
  angle : Q;
  thickness : Q;
  lineColor : list (option Z)
}.

Section Halftone.
Context `{M : MathLib}.
Variable options : HalftoneParams.

Definition adjustedAngle : Q :=
  if Qeq_bool (jsRem (angle options) 90) 0 then angle options + 0.01
  else angle options.
Definition angleRad : Q := (adjustedAngle * Math_PI) / 180.
Definition cos : Q := Math_cos angleRad.
Definition sin : Q := Math_sin angleRad.
(** For a frequency other than 0 (the control ranges over 1..50); at
    frequency 0 the quotient is infinite in the source, see [onLine]. *)
Definition lineSpacing : Q := Qmax 2 (72 / frequency options).

(** Whether pixel (x, y) with colour samples r, g, b lies on an ink
    line (lines 187-196).  At frequency 0 the source gets an infinite
    lineSpacing, posInPeriod is NaN and the comparison of line 196 is
    false for every pixel. *)
Definition onLine (x y : nat) (r g b : Z) : bool :=
  if Qeq_bool (frequency options) 0 then false
  else
    let brightness :=
      (0.299 * inject_Z r + 0.587 * inject_Z g + 0.114 * inject_Z b) / 255 in
    let rx := Qnat x * cos + Qnat y * sin in
    let posInPeriod := jsRem (jsRem rx lineSpacing + lineSpacing) lineSpacing in
    let normalizedPos := posInPeriod / lineSpacing in
    let lineWidth := (1 - brightness) * thickness options in
    let distFromCenter := Qabs (normalizedPos - 0.5) * 2 in
    Qltb distFromCenter lineWidth.

(** The first loop (lines 169-172), over i = 0, 4, 8, ... < dst.length. *)
Definition clearPixel (k : nat) (dst : list Z) : list Z :=
  let i := (4 * k)%nat in
  <[(i + 3)%nat := 0%Z]>
    (<[i := 0%Z]> (<[(i + 1)%nat := 0%Z]> (<[(i + 2)%nat := 0%Z]> dst))).

(** The body of the two nested loops (lines 183-201); [src] is only
    read.  As for adjustPixel, an index outside the arrays cannot occur
    for ImageData of the same dimensions. *)
Definition halftonePixel (src : list Z) (width : nat) (y x : nat)
    (dst : list Z) : list Z :=
  let idx := ((y * width + x) * 4)%nat in
  match src !! (idx + 3)%nat, src !! idx, src !! (idx + 1)%nat, src !! (idx + 2)%nat with
  | Some srcAlpha, Some r, Some g, Some b =>
      if (srcAlpha <? 10)%Z then dst
      else if onLine x y r g b
      then
        <[(idx + 3)%nat := srcAlpha]>
          (<[(idx + 2)%nat := toUint8Clamped (at_index (lineColor options) 2)]>
             (<[(idx + 1)%nat := toUint8Clamped (at_index (lineColor options) 1)]>
                (<[idx := toUint8Clamped (at_index (lineColor options) 0)]> dst)))
      else dst
  | _, _, _, _ => dst
  end.

Definition applyLinearHalftone (sourceCanvas : ImageData.t) : ImageData.t :=
  let width := ImageData.width sourceCanvas in
  let height := ImageData.height sourceCanvas in
  let src := ImageData.data sourceCanvas in
  (* createImageData: transparent black *)
  let dst := replicate (4 * (width * height)) 0%Z in
  let dst := for_range ((length dst + 3) / 4) clearPixel dst in
  let dst :=
    for_range height
      (fun y => for_range width (fun x => halftonePixel src width y x)) dst in
  ImageData.mk width height dst.
End Halftone.

(** The two states of a pixel of the halftone buffer: transparent
    black, or inked (line colour, source alpha). *)
Definition blank (dst : list Z) (p : nat) : Prop :=
  forall c, (c < 4)%nat -> dst !! (p * 4 + c)%nat = Some 0%Z.

Definition inked (options : HalftoneParams) (src dst : list Z) (p : nat) : Prop :=
  dst !! (p * 4)%nat = Some (toUint8Clamped (at_index (lineColor options) 0)) /\
  dst !! (p * 4 + 1)%nat = Some (toUint8Clamped (at_index (lineColor options) 1)) /\
  dst !! (p * 4 + 2)%nat = Some (toUint8Clamped (at_index (lineColor options) 2)) /\
  dst !! (p * 4 + 3)%nat = src !! (p * 4 + 3)%nat /\
  exists a, src !! (p * 4 + 3)%nat = Some a /\ (10 <= a)%Z.

Definition halftone_inv (options : HalftoneParams) (src : list Z) (n : nat)
    (dst : list Z) : Prop :=
  length dst = (4 * n)%nat /\
  forall p, (p < n)%nat -> blank dst p \/ inked options src dst p.

(** The halftone controls as the component initialises them, and two
    small buffers: one opaque pixel next to one below the alpha
    threshold, and a single pixel below the threshold. *)
Definition defaultHalftone : HalftoneParams := {|
  frequency := 20; angle := 90; thickness := 0.8;
  lineColor := hexToRgb "#ffffff"
|}.
Definition twoPixels : ImageData.t :=
  ImageData.mk 2 1 [10; 20; 30; 255; 1; 2; 3; 5]%Z.
Definition faintPixel : ImageData.t := ImageData.mk 1 1 [10; 20; 30; 5]%Z.

(** ** Masks and their geometry *)

Inductive Shape := rectangle | circle | triangle.

Module Mask.
Record t := mk {
  shape : Shape;
  x : Q;
  y : Q;
  width : Q;
  height : Q;
  id : Z
}.
End Mask.

(** DragState: the source's record with a "move" | "resize" tag and the
    optional fields of each case. *)
Inductive DragState :=
  | Move (index : nat) (offsetX offsetY : Q)
  | Resize (index : nat) (anchorX anchorY : Q).

Inductive HandleId := tl | tr | bl | br.

Module HandlePosition.
Record t := mk { x : Q; y : Q; pos : HandleId }.
End HandlePosition.

Definition getHandlePositions (mask : Mask.t) (cs : Q) : list HandlePosition.t :=
  let cx := Mask.x mask * cs in
  let cy := Mask.y mask * cs in
  let w := Mask.width mask * cs in
  let h := Mask.height mask * cs in
  [ HandlePosition.mk (cx - w / 2) (cy - h / 2) tl;
    HandlePosition.mk (cx + w / 2) (cy - h / 2) tr;
    HandlePosition.mk (cx - w / 2) (cy + h / 2) bl;
    HandlePosition.mk (cx + w / 2) (cy + h / 2) br ].

(** isPointInMask.  A zero divisor makes the quotient infinite or NaN in
    the source, and the comparison false: for the ellipse a non-negative
    numerator over 0, for the triangle both barycentric quotients. *)
Definition isPointInMask (px py : Q) (mask : Mask.t) (cs : Q) : bool :=
  let cx := Mask.x mask * cs in
  let cy := Mask.y mask * cs in
  let w := Mask.width mask * cs in
  let h := Mask.height mask * cs in
  match Mask.shape mask with
  | rectangle =>
      Qle_bool (cx - w / 2) px && Qle_bool px (cx + w / 2) &&
      Qle_bool (cy - h / 2) py && Qle_bool py (cy + h / 2)
  | circle =>
      let rx := w / 2 in
      let ry := h / 2 in
      if Qeq_bool (rx ^ 2) 0 || Qeq_bool (ry ^ 2) 0 then false
      else Qle_bool ((px - cx) ^ 2 / rx ^ 2 + (py - cy) ^ 2 / ry ^ 2) 1
  | triangle =>
      let x1 := cx in
      let y1 := cy - h / 2 in
      let x2 := cx + w / 2 in
      let y2 := cy + h / 2 in
      let x3 := cx - w / 2 in
      let y3 := cy + h / 2 in
      let d := (y2 - y3) * (x1 - x3) + (x3 - x2) * (y1 - y3) in
      if Qeq_bool d 0 then false
      else
        let a := ((y2 - y3) * (px - x3) + (x3 - x2) * (py - y3)) / d in
        let b := ((y3 - y1) * (px - x3) + (x1 - x3) * (py - y3)) / d in
        Qle_bool 0 a && Qle_bool 0 b && Qle_bool 0 (1 - a - b)
  end.

(** ** The editor state and its commands *)

Module Size.
Record t := mk { width : Q; height : Q }.
End Size.

Inductive MaskContent := halftone | metal.

(** The component state that the commands read and write.  The refs
    that mirror it (masksRef, selectedMaskRef, ...) hold the same values
    whenever a handler runs, so one record stands for both. *)
Record State := {
  masks : list Mask.t;
  selectedMask : option nat;
  dragState : option DragState;
  canvasSize : Size.t;
  maskContent : MaskContent;
  bgColor : string;
  transparentBg : bool;
  imageCanvas : option ImageData.t;
  halftoneCanvas : option ImageData.t;
  exportScale : Q
}.

Definition setMasks (f : list Mask.t -> list Mask.t) (st : State) : State :=
  {| masks := f (masks st); selectedMask := selectedMask st;
     dragState := dragState st; canvasSize := canvasSize st;
     maskContent := maskContent st; bgColor := bgColor st;
     transparentBg := transparentBg st; imageCanvas := imageCanvas st;
     halftoneCanvas := halftoneCanvas st; exportScale := exportScale st |}.

Definition setSelectedMask (sel : option nat) (st : State) : State :=
  {| masks := masks st; selectedMask := sel;
     dragState := dragState st; canvasSize := canvasSize st;
     maskContent := maskContent st; bgColor := bgColor st;
     transparentBg := transparentBg st; imageCanvas := imageCanvas st;
     halftoneCanvas := halftoneCanvas st; exportScale := exportScale st |}.

Definition setDragState (ds : option DragState) (st : State) : State :=
  {| masks := masks st; selectedMask := selectedMask st;
     dragState := ds; canvasSize := canvasSize st;
     maskContent := maskContent st; bgColor := bgColor st;
     transparentBg := transparentBg st; imageCanvas := imageCanvas st;
     halftoneCanvas := halftoneCanvas st; exportScale := exportScale st |}.

(** getCS: the display scale, canvas client width over image width; 1
    when the canvas element is not mounted. *)
Definition getCS (clientWidth : option Q) (st : State) : Q :=
  match clientWidth with
  | Some cw => cw / Size.width (canvasSize st)
  | None => 1
  end.

(** The anchor recorded when a handle is pressed (lines 566-571). *)
Definition resizeAnchor (mask : Mask.t) (pos : HandleId) : Q * Q :=
  let hw := Mask.width mask / 2 in
  let hh := Mask.height mask / 2 in
  match pos with
  | tl => (Mask.x mask + hw, Mask.y mask + hh)
  | tr => (Mask.x mask - hw, Mask.y mask + hh)
  | bl => (Mask.x mask + hw, Mask.y mask - hh)
  | br => (Mask.x mask - hw, Mask.y mask - hh)
  end.

Definition nearHandle (x y : Q) (h : HandlePosition.t) : bool :=
  Qltb (Qabs (x - HandlePosition.x h)) 10 &&
  Qltb (Qabs (y - HandlePosition.y h)) 10.

(** The first loop of handleMouseDown (lines 561-576): the first handle
    of the selected mask within reach of the pointer starts a resize. *)
Definition pressedHandle (x y cs : Q) (st : State) : option DragState :=
  match selectedMask st with
  | Some currentSelected =>
      match masks st !! currentSelected with
      | Some mask =>
          match find (nearHandle x y) (getHandlePositions mask cs) with
          | Some h =>
              let '(ax, ay) := resizeAnchor mask (HandlePosition.pos h) in
              Some (Resize currentSelected ax ay)
          | None => None
          end
      | None => None
      end
  | None => None
  end.

(** The second loop (lines 578-584): i from [n - 1] down to 0. *)
Fixpoint topmostHit (n : nat) (x y cs : Q) (currentMasks : list Mask.t)
    : option (nat * Mask.t) :=
  match n with
  | O => None
  | S i =>
      match currentMasks !! i with
      | Some m =>
          if isPointInMask x y m cs then Some (i, m)
          else topmostHit i x y cs currentMasks
      | None => topmostHit i x y cs currentMasks
      end
  end.

(** handleMouseDown; [x], [y] are the canvas coordinates of the event
    and [cs] is the value of getCS(), positive for a canvas that is laid
    out. *)
Definition handleMouseDown (x y cs : Q) (st : State) : State :=
  match pressedHandle x y cs st with
  | Some ds => setDragState (Some ds) st
  | None =>
      match topmostHit (length (masks st)) x y cs (masks st) with
      | Some (i, m) =>
          setDragState
            (Some (Move i (x / cs - Mask.x m) (y / cs - Mask.y m)))
            (setSelectedMask (Some i) st)
      | None => setSelectedMask None st
      end
  end.

(** The update that handleMouseMove passes to setMasks (lines 595-608).
    [None]: the dragged index is no longer in the list (the mask was
    deleted during the drag); the source then stores an object without
    shape, width or height, which is not a Mask. *)
Definition dragMasks (ds : DragState) (mx my : Q) (prev : list Mask.t)
    : option (list Mask.t) :=
  match ds with
  | Move index offsetX offsetY =>
      m ← prev !! index;
      Some (<[index :=
               Mask.mk (Mask.shape m) (mx - offsetX) (my - offsetY)
                 (Mask.width m) (Mask.height m) (Mask.id m)]> prev)
  | Resize index anchorX anchorY =>
      m ← prev !! index;
      Some (<[index :=
               Mask.mk (Mask.shape m)
                 ((anchorX + mx) / 2) ((anchorY + my) / 2)
                 (Qmax 20 (Qabs (mx - anchorX)))
                 (Qmax 20 (Qabs (my - anchorY)))
                 (Mask.id m)]> prev)
  end.

Definition handleMouseMove (x y cs : Q) (st : State) : option State :=
  match dragState st with
  | None => Some st
  | Some ds =>
      let mx := x / cs in
      let my := y / cs in
      u ← dragMasks ds mx my (masks st);
      Some (setMasks (fun _ => u) st)
  end.

Definition handleMouseUp (st : State) : State := setDragState None st.

(** [arr.filter((_, i) => keep(i))], the index counted from [i]. *)
Fixpoint filterIndex {A : Type} (keep : nat -> bool) (i : nat) (arr : list A)
    : list A :=
  match arr with
  | [] => []
  | a :: rest =>
      if keep i then a :: filterIndex keep (S i) rest
      else filterIndex keep (S i) rest
  end.

(** addMask; [now] is the value of Date.now(). *)
Definition addMask (shape : Shape) (now : Z) (st : State) : State :=
  let cs := canvasSize st in
  let newMasks :=
    masks st ++
      [Mask.mk shape (Size.width cs / 2) (Size.height cs / 2)
         (Size.width cs * 0.35) (Size.height cs * 0.35) now] in
  setSelectedMask (Some (length newMasks - 1)%nat) (setMasks (fun _ => newMasks) st).

Definition deleteMask (index : nat) (st : State) : State :=
  let st' := setMasks (filterIndex (fun i => negb (i =? index)%nat) 0) st in
  match selectedMask st with
  | Some sel =>
      if (sel =? index)%nat then setSelectedMask None st'
      else if (index <? sel)%nat then setSelectedMask (Some (sel - 1)%nat) st'
      else st'
  | None => st'
  end.

(** The Backspace/Delete key with a mask selected (lines 396-401). *)
Definition handleKeyDelete (st : State) : State :=
  match selectedMask st with
  | Some sel =>
      setSelectedMask None
        (setMasks (filterIndex (fun i => negb (i =? sel)%nat) 0) st)
  | None => st
  end.

(** The state written when an image of the given size has loaded
    (lines 348-353); the buffers follow from the two passes. *)
Definition imageLoaded (w h : nat) (st : State) : State :=
  {| masks := []; selectedMask := None;
     dragState := dragState st; canvasSize := Size.mk (Qnat w) (Qnat h);
     maskContent := maskContent st; bgColor := bgColor st;
     transparentBg := transparentBg st; imageCanvas := imageCanvas st;
     halftoneCanvas := halftoneCanvas st; exportScale := exportScale st |}.

(** The corner of a mask's bounding box, in image space, that carries
    the given handle, and the handle diagonally opposite. *)
Definition corner (mask : Mask.t) (pos : HandleId) : Q * Q :=
  match pos with
  | tl => (Mask.x mask - Mask.width mask / 2, Mask.y mask - Mask.height mask / 2)
  | tr => (Mask.x mask + Mask.width mask / 2, Mask.y mask - Mask.height mask / 2)
  | bl => (Mask.x mask - Mask.width mask / 2, Mask.y mask + Mask.height mask / 2)
  | br => (Mask.x mask + Mask.width mask / 2, Mask.y mask + Mask.height mask / 2)
  end.

Definition opposite (pos : HandleId) : HandleId :=
  match pos with tl => br | tr => bl | bl => tr | br => tl end.

Definition same_point (p q : Q * Q) : Prop := fst p == fst q /\ snd p == snd q.

(** The pointer lies on the handle's side of the anchor on both axes. *)
Definition on_handle_side (pos : HandleId) (anchor pointer : Q * Q) : Prop :=
  match pos with
  | tl => fst pointer <= fst anchor /\ snd pointer <= snd anchor
  | tr => fst anchor <= fst pointer /\ snd pointer <= snd anchor
  | bl => fst pointer <= fst anchor /\ snd anchor <= snd pointer
  | br => fst anchor <= fst pointer /\ snd anchor <= snd pointer
  end.

Definition min_size (m : Mask.t) : Prop := 20 <= Mask.width m /\ 20 <= Mask.height m.

(** The state of a freshly mounted component (the useState defaults). *)
Definition initialState : State := {|
  masks := []; selectedMask := None; dragState := None;
  canvasSize := Size.mk 800 800; maskContent := halftone;
  bgColor := "#0d6847"; transparentBg := true;
  imageCanvas := None; halftoneCanvas := None; exportScale := 2
|}.

(** A 100 x 100 rectangle with its top-left corner at the origin,
    selected, in an otherwise fresh editor. *)
Definition squareMask : Mask.t := Mask.mk rectangle 50 50 100 100 1.
Definition squareSelected : State :=
  setSelectedMask (Some 0%nat) (setMasks (fun _ => [squareMask]) initialState).

(** ** The editor as a transition system *)

(** The user's commands.  A pointer event carries its canvas
    coordinates and the client width of the canvas, from which getCS()
    derives the display scale. *)
Inductive Event :=
  | ImageLoaded (w h : nat)
  | AddMask (shape : Shape) (now : Z)
  | MouseDown (x y clientWidth : Q)
  | MouseMove (x y clientWidth : Q)
  | MouseUp
  | DeleteMask (index : nat)
  | KeyDelete.

Definition dispatch (ev : Event) (st : State) : option State :=
  match ev with
  | ImageLoaded w h => Some (imageLoaded w h st)
  | AddMask shape now => Some (addMask shape now st)
  | MouseDown x y cw => Some (handleMouseDown x y (getCS (Some cw) st) st)
  | MouseMove x y cw => handleMouseMove x y (getCS (Some cw) st) st
  | MouseUp => Some (handleMouseUp st)
  | DeleteMask index => Some (deleteMask index st)
  | KeyDelete => Some (handleKeyDelete st)
  end.

Fixpoint run (evs : list Event) (st : State) : option State :=
  match evs with
  | [] => Some st
  | ev :: rest => st' ← dispatch ev st; run rest st'
  end.

(** Images of at least 58 x 58 pixels: 35% of each side is 20 or more. *)
Definition large_image (ev : Event) : Prop :=
  match ev with
  | ImageLoaded w h => (58 <= w)%nat /\ (58 <= h)%nat
  | _ => True
  end.

Definition roomy (st : State) : Prop :=
  20 <= Size.width (canvasSize st) * 0.35 /\
  20 <= Size.height (canvasSize st) * 0.35.

(** ** Compositing *)

(** The canvas is observed at one point (px, py) of user space: a pixel
    is a premultiplied RGBA colour with exact components in [0, 1].  The
    three globalCompositeOperation modes that the source uses are the
    Porter-Duff operators below, [d] the canvas content and [s] what is
    drawn. *)
Module Px.
Record t := mk { r : Q; g : Q; b : Q; a : Q }.
Definition transparent : t := mk 0 0 0 0.
Definition black : t := mk 0 0 0 1.
Definition scale (k : Q) (p : t) : t := mk (k * r p) (k * g p) (k * b p) (k * a p).
Definition add (p q : t) : t := mk (r p + r q) (g p + g q) (b p + b q) (a p + a q).
Definition eqv (p q : t) : Prop :=
  r p == r q /\ g p == g q /\ b p == b q /\ a p == a q.
End Px.

Definition source_over (d s : Px.t) : Px.t := Px.add s (Px.scale (1 - Px.a s) d).
Definition destination_over (d s : Px.t) : Px.t := Px.add d (Px.scale (1 - Px.a d) s).
Definition destination_out (d s : Px.t) : Px.t := Px.scale (1 - Px.a s) d.

(** The path commands that drawMaskShape issues on a context. *)
Inductive PathCmd :=
  | rect (x y w h : Q)
  | ellipse (x y radiusX radiusY rotation startAngle endAngle : Q)
  | moveTo (x y : Q)
  | lineTo (x y : Q)
  | closePath.

Definition drawMaskShape `{M : MathLib} (mask : Mask.t) (s : Q) : list PathCmd :=
  let cx := Mask.x mask * s in
  let cy := Mask.y mask * s in
  let w := Mask.width mask * s in
  let h := Mask.height mask * s in
  match Mask.shape mask with
  | rectangle => [rect (cx - w / 2) (cy - h / 2) w h]
  | circle => [ellipse cx cy (w / 2) (h / 2) 0 0 (Math_PI * 2)]
  | triangle =>
      [moveTo cx (cy - h / 2);
       lineTo (cx + w / 2) (cy + h / 2);
       lineTo (cx - w / 2) (cy + h / 2);
       closePath]
  end.

(** What the browser's rasteriser decides, at a point of user space:
    the colour that drawImage(img, 0, 0, dw, dh) contributes (the image
    resampled to dw x dh), the colour a CSS colour string denotes (none
    when the string is not a colour, and the assignment is ignored), the
    coverage of a filled or clipping path, and the coverage of a stroked
    path for a line width and dash pattern.

    [drawnCanvas k content] is the colour that drawImage(cvs, 0, 0)
    contributes when the context has the transform scale(k) and [cvs] is
    a canvas of one pixel per unit whose content at its own points is
    [content]: each of its pixels is spread over k x k device pixels and
    resampled.  At k = 1 the two rasters coincide and the draw copies
    the pixels. *)
Class Canvas2D := {
  drawnImage : ImageData.t -> Q -> Q -> Q -> Q -> Px.t;
  cssColor : string -> option Px.t;
  fillCoverage : list PathCmd -> Q -> Q -> Q;
  strokeCoverage : list PathCmd -> Q -> list Q -> Q -> Q -> Q;
  drawnCanvas : Q -> (Q -> Q -> Px.t) -> Q -> Q -> Px.t;
  drawnCanvas_unit :
    forall (k : Q) (content : Q -> Q -> Px.t) (px py : Q),
      k == 1 -> drawnCanvas k content px py = content px py
}.

(** [window.devicePixelRatio || 1]; [None] stands for a value that is
    not a number. *)
Definition pixelRatio (devicePixelRatio : option Q) : Q :=
  match devicePixelRatio with
  | Some r => if Qeq_bool r 0 then 1 else r
  | None => 1
  end.

(** Coverage of the axis-aligned rectangle of fillRect / clearRect and
    of a canvas drawn at its own size. *)
Definition inRect (x y w h px py : Q) : bool :=
  Qle_bool x px && Qltb px (x + w) && Qle_bool y py && Qltb py (y + h).

Definition paint (color : Px.t) (coverage : Q) : Px.t := Px.scale coverage color.
Definition paintRect (color : Px.t) (x y w h px py : Q) : Px.t :=
  if inRect x y w h px py then color else Px.transparent.

Section Composite.
Context `{M : MathLib} `{C : Canvas2D}.

(** The colour held by fillStyle / strokeStyle (initially black)
    after the string has been assigned to it. *)
Definition styleOf (s : string) : Px.t := default Px.black (cssColor s).

(** The selection outline and the four handles (lines 515-534). *)
Definition drawSelection (mask : Mask.t) (cs px py : Q) (c : Px.t) : Px.t :=
  let c :=
    source_over c
      (paint (styleOf "rgba(100,141,255,0.6)")
         (strokeCoverage (drawMaskShape mask cs) 1 [5; 4] px py)) in
  fold_left
    (fun c h =>
       let hx := HandlePosition.x h in
       let hy := HandlePosition.y h in
       let c := source_over c (paintRect (styleOf "#ededed") (hx - 4) (hy - 4) 8 8 px py) in
       source_over c
         (paint (styleOf "#648dff")
            (strokeCoverage [rect (hx - 4) (hy - 4) 8 8] 1 [] px py)))
    (getHandlePositions mask cs) c.

(** The checkerboard loops (lines 498-504), under destination-over. *)
Definition checkerboard (drawW drawH px py : Q) (c : Px.t) : Px.t :=
  let t := 8 in
  for_range (Z.to_nat (Qceiling (drawH / t)))
    (fun ky =>
       for_range (Z.to_nat (Qceiling (drawW / t)))
         (fun kx c =>
            let tx := Qnat kx * t in
            let ty := Qnat ky * t in
            let fillStyle :=
              if (Z.rem (Math_floor (tx / t) + Math_floor (ty / t)) 2 =? 0)%Z
              then styleOf "#141414" else styleOf "#0a0a0a" in
            destination_over c (paintRect fillStyle tx ty t t px py)))
    c.

(** The tone of the tile whose indices sum to [k]. *)
Definition tileTone (k : Z) : Px.t :=
  if (Z.rem k 2 =? 0)%Z then styleOf "#141414" else styleOf "#0a0a0a".

(** The stencil canvas of the preview (lines 461-470): a canvas of
    [width] x [height] pixels, transparent until the mask shapes are
    filled on it in white at the display scale [cs]; its content at the
    point (qx, qy) of its own space. *)
Definition stencilCanvas (currentMasks : list Mask.t) (cs : Q) (width height : Z)
    (qx qy : Q) : Px.t :=
  if inRect 0 0 (inject_Z width) (inject_Z height) qx qy
  then
    fold_left
      (fun acc m =>
         source_over acc
           (paint (styleOf "#fff") (fillCoverage (drawMaskShape m cs) qx qy)))
      currentMasks Px.transparent
  else Px.transparent.

(** renderComposite, the body of the animation-frame callback, seen
    at the point (px, py) of user space.  [devicePixelRatio] is
    window.devicePixelRatio and [displayWidth] canvas.clientWidth.  The
    canvas has targetW x targetH device pixels and the context the
    transform scale(dpr) (lines 432-442): the point (px, py) is the
    device pixel (px * dpr, py * dpr).  [prior] is the content of the
    canvas when the drawing starts (transparent when lines 436-439 have
    resized it).  The stencil canvas has Math.round(drawW) x
    Math.round(drawH) pixels of its own, whatever the ratio, and is
    drawn onto the canvas through the transform.  [None]: no frame is
    drawn, the image canvas is missing. *)
Definition renderComposite (devicePixelRatio : option Q) (displayWidth : Q)
    (st : State) (prior : Px.t) (px py : Q) : option Px.t :=
  imgCvs ← imageCanvas st;
  let cSize := canvasSize st in
  let dpr := pixelRatio devicePixelRatio in
  let drawW := displayWidth in
  let drawH := Size.height cSize / Size.width cSize * displayWidth in
  let cs := drawW / Size.width cSize in
  let currentMasks := masks st in
  let htCvs := halftoneCanvas st in
  (* clearRect *)
  let c := if inRect 0 0 drawW drawH px py then Px.transparent else prior in
  let baseCanvas :=
    match maskContent st with halftone => Some imgCvs | metal => htCvs end in
  let maskedCanvas :=
    match maskContent st with halftone => htCvs | metal => Some imgCvs end in
  let c :=
    if (0 <? length currentMasks)%nat then
      let maskCvs :=
        stencilCanvas currentMasks cs (Math_round drawW) (Math_round drawH) in
      let c :=
        match baseCanvas with
        | Some base =>
            let c := source_over c (drawnImage base drawW drawH px py) in
            destination_out c (drawnCanvas dpr maskCvs px py)
        | None => c
        end in
      match maskedCanvas with
      | Some masked =>
          let clip :=
            fillCoverage (concat (map (fun m => drawMaskShape m cs) currentMasks)) px py in
          destination_over c (paint (drawnImage masked drawW drawH px py) clip)
      | None => c
      end
    else
      match baseCanvas with
      | Some base => source_over c (drawnImage base drawW drawH px py)
      | None => c
      end in
  let c :=
    if transparentBg st then checkerboard drawW drawH px py c
    else destination_over c (paintRect (styleOf (bgColor st)) 0 0 drawW drawH px py) in
  let c :=
    match selectedMask st with
    | Some currentSelected =>
        match currentMasks !! currentSelected with
        | Some mask => drawSelection mask cs px py c
        | None => c
        end
    | None => c
    end in
  Some c.

(** exportImage, seen at the point (px, py) of the new canvas.
    [None]: nothing is exported, a buffer is missing. *)
Definition exportImage (st : State) (px py : Q) : option Px.t :=
  imgCvs ← imageCanvas st;
  htCvs ← halftoneCanvas st;
  let cSize := canvasSize st in
  let currentMasks := masks st in
  let w := Size.width cSize * exportScale st in
  let h := Size.height cSize * exportScale st in
  let s := exportScale st in
  (* a new canvas is transparent, and clearRect leaves it so *)
  let c := Px.transparent in
  let base := match maskContent st with halftone => imgCvs | metal => htCvs end in
  let masked := match maskContent st with halftone => htCvs | metal => imgCvs end in
  let c :=
    if (0 <? length currentMasks)%nat then
      let maskCvs :=
        if inRect 0 0 w h px py
        then
          fold_left
            (fun acc m =>
               source_over acc
                 (paint (styleOf "#fff") (fillCoverage (drawMaskShape m s) px py)))
            currentMasks Px.transparent
        else Px.transparent in
      let c := source_over c (drawnImage base w h px py) in
      let c := destination_out c maskCvs in
      let clip :=
        fillCoverage (concat (map (fun m => drawMaskShape m s) currentMasks)) px py in
      destination_over c (paint (drawnImage masked w h px py) clip)
    else source_over c (drawnImage base w h px py) in
  let c :=
    if negb (transparentBg st)
    then destination_over c (paintRect (styleOf (bgColor st)) 0 0 w h px py)
    else c in
  Some c.

(** The CompositeEngine algorithm in the words of the specification
    (section 4.4), at the point (px, py) of an output of size W x H
    drawn at the given scale: start transparent; with masks, draw the
    base layer, erase it under the stencil, then paint the masked
    layer behind, clipped to the masks; without masks, draw the base
    layer; last, paint the background behind everything, a two-tone
    checkerboard of 8-unit tiles or one colour. *)
Inductive BackgroundPolicy :=
  | checkerboardBackground
  | solidBackground (color : string).

(** The stencil: every mask shape filled, opaque, at the output scale. *)

Definition specStencil (ms : list Mask.t) (scale px py : Q) : Px.t :=
  fold_left
    (fun acc m =>
       source_over acc
         (paint (styleOf "#fff") (fillCoverage (drawMaskShape m scale) px py)))
    ms Px.transparent.

(** Steps 1 to 3: everything but the background. *)
Definition specForeground (baseLayer maskedLayer : ImageData.t)
    (ms : list Mask.t) (W H scale : Q) (px py : Q) : Px.t :=
  let c := Px.transparent in
  match ms with
  | [] => source_over c (drawnImage baseLayer W H px py)
  | _ :: _ =>
      let c := source_over c (drawnImage baseLayer W H px py) in
      let c := destination_out c (specStencil ms scale px py) in
      destination_over c
        (paint (drawnImage maskedLayer W H px py)
           (fillCoverage (concat (map (fun m => drawMaskShape m scale) ms)) px py))
  end.

(** Step 4: the background, behind everything. *)
Definition specBackground (policy : BackgroundPolicy) (W H px py : Q)
    (c : Px.t) : Px.t :=
  match policy with
  | checkerboardBackground => checkerboard W H px py c
  | solidBackground color =>
      destination_over c (paintRect (styleOf color) 0 0 W H px py)
  end.

Definition specCompositeEngine (baseLayer maskedLayer : ImageData.t)
    (ms : list Mask.t) (policy : BackgroundPolicy) (W H scale : Q)
    (px py : Q) : Px.t :=
  specBackground policy W H px py
    (specForeground baseLayer maskedLayer ms W H scale px py).

Definition baseLayerOf (st : State) (img ht : ImageData.t) : ImageData.t :=
  match maskContent st with halftone => img | metal => ht end.
Definition maskedLayerOf (st : State) (img ht : ImageData.t) : ImageData.t :=
  match maskContent st with halftone => ht | metal => img end.
End Composite.

(** A plain rasteriser, to run the compositing on concrete states:
    nearest-neighbour resampling, hard-edged fills (a point is covered by
    a path when one of its rectangles, ellipses or convex polygons
    contains it), colours written #rgb or #rrggbb, strokes not drawn, a
    canvas drawn through a scale sampled at the point itself. *)
Definition premultiplied (r g b a : Z) : Px.t :=
  let alpha := inject_Z a / 255 in
  Px.mk (inject_Z r / 255 * alpha) (inject_Z g / 255 * alpha)
        (inject_Z b / 255 * alpha) alpha.

Definition nearestPixel (img : ImageData.t) (dw dh px py : Q) : Px.t :=
  if inRect 0 0 dw dh px py then
    let ix := Z.to_nat (Math_floor (px * Qnat (ImageData.width img) / dw)) in
    let iy := Z.to_nat (Math_floor (py * Qnat (ImageData.height img) / dh)) in
    let i := ((iy * ImageData.width img + ix) * 4)%nat in
    match ImageData.data img !! i, ImageData.data img !! (i + 1)%nat,
          ImageData.data img !! (i + 2)%nat, ImageData.data img !! (i + 3)%nat with
    | Some r, Some g, Some b, Some a => premultiplied r g b a
    | _, _, _, _ => Px.transparent
    end
  else Px.transparent.

Definition hexColor (s : string) : option Px.t :=
  match s with
  | String "#" (String r (String g (String b EmptyString))) =>
      r ← hexDigit r; g ← hexDigit g; b ← hexDigit b;
      Some (premultiplied (17 * r) (17 * g) (17 * b) 255)
  | _ =>
      if (String.length s =? 7)%nat then
        match hexToRgb s with
        | [Some r; Some g; Some b] => Some (premultiplied r g b 255)
        | _ => None
        end
      else None
  end.

(** The vertices of the sub-path being built, and the regions of the
    commands of a path. *)
Definition crossSign (p q : Q * Q) (px py : Q) : Q :=
  (fst q - fst p) * (py - snd p) - (snd q - snd p) * (px - fst p).

Fixpoint sameSide (first prev : Q * Q) (rest : list (Q * Q)) (px py : Q)
    : bool * bool :=
  match rest with
  | [] =>
      let c := crossSign prev first px py in (Qle_bool 0 c, Qle_bool c 0)
  | v :: rest' =>
      let c := crossSign prev v px py in
      let '(pos, neg) := sameSide first v rest' px py in
      (Qle_bool 0 c && pos, Qle_bool c 0 && neg)
  end.

Definition inPolygon (vs : list (Q * Q)) (px py : Q) : bool :=
  match vs with
  | v :: rest => let '(pos, neg) := sameSide v v rest px py in pos || neg
  | [] => false
  end.

Fixpoint pathCovers (path : list PathCmd) (vs : list (Q * Q)) (px py : Q) : bool :=
  match path with
  | [] => inPolygon vs px py
  | rect x y w h :: rest =>
      (Qle_bool x px && Qle_bool px (x + w) && Qle_bool y py && Qle_bool py (y + h))
      || pathCovers rest vs px py
  | ellipse cx cy rx ry _ _ _ :: rest =>
      (negb (Qeq_bool rx 0) && negb (Qeq_bool ry 0) &&
       Qle_bool ((px - cx) ^ 2 / rx ^ 2 + (py - cy) ^ 2 / ry ^ 2) 1)
      || pathCovers rest vs px py
  | moveTo x y :: rest => inPolygon vs px py || pathCovers rest [(x, y)] px py
  | lineTo x y :: rest => pathCovers rest (vs ++ [(x, y)]) px py
  | closePath :: rest => inPolygon vs px py || pathCovers rest [] px py
  end.

Definition plainCanvas : Canvas2D := {|
  drawnImage := nearestPixel;
  cssColor := hexColor;
  fillCoverage := fun path px py => if pathCovers path [] px py then 1 else 0;
  strokeCoverage := fun _ _ _ _ _ => 0;
  drawnCanvas := fun _ content px py => content px py;
  drawnCanvas_unit := fun _ _ _ _ _ => eq_refl
|}.

(** An 8 x 8 image, transparent in its first pixel and opaque red
    elsewhere, with the buffers that the two passes derive from it, in a
    fresh editor (the background policy is the transparent one), shown
    at its own size and exported at scale 1. *)
Definition sourceImage : ImageData.t :=
  ImageData.mk 8 8 ([0; 0; 0; 0] ++ concat (replicate 63 [200; 40; 40; 255]))%Z.
Definition adjustedImage : ImageData.t :=
  applyImageAdjustments (M:=rationalMath) DEFAULT_ADJUSTMENTS sourceImage.
Definition halftoneImage : ImageData.t :=
  applyLinearHalftone (M:=rationalMath) defaultHalftone adjustedImage.
Definition loadedEditor : State := {|
  masks := []; selectedMask := None; dragState := None;
  canvasSize := Size.mk 8 8; maskContent := halftone;
  bgColor := "#0d6847"; transparentBg := true;
  imageCanvas := Some adjustedImage; halftoneCanvas := Some halftoneImage;
  exportScale := 1
|}.

(** The same editor with the solid background policy and a rectangle
    mask over the left half of the image. *)
Definition solidMasked : State := {|
  masks := [Mask.mk rectangle 2 4 4 8 1]; selectedMask := None;
  dragState := None;
  canvasSize := Size.mk 8 8; maskContent := halftone;
  bgColor := "#0d6847"; transparentBg := false;
  imageCanvas := Some adjustedImage; halftoneCanvas := Some halftoneImage;
  exportScale := 1
|}.

(** ** The passes read pixel by pixel *)

(** The four samples of pixel number [p] of a row-major RGBA array. *)
Definition pixelAt (data : list Z) (p : nat) : option (Z * Z * Z * Z) :=
  r ← data !! (p * 4)%nat; g ← data !! (p * 4 + 1)%nat;
  b ← data !! (p * 4 + 2)%nat; a ← data !! (p * 4 + 3)%nat;
  Some (r, g, b, a).

(** What the body of the adjustment loops (lines 88-136) leaves in a
    pixel that held [px] at column x of row y. *)
Definition adjustedPixel `{M : MathLib} (adj : ImageAdjustments) (x y : nat)
    (px : Z * Z * Z * Z) : Z * Z * Z * Z :=
  let '(r0, g0, b0, a) := px in
  if (a <? 10)%Z then px
  else let '(r, g, b) := adjustedSamples adj x y r0 g0 b0 in (r, g, b, a).

(** What the halftone loops (lines 183-201) leave in the cleared output
    pixel at column x of row y, for the source pixel [px]. *)
Definition halftonedPixel `{M : MathLib} (options : HalftoneParams) (x y : nat)
    (px : Z * Z * Z * Z) : Z * Z * Z * Z :=
  let '(r, g, b, a) := px in
  if (a <? 10)%Z then (0, 0, 0, 0)%Z
  else if onLine options x y r g b
  then (toUint8Clamped (at_index (lineColor options) 0),
        toUint8Clamped (at_index (lineColor options) 1),
        toUint8Clamped (at_index (lineColor options) 2), a)
  else (0, 0, 0, 0)%Z.

(** The state of a row-major pass over [n] pixels of width [w] after
    its first [k] iterations: the pixels before [k] hold [f] of the
    source pixel, the others [rest] of it. *)
Definition treated (f rest : nat -> nat -> Z * Z * Z * Z -> Z * Z * Z * Z)
    (src : list Z) (w n k : nat) (data : list Z) : Prop :=
  length data = (4 * n)%nat /\
  forall p px, (p < n)%nat -> pixelAt src p = Some px ->
    pixelAt data p =
      Some (if (p <? k)%nat then f (p mod w)%nat (p / w)%nat px
            else rest (p mod w)%nat (p / w)%nat px).

(** A sample of a Uint8ClampedArray, and a buffer of [n] of them. *)
Definition sample8 (v : Z) : Prop := (0 <= v <= 255)%Z.
Definition buffer8 (n : nat) (d : list Z) : Prop :=
  length d = n /\ Forall sample8 d.

(** A colour channel that is a number of 0..255 (not NaN). *)
Definition channel8 (c : option Z) : Prop := exists z, c = Some z /\ sample8 z.

(** The brightness of a pixel (line 188) and the distance of a position
    to the centre of its line, as a fraction of half the period
    (lines 190-194): the two sides of the test [onLine]. *)
Definition brightness (r g b : Z) : Q :=
  (0.299 * inject_Z r + 0.587 * inject_Z g + 0.114 * inject_Z b) / 255.

Definition distFromCenter `{M : MathLib} (options : HalftoneParams) (x y : nat) : Q :=
  let rx := Qnat x * cos options + Qnat y * sin options in
  let posInPeriod :=
    jsRem (jsRem rx (lineSpacing options) + lineSpacing options) (lineSpacing options) in
  Qabs (posInPeriod / lineSpacing options - 0.5) * 2.

(** Settings and buffers to run the passes on: greyscale alone, noise
    alone, the lowest contrast, thick lines, one opaque black pixel, one
    opaque white pixel. *)
Definition greyscaleOnly : ImageAdjustments := {|
  greyscale := true; exposure := 0; contrast := 0; highlights := 0;
  shadows := 0; overlayColor := "#0d6847"; overlayOpacity := 0;
  noiseEnabled := false; noiseSize := 2; noiseColor := "#ffffff";
  noiseOpacity := 0.1
|}.
Definition noisy : ImageAdjustments := {|
  greyscale := false; exposure := 0; contrast := 0; highlights := 0;
  shadows := 0; overlayColor := "#0d6847"; overlayOpacity := 0;
  noiseEnabled := true; noiseSize := 2; noiseColor := "#ffffff";
  noiseOpacity := 0.1
|}.
Definition flatContrast : ImageAdjustments := {|
  greyscale := false; exposure := 1; contrast := -1; highlights := 0;
  shadows := 0; overlayColor := "#0d6847"; overlayOpacity := 0;
  noiseEnabled := false; noiseSize := 2; noiseColor := "#ffffff";
  noiseOpacity := 0.1
|}.
Definition thickHalftone : HalftoneParams := {|
  frequency := 20; angle := 90; thickness := 1.5;
  lineColor := hexToRgb "#ffffff"
|}.
Definition blackPixel : ImageData.t := ImageData.mk 1 1 [0; 0; 0; 255]%Z.
Definition whitePixel : ImageData.t := ImageData.mk 1 1 [255; 255; 255; 255]%Z.

(** ** The colour text input *)

(** ColorControl's change handler for the text field (lines 274-278):
    a "#" is put in front of text that lacks it, and the result goes to
    onChange when it matches /^#[0-9a-fA-F]{0,6}$/.  [None]: onChange is
    not called. *)
Definition startsWithHash (v : string) : bool :=
  match v with
  | String "#" _ => true
  | _ => false
  end.

Definition isHexDigit (c : ascii) : bool :=
  match hexDigit c with Some _ => true | None => false end.

Fixpoint allHexDigits (s : string) : bool :=
  match s with
  | EmptyString => true
  | String c rest => isHexDigit c && allHexDigits rest
  end.

Definition hexColorPrefix (v : string) : bool :=
  match v with
  | String "#" rest => allHexDigits rest && (String.length rest <=? 6)%nat
  | _ => false
  end.

Definition colorTextChange (input : string) : option string :=
  let v := if startsWithHash input then input else ("#" ++ input)%string in
  if hexColorPrefix v then Some v else None.

(** ** Hit-testing and the indices held by the state *)

(** The bounding box of a mask at display scale [cs]. *)
Definition inBoundingBox (px py : Q) (mask : Mask.t) (cs : Q) : Prop :=
  Mask.x mask * cs - Mask.width mask * cs / 2 <= px /\
  px <= Mask.x mask * cs + Mask.width mask * cs / 2 /\
  Mask.y mask * cs - Mask.height mask * cs / 2 <= py /\
  py <= Mask.y mask * cs + Mask.height mask * cs / 2.

Definition dragIndex (ds : DragState) : nat :=
  match ds with Move i _ _ => i | Resize i _ _ => i end.

(** The selection, and the drag in progress, designate a mask of the
    list. *)
Definition index_ok (st : State) : Prop :=
  match selectedMask st with
  | Some i => (i < length (masks st))%nat
  | None => True
  end.

Definition drag_ok (st : State) : Prop :=
  match dragState st with
  | Some ds => (dragIndex ds < length (masks st))%nat
  | None => True
  end.

(** The commands that write the mask list or the selection: the events
    above, and a click on an entry of the mask list (line 822), which
    exists for the indices of the list only. *)
Inductive Command :=
  | EditorEvent (ev : Event)
  | SelectFromList (i : nat).

Definition step (cmd : Command) (st : State) : option State :=
  match cmd with
  | EditorEvent ev => dispatch ev st
  | SelectFromList i => _ ← masks st !! i; Some (setSelectedMask (Some i) st)
  end.

Fixpoint steps (cmds : list Command) (st : State) : option State :=
  match cmds with
  | [] => Some st
  | cmd :: rest => st' ← step cmd st; steps rest st'
  end.

(** A square and a circle on top of it, the circle selected. *)
Definition twoMasks : State :=
  addMask circle 2 (setMasks (fun _ => [squareMask]) initialState).

(** ** Zoom *)

(** The zoom buttons (lines 704-706) and the keydown listener
    (lines 709-714); [tagName] is that of the event target.  A loaded
    image resets the zoom as well (line 352). *)
Definition zoomIn (z : Q) : Q := Qmin (z * 1.25) 4.
Definition zoomOut (z : Q) : Q := Qmax (z / 1.25) 0.25.
Definition zoomReset (z : Q) : Q := 1.

Definition handleKey (tagName key : string) (z : Q) : Q :=
  if ((tagName =? "INPUT") || (tagName =? "TEXTAREA"))%string then z
  else if ((key =? "+") || (key =? "="))%string then Qmin (z * 1.25) 4
  else if (key =? "-")%string then Qmax (z / 1.25) 0.25
  else if (key =? "0")%string then 1
  else z.

Inductive ZoomCommand :=
  | ZoomInButton
  | ZoomOutButton
  | ZoomResetButton
  | KeyDown (tagName key : string)
  | ZoomImageLoaded.

Definition zoomStep (z : Q) (cmd : ZoomCommand) : Q :=
  match cmd with
  | ZoomInButton => zoomIn z
  | ZoomOutButton => zoomOut z
  | ZoomResetButton => zoomReset z
  | KeyDown tagName key => handleKey tagName key z
  | ZoomImageLoaded => 1
  end.

Definition zoomRange (z : Q) : Prop := 0.25 <= z /\ z <= 4.

(** ** The stencil of the masks *)

(** One step of the loop that fills the mask shapes on the stencil
    canvas (lines 465-470 and 666-667). *)
Definition stencilStep `{M : MathLib} `{C : Canvas2D} (scale px py : Q)
    (acc : Px.t) (m : Mask.t) : Px.t :=
  source_over acc (paint (styleOf "#fff") (fillCoverage (drawMaskShape m scale) px py)).

(** The loaded editor with a rectangle mask over the left half of the
    image. *)
Definition maskedEditor : State :=
  setMasks (fun _ => [Mask.mk rectangle 2 4 4 8 1]) loadedEditor.

(* ================================================================= *)
(** * Properties *)

(** ** Exact arithmetic *)

Lemma Qltb_false (a b : Q) : b <= a -> Qltb a b = false.
Proof.
  intros Hle. unfold Qltb. apply negb_false_iff. now apply Qle_bool_iff.
Qed.

Lemma Qle_bool_true (a b : Q) : a <= b -> Qle_bool a b = true.
Proof. apply Qle_bool_iff. Qed.

Lemma Qeq_bool_false (a b : Q) : ~ a == b -> Qeq_bool a b = false.
Proof.
  intros Hne. destruct (Qeq_bool a b) eqn:E; [|reflexivity].
  apply Qeq_bool_iff in E. contradiction.
Qed.

Lemma Qsquare (a : Q) : a ^ 2 == a * a.
Proof. reflexivity. Qed.

(** Linear arithmetic over Q after turning the halvings of the source
    into multiplications by 1/2. *)
Ltac halves := unfold Qdiv in *; change (/ 2) with (1 # 2) in *.

Ltac qlra := halves; lra.

Lemma Qfloor_unique (q : Q) (z : Z) :
  inject_Z z <= q -> q < inject_Z z + 1 -> Qfloor q = z.
Proof.
  intros Hlo Hhi.
  pose proof (Qfloor_le q) as Hfl. pose proof (Qlt_floor q) as Hfh.
  rewrite inject_Z_plus in Hfh. change (inject_Z 1) with 1 in Hfh.
  assert (H1 : (Qfloor q < z + 1)%Z).
  { rewrite Zlt_Qlt, inject_Z_plus. change (inject_Z 1) with 1. lra. }
  assert (H2 : (z < Qfloor q + 1)%Z).
  { rewrite Zlt_Qlt, inject_Z_plus. change (inject_Z 1) with 1. lra. }
  lia.
Qed.

Lemma Qfloor_bounds (q : Q) (z : Z) :
  Qfloor q = z -> inject_Z z <= q /\ q < inject_Z z + 1.
Proof.
  intros <-. split; [apply Qfloor_le|].
  pose proof (Qlt_floor q) as Hfh.
  rewrite inject_Z_plus in Hfh. exact Hfh.
Qed.

Lemma Math_round_half (z : Z) (v : Q) : v == inject_Z z -> Math_round v = z.
Proof.
  intros Hv. unfold Math_round. apply Qfloor_unique; lra.
Qed.

(** ** Loops *)

Lemma for_range_invariant {S : Type} (P : S -> Prop) (n : nat)
    (body : nat -> S -> S) (s : S) :
  P s ->
  (forall i acc, (i < n)%nat -> P acc -> P (body i acc)) ->
  P (for_range n body s).
Proof.
  intros Hs Hstep. unfold for_range.
  assert (Hin : forall i, In i (seq 0 n) -> (i < n)%nat).
  { intros i Hi. apply in_seq in Hi. lia. }
  revert s Hs. induction (seq 0 n) as [|k ks IH]; intros s Hs; simpl.
  - exact Hs.
  - apply IH.
    + intros i Hi. apply Hin. now right.
    + apply Hstep; [apply Hin; now left | exact Hs].
Qed.

Lemma for_range_nested_invariant {S : Type} (P : S -> Prop) (h w : nat)
    (body : nat -> nat -> S -> S) (s : S) :
  P s ->
  (forall y x acc, (y < h)%nat -> (x < w)%nat -> P acc -> P (body y x acc)) ->
  P (for_range h (fun y => for_range w (body y)) s).
Proof.
  intros Hs Hstep. apply for_range_invariant; [exact Hs|].
  intros y acc Hy Hacc. apply for_range_invariant; [exact Hacc|].
  intros x acc' Hx Hacc'. now apply Hstep.
Qed.

(** A loop all of whose iterations but one leave the state as it is, up
    to a relation. *)
Section SingleStep.
Context {St : Type} (R : St -> St -> Prop).
Variable body : nat -> St -> St.
Variable K : nat.
Variable f : St -> St.
Hypothesis idle : forall i acc c, i <> K -> R acc c -> R (body i acc) c.
Hypothesis acts : forall acc c, R acc c -> R (body K acc) (f c).

Lemma fold_idle (l : list nat) (acc c : St) :
  (forall i, In i l -> i <> K) -> R acc c ->
  R (fold_left (fun a i => body i a) l acc) c.
Proof.
  revert acc. induction l as [|i l IH]; intros acc Hl Hacc; simpl; [exact Hacc|].
  apply IH; [intros j Hj; apply Hl; now right|].
  apply idle; [apply Hl; now left|exact Hacc].
Qed.

Lemma for_range_single (n : nat) (acc c : St) :
  (K < n)%nat -> R acc c -> R (for_range n body acc) (f c).
Proof.
  intros HK Hacc. unfold for_range.
  replace n with (K + S (n - S K))%nat by lia.
  rewrite List.seq_app, fold_left_app. simpl.
  apply fold_idle.
  - intros i Hi. apply in_seq in Hi. lia.
  - apply acts. apply fold_idle; [|exact Hacc].
    intros i Hi. apply in_seq in Hi. lia.
Qed.
End SingleStep.

(** ** The adjustment pass only rewrites colour samples of opaque pixels *)

Lemma pixel_index_cases (i j : nat) :
  (i mod 4 = 0)%nat -> (j = i \/ j = i + 1 \/ j = i + 2)%nat ->
  (j mod 4 <> 3 /\ j / 4 * 4 + 3 = i + 3)%nat.
Proof.
  intros Hi Hj.
  pose proof (Nat.div_mod_eq i 4) as Ei.
  pose proof (Nat.div_mod_eq j 4) as Ej.
  pose proof (Nat.mod_upper_bound j 4 ltac:(lia)) as Hb.
  assert (Hq : (j / 4 = i / 4)%nat) by lia.
  lia.
Qed.

Lemma adjustPixel_frozen `{M : MathLib} (adj : ImageAdjustments) (src : list Z)
    (width y x : nat) (data : list Z) :
  agree_frozen src data ->
  agree_frozen src (adjustPixel adj width y x data).
Proof.
  intros Hinv. unfold adjustPixel.
  set (i := ((y * width + x) * 4)%nat).
  assert (Hi : (i mod 4 = 0)%nat) by (unfold i; apply Nat.Div0.mod_mul).
  destruct (data !! (i + 3)%nat) as [a|] eqn:Ea; [|exact Hinv].
  destruct (data !! i) as [r0|]; [|exact Hinv].
  destruct (data !! (i + 1)%nat) as [g0|]; [|exact Hinv].
  destruct (data !! (i + 2)%nat) as [b0|]; [|exact Hinv].
  destruct (a <? 10)%Z eqn:Elow; [exact Hinv|].
  destruct (adjustedSamples adj x y r0 g0 b0) as [[r g] b].
  intros j Hj.
  assert (Hne : (j <> i /\ j <> i + 1 /\ j <> i + 2)%nat).
  { destruct (decide (j = i \/ j = i + 1 \/ j = i + 2)%nat) as [Hin|Hout]; [|lia].
    exfalso. destruct (pixel_index_cases i j Hi Hin) as [Hm Hq].
    destruct Hj as [Hj|[a' [Ha' Hlt]]]; [contradiction|].
    unfold alphaOf in Ha'. rewrite Hq in Ha'.
    assert (Hfz : frozen src (i + 3)).
    { left. rewrite Nat.add_comm, Nat.Div0.add_mod, Hi. reflexivity. }
    rewrite <- (Hinv _ Hfz), Ea in Ha'. inversion Ha'; subst a'.
    apply Z.ltb_ge in Elow. lia. }
  destruct Hne as (H0 & H1 & H2).
  rewrite !list_lookup_insert_ne by lia. now apply Hinv.
Qed.

Lemma applyImageAdjustments_frozen `{M : MathLib} (adj : ImageAdjustments)
    (src : ImageData.t) :
  agree_frozen (ImageData.data src)
    (ImageData.data (applyImageAdjustments adj src)).
Proof.
  unfold applyImageAdjustments; simpl.
  apply for_range_nested_invariant.
  - intros j _. reflexivity.
  - intros y x acc _ _ Hacc. now apply adjustPixel_frozen.
Qed.

(** C9: applyImageAdjustments never modifies the alpha channel: at every
    pixel, also one at or above the threshold, the alpha sample of the
    result is the alpha sample of the input. *)
Theorem applyImageAdjustments_alpha_unchanged `{M : MathLib}
    (adj : ImageAdjustments) (src : ImageData.t) (x y : nat) :
  sample (applyImageAdjustments adj src) x y 3 = sample src x y 3.
Proof.
  unfold sample. change (ImageData.width (applyImageAdjustments adj src))
    with (ImageData.width src).
  apply applyImageAdjustments_frozen. left.
  rewrite Nat.add_comm, Nat.Div0.add_mod, Nat.Div0.mod_mul. reflexivity.
Qed.

(** The adjustment half of the passthrough property: a pixel whose alpha
    sample is below 10 keeps its four samples. *)
Lemma applyImageAdjustments_passthrough `{M : MathLib}
    (adj : ImageAdjustments) (src : ImageData.t) (x y c : nat) (a : Z) :
  sample src x y 3 = Some a -> (a < 10)%Z -> (c < 4)%nat ->
  sample (applyImageAdjustments adj src) x y c = sample src x y c.
Proof.
  intros Ha Hlow Hc. unfold sample in *.
  change (ImageData.width (applyImageAdjustments adj src))
    with (ImageData.width src).
  apply applyImageAdjustments_frozen. right. exists a. split; [|exact Hlow].
  unfold alphaOf. rewrite <- Ha. f_equal.
  set (p := (y * ImageData.width src + x)%nat).
  replace ((p * 4 + c) / 4)%nat with p; [reflexivity|].
  apply Nat.div_unique with c; lia.
Qed.

(** Both passes return a buffer of the dimensions of their input. *)
Lemma applyImageAdjustments_wf `{M : MathLib} (adj : ImageAdjustments)
    (src : ImageData.t) :
  ImageData.wf src -> ImageData.wf (applyImageAdjustments adj src).
Proof.
  unfold ImageData.wf, applyImageAdjustments; simpl. intros Hwf.
  apply (for_range_nested_invariant
           (fun d => length d = (4 * (ImageData.width src * ImageData.height src))%nat));
    [exact Hwf|].
  intros y x acc _ _ Hacc. unfold adjustPixel.
  destruct (acc !! _) as [a|]; [|exact Hacc].
  destruct (acc !! _) as [r0|]; [|exact Hacc].
  destruct (acc !! _) as [g0|]; [|exact Hacc].
  destruct (acc !! _) as [b0|]; [|exact Hacc].
  destruct (a <? 10)%Z; [exact Hacc|].
  destruct (adjustedSamples adj x y r0 g0 b0) as [[r g] b].
  now rewrite !length_insert.
Qed.

(** ** Neutral settings *)

Lemma clamp255_sample (z : Z) (v : Q) :
  (0 <= z <= 255)%Z -> v == inject_Z z / 255 -> clamp255 v = z.
Proof.
  intros Hz Hv. unfold clamp255.
  rewrite (Math_round_half z); [lia|]. rewrite Hv. field.
Qed.

Lemma neutral_channel (c e k hi sh hW sW : Q) :
  e == 1 -> k == 0 -> hi == 0 -> sh == 0 ->
  (c * e - 0.5) * (1 + k) + 0.5 + (hi * hW * 0.5 + sh * sW * 0.5) == c.
Proof. intros -> -> -> ->. ring. Qed.

Section Neutral.
Context `{M : MathLib}.
Variable adj : ImageAdjustments.
Hypothesis Hneutral : neutral adj.
Hypothesis Hpow : forall e, e == 0 -> Math_pow 2 e == 1.

Lemma toneChannels_neutral (r0 g0 b0 : Z) (r g b : Q) :
  toneChannels adj r0 g0 b0 = (r, g, b) ->
  r == inject_Z r0 / 255 /\ g == inject_Z g0 / 255 /\ b == inject_Z b0 / 255.
Proof.
  destruct Hneutral as (Hgrey & Hexp & Hcon & Hhi & Hsh & _).
  unfold toneChannels, expFactor, contrastFactor. rewrite Hgrey.
  cbv beta zeta. intros [= <- <- <-].
  repeat split; apply neutral_channel; auto.
Qed.

Lemma adjustedSamples_neutral (x y : nat) (r0 g0 b0 : Z) :
  (0 <= r0 <= 255)%Z -> (0 <= g0 <= 255)%Z -> (0 <= b0 <= 255)%Z ->
  adjustedSamples adj x y r0 g0 b0 = (r0, g0, b0).
Proof.
  intros Hr Hg Hb. unfold adjustedSamples.
  destruct (toneChannels adj r0 g0 b0) as [[r g] b] eqn:Et.
  destruct (toneChannels_neutral _ _ _ _ _ _ Et) as (Er & Eg & Eb).
  destruct Hneutral as (_ & _ & _ & _ & _ & Hov & Hnoise).
  unfold noiseChannel, overlayChannel. rewrite Hnoise.
  rewrite (Qltb_false 0 (overlayOpacity adj)) by (rewrite Hov; apply Qle_refl).
  simpl.
  now rewrite (clamp255_sample r0), (clamp255_sample g0), (clamp255_sample b0).
Qed.

Lemma adjustPixel_neutral (width y x : nat) (data : list Z) :
  Forall (fun v => (0 <= v <= 255)%Z) data ->
  adjustPixel adj width y x data = data.
Proof.
  intros Hbytes. unfold adjustPixel.
  set (i := ((y * width + x) * 4)%nat).
  destruct (data !! (i + 3)%nat) as [a|]; [|reflexivity].
  destruct (data !! i) as [r0|] eqn:Er; [|reflexivity].
  destruct (data !! (i + 1)%nat) as [g0|] eqn:Eg; [|reflexivity].
  destruct (data !! (i + 2)%nat) as [b0|] eqn:Eb; [|reflexivity].
  destruct (a <? 10)%Z; [reflexivity|].
  rewrite adjustedSamples_neutral
    by (eapply (proj1 (Forall_lookup _ _) Hbytes); eassumption).
  rewrite (list_insert_id data i r0 Er).
  rewrite (list_insert_id data (i + 1) g0 Eg).
  now rewrite (list_insert_id data (i + 2) b0 Eb).
Qed.

Lemma applyImageAdjustments_neutral (src : ImageData.t) :
  ImageData.samples8 src ->
  ImageData.data (applyImageAdjustments adj src) = ImageData.data src.
Proof.
  intros Hbytes. unfold applyImageAdjustments; simpl.
  apply (for_range_nested_invariant (fun d => d = ImageData.data src));
    [reflexivity|].
  intros y x acc _ _ ->. now apply adjustPixel_neutral.
Qed.
End Neutral.

(** C5: with neutral parameters (greyscale off, exposure, contrast,
    highlights, shadows and overlay opacity 0, noise disabled)
    applyImageAdjustments is the identity on every pixel whose alpha
    sample is at least 10, for every buffer of 8-bit samples.
    Math.pow(2, 0) is 1. *)
Theorem applyImageAdjustments_neutral_identity `{M : MathLib}
    (adj : ImageAdjustments) (src : ImageData.t) (x y c : nat) (a : Z) :
  neutral adj ->
  (forall e, e == 0 -> Math_pow 2 e == 1) ->
  ImageData.samples8 src ->
  sample src x y 3 = Some a -> (10 <= a)%Z -> (c < 4)%nat ->
  sample (applyImageAdjustments adj src) x y c = sample src x y c.
Proof.
  intros Hn Hpow Hbytes _ _ _. unfold sample.
  now rewrite (applyImageAdjustments_neutral adj Hn Hpow src Hbytes).
Qed.

Lemma rationalMath_pow_zero (e : Q) :
  e == 0 -> Math_pow (MathLib:=rationalMath) 2 e == 1.
Proof.
  intros He. simpl. unfold Math_floor. rewrite (Qfloor_comp _ _ He).
  reflexivity.
Qed.

Lemma applyImageAdjustments_neutral_identity_witness :
  sample (applyImageAdjustments (M:=rationalMath) DEFAULT_ADJUSTMENTS twoPixels) 0 0 1
    = sample twoPixels 0 0 1.
Proof.
  apply (applyImageAdjustments_neutral_identity (M:=rationalMath)
           DEFAULT_ADJUSTMENTS twoPixels 0 0 1 255).
  - repeat split.
  - exact rationalMath_pow_zero.
  - unfold ImageData.samples8. simpl. repeat constructor; lia.
  - reflexivity.
  - lia.
  - lia.
Defined.

(** Each of the 2^24 pixels of 8-bit samples keeps its three samples
    under the neutral settings when the arithmetic is that of IEEE-754
    doubles: the error of (v / 255 - 0.5) + 0.5 is absorbed by
    Math.round. *)
Lemma neutral_identity_binary64 : Binary64.allPixelsKept = true.
Proof. vm_compute. reflexivity. Qed.

(** ** The halftone pass *)

Lemma clear_replicate (n m : nat) :
  for_range m clearPixel (replicate n 0%Z) = replicate n 0%Z.
Proof.
  apply (for_range_invariant (fun d => d = replicate n 0%Z)); [reflexivity|].
  intros k acc _ ->. unfold clearPixel. now rewrite !insert_replicate.
Qed.

Lemma write_pixel_same (dst : list Z) (i : nat) (r g b a : Z) :
  (i + 3 < length dst)%nat ->
  let dst' := <[(i + 3)%nat := a]>
                (<[(i + 2)%nat := b]> (<[(i + 1)%nat := g]> (<[i := r]> dst))) in
  dst' !! i = Some r /\ dst' !! (i + 1)%nat = Some g /\
  dst' !! (i + 2)%nat = Some b /\ dst' !! (i + 3)%nat = Some a.
Proof.
  intros Hlen dst'. unfold dst'. repeat split.
  - rewrite !list_lookup_insert_ne by lia. apply list_lookup_insert_eq. lia.
  - rewrite !list_lookup_insert_ne by lia. apply list_lookup_insert_eq.
    rewrite length_insert. lia.
  - rewrite !list_lookup_insert_ne by lia. apply list_lookup_insert_eq.
    rewrite !length_insert. lia.
  - apply list_lookup_insert_eq. rewrite !length_insert. lia.
Qed.

Lemma write_pixel_other (dst : list Z) (i j : nat) (r g b a : Z) :
  (j < i \/ i + 3 < j)%nat ->
  <[(i + 3)%nat := a]>
    (<[(i + 2)%nat := b]> (<[(i + 1)%nat := g]> (<[i := r]> dst))) !! j = dst !! j.
Proof. intros Hj. now rewrite !list_lookup_insert_ne by lia. Qed.

Lemma halftonePixel_inv `{M : MathLib} (options : HalftoneParams) (src : list Z)
    (w h y x : nat) (dst : list Z) :
  (y < h)%nat -> (x < w)%nat ->
  halftone_inv options src (w * h) dst ->
  halftone_inv options src (w * h) (halftonePixel options src w y x dst).
Proof.
  intros Hy Hx [Hlen Hpix]. unfold halftonePixel.
  set (q := (y * w + x)%nat).
  assert (Hq : (q < w * h)%nat) by (unfold q; nia).
  destruct (src !! (q * 4 + 3)%nat) as [srcAlpha|] eqn:Ea; [|now split].
  destruct (src !! (q * 4)%nat) as [r|]; [|now split].
  destruct (src !! (q * 4 + 1)%nat) as [g|]; [|now split].
  destruct (src !! (q * 4 + 2)%nat) as [b|]; [|now split].
  destruct (srcAlpha <? 10)%Z eqn:Elow; [now split|].
  destruct (onLine options x y r g b); [|now split].
  split; [now rewrite !length_insert|].
  intros p Hp. destruct (decide (p = q)) as [->|Hne].
  - right.
    destruct (write_pixel_same dst (q * 4)
                (toUint8Clamped (at_index (lineColor options) 0))
                (toUint8Clamped (at_index (lineColor options) 1))
                (toUint8Clamped (at_index (lineColor options) 2))
                srcAlpha ltac:(lia)) as (E0 & E1 & E2 & E3).
    unfold inked. rewrite E0, E1, E2, E3, Ea. repeat split.
    exists srcAlpha. split; [reflexivity|]. apply Z.ltb_ge in Elow. lia.
  - destruct (Hpix p Hp) as [Hb|(I0 & I1 & I2 & I3 & Ia)].
    + left. intros c Hc. rewrite write_pixel_other by lia. now apply Hb.
    + right. unfold inked. rewrite !write_pixel_other by lia. now repeat split.
Qed.

Lemma applyLinearHalftone_inv `{M : MathLib} (options : HalftoneParams)
    (src : ImageData.t) :
  halftone_inv options (ImageData.data src)
    (ImageData.width src * ImageData.height src)
    (ImageData.data (applyLinearHalftone options src)).
Proof.
  unfold applyLinearHalftone; simpl. rewrite clear_replicate.
  apply for_range_nested_invariant.
  - split; [apply length_replicate|].
    intros p Hp. left. intros c Hc. apply lookup_replicate_2. lia.
  - intros y x acc Hy Hx Hacc. now apply halftonePixel_inv.
Qed.

Lemma applyLinearHalftone_wf `{M : MathLib} (options : HalftoneParams)
    (src : ImageData.t) :
  ImageData.wf (applyLinearHalftone options src).
Proof.
  destruct (applyLinearHalftone_inv options src) as [Hlen _].
  exact Hlen.
Qed.

Lemma pixel_in_range (w h x y : nat) :
  (x < w)%nat -> (y < h)%nat -> (y * w + x < w * h)%nat.
Proof. intros Hx Hy. nia. Qed.

(** C6: in the output of applyLinearHalftone the alpha sample of every
    pixel is 0 or the alpha sample of the source pixel, and where it is
    not 0 the colour samples are the configured line colour (three 8-bit
    samples, as hexToRgb yields them). *)
Theorem applyLinearHalftone_alpha_and_colour `{M : MathLib}
    (options : HalftoneParams) (src : ImageData.t) (x y : nat) (cr cg cb : Z) :
  ImageData.wf src ->
  (x < ImageData.width src)%nat -> (y < ImageData.height src)%nat ->
  lineColor options = [Some cr; Some cg; Some cb] ->
  (0 <= cr <= 255)%Z -> (0 <= cg <= 255)%Z -> (0 <= cb <= 255)%Z ->
  exists a sa,
    sample (applyLinearHalftone options src) x y 3 = Some a /\
    sample src x y 3 = Some sa /\
    (a = 0%Z \/ a = sa) /\
    (a <> 0%Z ->
     sample (applyLinearHalftone options src) x y 0 = Some cr /\
     sample (applyLinearHalftone options src) x y 1 = Some cg /\
     sample (applyLinearHalftone options src) x y 2 = Some cb).
Proof.
  intros Hwf Hx Hy Hlc Hr Hg Hb.
  destruct (applyLinearHalftone_inv options src) as [_ Hpix].
  pose proof (pixel_in_range _ _ _ _ Hx Hy) as Hp.
  unfold sample.
  change (ImageData.width (applyLinearHalftone options src))
    with (ImageData.width src).
  set (p := (y * ImageData.width src + x)%nat) in *.
  destruct (lookup_lt_is_Some_2 (ImageData.data src) (p * 4 + 3)) as [sa Hsa].
  { rewrite Hwf. lia. }
  destruct (Hpix p Hp) as [Hblank|(I0 & I1 & I2 & I3 & _)].
  - exists 0%Z, sa. rewrite (Hblank 3%nat) by lia.
    split; [reflexivity|]. split; [exact Hsa|]. split; [now left|congruence].
  - exists sa, sa. rewrite I3, Hsa.
    split; [reflexivity|]. split; [reflexivity|]. split; [now right|].
    intros _. rewrite Nat.add_0_r, I0, I1, I2, Hlc. simpl.
    repeat split; f_equal; lia.
Qed.

Lemma applyLinearHalftone_alpha_and_colour_witness :
  exists a sa,
    sample (applyLinearHalftone (M:=rationalMath) defaultHalftone twoPixels) 0 0 3
      = Some a /\
    sample twoPixels 0 0 3 = Some sa /\
    (a = 0%Z \/ a = sa) /\
    (a <> 0%Z ->
     sample (applyLinearHalftone (M:=rationalMath) defaultHalftone twoPixels) 0 0 0
       = Some 255%Z /\
     sample (applyLinearHalftone (M:=rationalMath) defaultHalftone twoPixels) 0 0 1
       = Some 255%Z /\
     sample (applyLinearHalftone (M:=rationalMath) defaultHalftone twoPixels) 0 0 2
       = Some 255%Z).
Proof.
  apply (applyLinearHalftone_alpha_and_colour (M:=rationalMath)
           defaultHalftone twoPixels 0 0 255 255 255);
    first [reflexivity | simpl; lia].
Defined.

(** The halftone half of the threshold rule: a pixel whose alpha sample
    is below 10 is transparent black in the output. *)
Lemma applyLinearHalftone_below_threshold `{M : MathLib}
    (options : HalftoneParams) (src : ImageData.t) (x y c : nat) (a : Z) :
  (x < ImageData.width src)%nat -> (y < ImageData.height src)%nat ->
  sample src x y 3 = Some a -> (a < 10)%Z -> (c < 4)%nat ->
  sample (applyLinearHalftone options src) x y c = Some 0%Z.
Proof.
  intros Hx Hy Ha Hlow Hc.
  destruct (applyLinearHalftone_inv options src) as [_ Hpix].
  pose proof (pixel_in_range _ _ _ _ Hx Hy) as Hp.
  unfold sample in *.
  change (ImageData.width (applyLinearHalftone options src))
    with (ImageData.width src).
  destruct (Hpix _ Hp) as [Hblank|(_ & _ & _ & _ & a' & Ha' & Hge)].
  - now apply Hblank.
  - rewrite Ha in Ha'. inversion Ha'. lia.
Qed.

(** ** The alpha threshold *)

(** C1, as the code has it: a pixel whose alpha sample is below 10 keeps
    its four samples through applyImageAdjustments, and is transparent
    black (four samples 0) in the output of applyLinearHalftone. *)
Theorem below_threshold_pixels `{M : MathLib} (adj : ImageAdjustments)
    (options : HalftoneParams) (src : ImageData.t) (x y c : nat) (a : Z) :
  (x < ImageData.width src)%nat -> (y < ImageData.height src)%nat ->
  sample src x y 3 = Some a -> (a < 10)%Z -> (c < 4)%nat ->
  sample (applyImageAdjustments adj src) x y c = sample src x y c /\
  sample (applyLinearHalftone options src) x y c = Some 0%Z.
Proof.
  intros Hx Hy Ha Hlow Hc. split.
  - now apply applyImageAdjustments_passthrough with a.
  - now apply applyLinearHalftone_below_threshold with a.
Qed.

Lemma below_threshold_pixels_witness :
  sample (applyImageAdjustments (M:=rationalMath) DEFAULT_ADJUSTMENTS twoPixels) 1 0 2
    = sample twoPixels 1 0 2 /\
  sample (applyLinearHalftone (M:=rationalMath) defaultHalftone twoPixels) 1 0 2
    = Some 0%Z.
Proof.
  apply (below_threshold_pixels (M:=rationalMath) DEFAULT_ADJUSTMENTS
           defaultHalftone twoPixels 1 0 2 5);
    first [reflexivity | simpl; lia].
Defined.

(** A single pixel (10, 20, 30) with alpha 5: applyLinearHalftone
    returns transparent black, not the input pixel. *)
Lemma applyLinearHalftone_no_passthrough :
  sample faintPixel 0 0 3 = Some 5%Z /\
  sample faintPixel 0 0 0 = Some 10%Z /\
  sample (applyLinearHalftone (M:=rationalMath) defaultHalftone faintPixel) 0 0 0
    = Some 0%Z /\
  sample (applyLinearHalftone (M:=rationalMath) defaultHalftone faintPixel) 0 0 0
    <> sample faintPixel 0 0 0.
Proof. repeat split. discriminate. Qed.

(** ** Hit-testing *)

(** C8: for a mask of any of the three shapes with width and height at
    least 20 and a positive scale, the hit-test accepts the centre of the
    bounding box. *)
Theorem isPointInMask_center (mask : Mask.t) (cs : Q) :
  20 <= Mask.width mask -> 20 <= Mask.height mask -> 0 < cs ->
  isPointInMask (Mask.x mask * cs) (Mask.y mask * cs) mask cs = true.
Proof.
  intros Hw Hh Hcs. unfold isPointInMask. cbv zeta.
  set (cx := Mask.x mask * cs). set (cy := Mask.y mask * cs).
  set (w := Mask.width mask * cs). set (h := Mask.height mask * cs).
  assert (Hwpos : 0 < w) by (apply Qmult_lt_0_compat; lra).
  assert (Hhpos : 0 < h) by (apply Qmult_lt_0_compat; lra).
  clearbody cx cy w h.
  destruct (Mask.shape mask).
  - rewrite !Qle_bool_true by qlra. reflexivity.
  - assert (Hrx : ~ (w / 2) ^ 2 == 0).
    { rewrite Qsquare. intros E.
      assert (Hsq : 0 < (w / 2) * (w / 2)) by (apply Qmult_lt_0_compat; qlra).
      lra. }
    assert (Hry : ~ (h / 2) ^ 2 == 0).
    { rewrite Qsquare. intros E.
      assert (Hsq : 0 < (h / 2) * (h / 2)) by (apply Qmult_lt_0_compat; qlra).
      lra. }
    rewrite (Qeq_bool_false _ _ Hrx), (Qeq_bool_false _ _ Hry). simpl orb.
    apply Qle_bool_true.
    assert (E : (cx - cx) ^ 2 / (w / 2) ^ 2 + (cy - cy) ^ 2 / (h / 2) ^ 2 == 0).
    { rewrite !Qsquare. field. split; lra. }
    rewrite E. lra.
  - assert (Hwh : 0 < w * h) by (apply Qmult_lt_0_compat; lra).
    set (d := (cy + h / 2 - (cy + h / 2)) * (cx - (cx - w / 2)) +
              (cx - w / 2 - (cx + w / 2)) * (cy - h / 2 - (cy + h / 2))).
    assert (Ed : d == w * h) by (unfold d; field).
    assert (Hd : ~ d == 0) by (rewrite Ed; lra).
    rewrite (Qeq_bool_false _ _ Hd).
    assert (Ea : ((cy + h / 2 - (cy + h / 2)) * (cx - (cx - w / 2)) +
                  (cx - w / 2 - (cx + w / 2)) * (cy - (cy + h / 2))) / d == 1 # 2).
    { rewrite Ed. field. lra. }
    assert (Eb : ((cy + h / 2 - (cy - h / 2)) * (cx - (cx - w / 2)) +
                  (cx - (cx - w / 2)) * (cy - (cy + h / 2))) / d == 1 # 4).
    { rewrite Ed. field. lra. }
    rewrite !Qle_bool_true;
      [reflexivity|rewrite Ea, Eb; lra|rewrite Eb; lra|rewrite Ea; lra].
Qed.

Lemma isPointInMask_center_witness :
  isPointInMask (50 * 2) (40 * 2) (Mask.mk triangle 50 40 30 20 1) 2 = true.
Proof.
  apply (isPointInMask_center (Mask.mk triangle 50 40 30 20 1) 2);
    simpl; unfold Qle, Qlt; simpl; lia.
Defined.

(** ** Adding and deleting masks *)

(** C10: addMask appends the new mask at the end of the collection,
    centred on the canvas with 35% of its width and height, and selects
    it (the selection becomes the index of the new, last mask). *)
Theorem addMask_appends_and_selects (shape : Shape) (now : Z) (st : State) :
  let cs := canvasSize st in
  let m := Mask.mk shape (Size.width cs / 2) (Size.height cs / 2)
             (Size.width cs * 0.35) (Size.height cs * 0.35) now in
  masks (addMask shape now st) = masks st ++ [m] /\
  selectedMask (addMask shape now st) = Some (length (masks st)) /\
  masks (addMask shape now st) !! length (masks st) = Some m /\
  length (masks (addMask shape now st)) = S (length (masks st)).
Proof.
  cbv zeta. unfold addMask. simpl. repeat split.
  - f_equal. rewrite length_app. simpl. lia.
  - rewrite lookup_app_r by lia. now rewrite Nat.sub_diag.
  - rewrite length_app. simpl. lia.
Qed.

Lemma filterIndex_above {A : Type} (s t : nat) (arr : list A) :
  (s < t)%nat -> filterIndex (fun i => negb (i =? s)%nat) t arr = arr.
Proof.
  revert t. induction arr as [|a rest IH]; intros t Ht; cbn [filterIndex].
  - reflexivity.
  - destruct (Nat.eqb_spec t s) as [E|_]; [lia|].
    cbn [negb]. f_equal. apply IH. lia.
Qed.

Lemma filterIndex_delete {A : Type} (k s : nat) (arr : list A) :
  filterIndex (fun i => negb (i =? s + k)%nat) s arr = delete k arr.
Proof.
  revert k s. induction arr as [|a rest IH]; intros k s; cbn [filterIndex].
  - now destruct k.
  - destruct k as [|k].
    + rewrite Nat.add_0_r, Nat.eqb_refl. cbn [negb].
      apply filterIndex_above. lia.
    + destruct (Nat.eqb_spec s (s + S k)) as [E|_]; [lia|].
      cbn [negb]. change (delete (S k) (a :: rest)) with (a :: delete k rest).
      f_equal. rewrite <- (IH k (S s)).
      replace (S s + k)%nat with (s + S k)%nat by lia. reflexivity.
Qed.

Lemma deleteMask_masks (index : nat) (st : State) :
  masks (deleteMask index st) = delete index (masks st).
Proof.
  unfold deleteMask.
  assert (E : masks (setMasks (filterIndex (fun i => negb (i =? index)%nat) 0) st)
              = delete index (masks st)).
  { simpl. apply (filterIndex_delete index 0). }
  destruct (selectedMask st) as [sel|]; [|exact E].
  destruct (sel =? index)%nat; [exact E|].
  destruct (index <? sel)%nat; exact E.
Qed.

Lemma deleteMask_selected (st : State) (k j : nat) :
  selectedMask st = Some j ->
  selectedMask (deleteMask k st) =
    if (j =? k)%nat then None
    else if (k <? j)%nat then Some (j - 1)%nat else Some j.
Proof.
  intros Hsel. unfold deleteMask. rewrite Hsel.
  destruct (j =? k)%nat; [reflexivity|].
  destruct (k <? j)%nat; [reflexivity|exact Hsel].
Qed.

(** C7: deleting the mask at index k clears a selection equal to k,
    moves a selection j > k to j - 1, and leaves a selection j < k
    unchanged. *)
Theorem deleteMask_selection (st : State) (k j : nat) :
  selectedMask st = Some j ->
  (j = k -> selectedMask (deleteMask k st) = None) /\
  (k < j -> selectedMask (deleteMask k st) = Some (j - 1))%nat /\
  (j < k -> selectedMask (deleteMask k st) = Some j)%nat.
Proof.
  intros Hsel. rewrite (deleteMask_selected st k j Hsel). repeat split.
  - intros ->. now rewrite Nat.eqb_refl.
  - intros Hlt. destruct (Nat.eqb_spec j k) as [E|_]; [lia|].
    destruct (Nat.ltb_spec k j) as [_|E']; [reflexivity|lia].
  - intros Hlt. destruct (Nat.eqb_spec j k) as [E|_]; [lia|].
    destruct (Nat.ltb_spec k j) as [E'|_]; [lia|reflexivity].
Qed.

Lemma deleteMask_selection_witness :
  selectedMask (deleteMask 0 (setSelectedMask (Some 1%nat) squareSelected))
  = Some 0%nat.
Proof.
  apply (deleteMask_selection (setSelectedMask (Some 1%nat) squareSelected) 0 1
           eq_refl).
  lia.
Defined.

(** After a deletion the selection, when it survives, designates the
    mask it designated before. *)
Lemma deleteMask_keeps_selected_mask (st : State) (k j : nat) (m : Mask.t) :
  selectedMask st = Some j -> j <> k -> masks st !! j = Some m ->
  exists j', selectedMask (deleteMask k st) = Some j' /\
             masks (deleteMask k st) !! j' = Some m.
Proof.
  intros Hsel Hne Hm.
  rewrite (deleteMask_selected st k j Hsel), deleteMask_masks.
  destruct (Nat.eqb_spec j k) as [E|_]; [contradiction|].
  destruct (Nat.ltb_spec k j) as [Hkj|Hjk].
  - exists (j - 1)%nat. split; [reflexivity|].
    rewrite list_lookup_delete_ge by lia. now replace (S (j - 1)) with j by lia.
  - exists j. split; [reflexivity|]. rewrite list_lookup_delete_lt by lia.
    exact Hm.
Qed.

(** ** Resizing *)

Lemma resizeAnchor_opposite (mask : Mask.t) (pos : HandleId) :
  resizeAnchor mask pos = corner mask (opposite pos).
Proof. now destruct pos. Qed.

(** A press that starts a resize records, as the anchor, the corner
    diagonally opposite the first handle within reach. *)
Lemma pressedHandle_anchor (x y cs : Q) (st : State) (ds : DragState) :
  pressedHandle x y cs st = Some ds ->
  exists sel mask h,
    selectedMask st = Some sel /\ masks st !! sel = Some mask /\
    find (nearHandle x y) (getHandlePositions mask cs) = Some h /\
    ds = Resize sel (fst (corner mask (opposite (HandlePosition.pos h))))
                    (snd (corner mask (opposite (HandlePosition.pos h)))).
Proof.
  unfold pressedHandle. intros Hds.
  destruct (selectedMask st) as [sel|]; [|discriminate].
  destruct (masks st !! sel) as [mask|] eqn:Em; [|discriminate].
  destruct (find (nearHandle x y) (getHandlePositions mask cs)) as [h|] eqn:Eh;
    [|discriminate].
  exists sel, mask, h.
  split; [reflexivity|]. split; [exact Em|]. split; [exact Eh|].
  rewrite resizeAnchor_opposite in Hds.
  destruct (corner mask (opposite (HandlePosition.pos h))) as [ax ay].
  now inversion Hds.
Qed.

Lemma anchored_low (a m : Q) :
  a <= m -> 20 <= Qabs (m - a) ->
  (a + m) / 2 - Qmax 20 (Qabs (m - a)) / 2 == a /\
  (a + m) / 2 + Qmax 20 (Qabs (m - a)) / 2 == m.
Proof.
  intros Hside Hfar. rewrite (Q.max_r _ _ Hfar).
  rewrite Qabs_pos by lra. split; field.
Qed.

Lemma anchored_high (a m : Q) :
  m <= a -> 20 <= Qabs (m - a) ->
  (a + m) / 2 + Qmax 20 (Qabs (m - a)) / 2 == a /\
  (a + m) / 2 - Qmax 20 (Qabs (m - a)) / 2 == m.
Proof.
  intros Hside Hfar. rewrite (Q.max_r _ _ Hfar).
  rewrite Qabs_neg by lra. split; field.
Qed.

Lemma far_above (a m : Q) : a <= m -> 20 <= Qabs (m - a) -> a + 20 <= m.
Proof. intros Hside Hfar. rewrite Qabs_pos in Hfar; lra. Qed.

(** The mask that a resize step computes from the anchor and the
    pointer, when each is at least 20 units from the other on both axes:
    the pointer is one of its corners and the anchor the diagonally
    opposite one. *)
Lemma resized_box_corners (shape : Shape) (id : Z) (ax ay mx my : Q) :
  20 <= Qabs (mx - ax) -> 20 <= Qabs (my - ay) ->
  let mask' :=
    Mask.mk shape ((ax + mx) / 2) ((ay + my) / 2)
      (Qmax 20 (Qabs (mx - ax))) (Qmax 20 (Qabs (my - ay))) id in
  exists dragged,
    same_point (corner mask' dragged) (mx, my) /\
    same_point (corner mask' (opposite dragged)) (ax, ay) /\
    forall pos, on_handle_side pos (ax, ay) (mx, my) ->
      same_point (corner mask' (opposite pos)) (ax, ay).
Proof.
  intros Hfx Hfy mask'.
  destruct (Qlt_le_dec mx ax) as [Hx|Hx]; destruct (Qlt_le_dec my ay) as [Hy|Hy].
  - destruct (anchored_high ax mx (Qlt_le_weak _ _ Hx) Hfx) as [Xa Xp].
    destruct (anchored_high ay my (Qlt_le_weak _ _ Hy) Hfy) as [Ya Yp].
    exists tl. split; [now split|]. split; [now split|].
    intros pos Hside. destruct pos; destruct Hside as [Sx Sy];
      cbn [fst snd] in Sx, Sy; first [split; assumption | lra].
  - destruct (anchored_high ax mx (Qlt_le_weak _ _ Hx) Hfx) as [Xa Xp].
    destruct (anchored_low ay my Hy Hfy) as [Ya Yp].
    pose proof (far_above ay my Hy Hfy) as Hy'.
    exists bl. split; [now split|]. split; [now split|].
    intros pos Hside. destruct pos; destruct Hside as [Sx Sy];
      cbn [fst snd] in Sx, Sy; first [split; assumption | lra].
  - destruct (anchored_low ax mx Hx Hfx) as [Xa Xp].
    destruct (anchored_high ay my (Qlt_le_weak _ _ Hy) Hfy) as [Ya Yp].
    pose proof (far_above ax mx Hx Hfx) as Hx'.
    exists tr. split; [now split|]. split; [now split|].
    intros pos Hside. destruct pos; destruct Hside as [Sx Sy];
      cbn [fst snd] in Sx, Sy; first [split; assumption | lra].
  - destruct (anchored_low ax mx Hx Hfx) as [Xa Xp].
    destruct (anchored_low ay my Hy Hfy) as [Ya Yp].
    pose proof (far_above ax mx Hx Hfx) as Hx'.
    pose proof (far_above ay my Hy Hfy) as Hy'.
    exists br. split; [now split|]. split; [now split|].
    intros pos Hside. destruct pos; destruct Hside as [Sx Sy];
      cbn [fst snd] in Sx, Sy; first [split; assumption | lra].
Qed.

(** C3, as the code has it: while a resize drag is in progress with the
    anchor recorded for handle [pos] of the pre-drag mask (the corner
    diagonally opposite that handle), every pointer position at least 20
    units from the anchor on both axes yields a mask that has the pointer
    as one corner and the anchor as the diagonally opposite corner;
    while the pointer is on the handle's side of the anchor this is the
    corner opposite handle [pos] itself, still at its pre-drag location,
    for each of the four handles.  The equalities are those of the
    exact numbers of this development ([same_point] is [==] on both
    coordinates): the midpoint minus half the distance is the anchor.
    In the binary64 arithmetic of the source the three operations round,
    and the corner is the anchor up to that rounding only, see
    [resize_corner_binary64]. *)
Theorem resize_keeps_opposite_corner (pos : HandleId) (mask0 : Mask.t)
    (st : State) (sel : nat) (x y cs : Q) :
  let anchor := resizeAnchor mask0 pos in
  let pointer := (x / cs, y / cs) in
  dragState st = Some (Resize sel (fst anchor) (snd anchor)) ->
  (sel < length (masks st))%nat ->
  20 <= Qabs (x / cs - fst anchor) ->
  20 <= Qabs (y / cs - snd anchor) ->
  exists st' mask',
    handleMouseMove x y cs st = Some st' /\
    masks st' !! sel = Some mask' /\
    (exists dragged,
       same_point (corner mask' dragged) pointer /\
       same_point (corner mask' (opposite dragged)) (corner mask0 (opposite pos))) /\
    (on_handle_side pos anchor pointer ->
     same_point (corner mask' (opposite pos)) (corner mask0 (opposite pos))).
Proof.
  intros anchor pointer Hds Hsel Hfx Hfy.
  assert (Ea : corner mask0 (opposite pos) = anchor)
    by (symmetry; apply resizeAnchor_opposite).
  rewrite Ea. clearbody anchor. clear Ea.
  destruct (lookup_lt_is_Some_2 (masks st) sel Hsel) as [m Hm].
  unfold handleMouseMove. rewrite Hds. cbv zeta. unfold dragMasks.
  rewrite Hm. cbn [mbind option_bind].
  eexists. eexists. split; [reflexivity|].
  split; [cbn [masks setMasks]; now apply list_lookup_insert_eq|].
  destruct anchor as [ax ay]. cbn [fst snd] in *.
  destruct (resized_box_corners (Mask.shape m) (Mask.id m) ax ay (x / cs) (y / cs)
              Hfx Hfy) as (dragged & Hp & Ha & Hside).
  split; [exists dragged; now split|]. apply Hside.
Qed.

Lemma resize_keeps_opposite_corner_witness :
  exists st' mask',
    handleMouseMove 150 130 1
      (handleMouseDown 100 100 1 squareSelected) = Some st' /\
    masks st' !! 0%nat = Some mask' /\
    (exists dragged,
       same_point (corner mask' dragged) (150 / 1, 130 / 1) /\
       same_point (corner mask' (opposite dragged)) (corner squareMask (opposite br))) /\
    (on_handle_side br (resizeAnchor squareMask br) (150 / 1, 130 / 1) ->
     same_point (corner mask' (opposite br)) (corner squareMask (opposite br))).
Proof.
  apply (resize_keeps_opposite_corner br squareMask
           (handleMouseDown 100 100 1 squareSelected) 0 150 130 1).
  - reflexivity.
  - simpl. lia.
  - vm_compute. discriminate.
  - vm_compute. discriminate.
Defined.

(** Pressing the bottom-right handle of the square and dragging it to
    (10, 10), less than 20 units from the anchor: the mask keeps the
    minimum size around the midpoint, and its top-left corner leaves the
    anchor (0, 0) for (-5, -5). *)
Lemma resize_below_minimum_moves_corner :
  exists st' mask',
    dragState (handleMouseDown 100 100 1 squareSelected)
      = Some (Resize 0 (fst (resizeAnchor squareMask br))
                       (snd (resizeAnchor squareMask br))) /\
    handleMouseMove 10 10 1 (handleMouseDown 100 100 1 squareSelected)
      = Some st' /\
    masks st' !! 0%nat = Some mask' /\
    same_point (corner mask' (opposite br)) (-5, -5) /\
    same_point (corner squareMask (opposite br)) (0, 0) /\
    ~ same_point (corner mask' (opposite br)) (corner squareMask (opposite br)).
Proof.
  eexists. eexists.
  split; [reflexivity|]. split; [reflexivity|]. split; [reflexivity|].
  split; [split; reflexivity|]. split; [split; reflexivity|].
  intros [Hx _]. vm_compute in Hx. discriminate.
Qed.

(** The rounding of the source's arithmetic: a 100-pixel image shown 30
    wide, the anchor at 32.5 and the pointer at 29 (96.67 in image
    space, more than 20 units from the anchor).  In binary64 the centre
    minus half the width is 32.500000000000007: not the anchor, and
    within 1e-13 of it. *)
Lemma resize_corner_binary64 : Binary64.cornerOffAnchor = true.
Proof. vm_compute. reflexivity. Qed.

(** ** The minimum mask size *)

(** The resize branch clamps both dimensions of the dragged mask; the
    move branch copies them. *)
Lemma dragMasks_min_size (ds : DragState) (mx my : Q) (prev u : list Mask.t) :
  Forall min_size prev -> dragMasks ds mx my prev = Some u ->
  Forall min_size u.
Proof.
  intros Hprev Hu. destruct ds as [index ox oy|index ax ay]; simpl in Hu;
    destruct (prev !! index) as [m|] eqn:Em; simpl in Hu; try discriminate;
    inversion Hu; subst u; clear Hu; apply Forall_insert; try exact Hprev.
  - exact (proj1 (Forall_lookup _ _) Hprev _ _ Em).
  - split; apply Q.le_max_l.
Qed.

Lemma handleMouseMove_min_size (x y cs : Q) (st st' : State) :
  Forall min_size (masks st) -> handleMouseMove x y cs st = Some st' ->
  Forall min_size (masks st').
Proof.
  unfold handleMouseMove. intros Hst Hmove.
  destruct (dragState st) as [ds|]; [|now inversion Hmove; subst].
  destruct (dragMasks ds (x / cs) (y / cs) (masks st)) as [u|] eqn:Eu;
    [|discriminate].
  inversion Hmove; subst st'. simpl. eapply dragMasks_min_size; eassumption.
Qed.

Lemma deleteMask_min_size (index : nat) (st : State) :
  Forall min_size (masks st) -> Forall min_size (masks (deleteMask index st)).
Proof. intros Hst. rewrite deleteMask_masks. now apply Forall_delete. Qed.

Lemma handleKeyDelete_min_size (st : State) :
  Forall min_size (masks st) -> Forall min_size (masks (handleKeyDelete st)).
Proof.
  intros Hst. unfold handleKeyDelete.
  destruct (selectedMask st) as [sel|]; [|exact Hst].
  simpl. rewrite (filterIndex_delete sel 0). now apply Forall_delete.
Qed.

(** addMask has no clamp: the new mask meets the minimum exactly when
    35% of each canvas dimension is at least 20. *)
Lemma addMask_min_size (shape : Shape) (now : Z) (st : State) :
  Forall min_size (masks st) ->
  Forall min_size (masks (addMask shape now st)) <->
  20 <= Size.width (canvasSize st) * 0.35 /\
  20 <= Size.height (canvasSize st) * 0.35.
Proof.
  intros Hst. unfold addMask. simpl. rewrite Forall_app, Forall_singleton.
  unfold min_size at 2. simpl. tauto.
Qed.

(** C4 at a 50 x 50 image: the mask that addMask creates is 17.5 units
    wide and high, below the minimum of 20 that the resize branch
    enforces. *)
Theorem addMask_small_image_below_minimum :
  exists m,
    masks (addMask rectangle 1 (imageLoaded 50 50 initialState)) = [m] /\
    Mask.width m == 17.5 /\ Mask.height m == 17.5 /\
    Mask.width m < 20 /\ Mask.height m < 20.
Proof.
  eexists. split; [reflexivity|]. repeat split.
Qed.

(** The failing input of the minimum size in binary64: 50 * 0.35 is
    below 20. *)
Lemma small_mask_binary64 : Binary64.smallMaskBelowMinimum = true.
Proof. vm_compute. reflexivity. Qed.

Lemma large_image_roomy (w h : nat) :
  (58 <= w)%nat -> (58 <= h)%nat ->
  20 <= Qnat w * 0.35 /\ 20 <= Qnat h * 0.35.
Proof.
  intros Hw Hh. unfold Qnat.
  assert (Hw' : 58 <= inject_Z (Z.of_nat w)).
  { change 58 with (inject_Z 58). rewrite <- Zle_Qle. lia. }
  assert (Hh' : 58 <= inject_Z (Z.of_nat h)).
  { change 58 with (inject_Z 58). rewrite <- Zle_Qle. lia. }
  split; lra.
Qed.

Lemma dispatch_min_size (ev : Event) (st st' : State) :
  large_image ev -> dispatch ev st = Some st' ->
  roomy st /\ Forall min_size (masks st) ->
  roomy st' /\ Forall min_size (masks st').
Proof.
  intros Hev Hstep [Hroomy Hmin].
  destruct ev as [w h|shape now|x y cw|x y cw| |index| ]; simpl in Hstep.
  - inversion Hstep; subst st'. split; [|constructor].
    destruct Hev as [Hw Hh]. now apply large_image_roomy.
  - inversion Hstep; subst st'. split; [exact Hroomy|].
    now apply addMask_min_size.
  - inversion Hstep; subst st'. unfold handleMouseDown.
    destruct (pressedHandle _ _ _ st); [now split|].
    destruct (topmostHit _ _ _ _ _) as [[i m]|]; now split.
  - split.
    + unfold handleMouseMove in Hstep. destruct (dragState st) as [ds|].
      * destruct (dragMasks _ _ _ _); [|discriminate].
        now inversion Hstep; subst st'.
      * now inversion Hstep; subst st'.
    + eapply handleMouseMove_min_size; eassumption.
  - inversion Hstep; subst st'. now split.
  - inversion Hstep; subst st'. split; [|now apply deleteMask_min_size].
    unfold deleteMask. destruct (selectedMask st) as [sel|]; [|exact Hroomy].
    destruct (sel =? index)%nat; [exact Hroomy|].
    destruct (index <? sel)%nat; exact Hroomy.
  - inversion Hstep; subst st'. split; [|now apply handleKeyDelete_min_size].
    unfold handleKeyDelete. now destruct (selectedMask st).
Qed.

(** With images of at least 58 x 58 pixels, every mask of every state
    that a run of commands reaches has width and height at least 20. *)
Lemma run_min_size (evs : list Event) (st st' : State) :
  Forall large_image evs -> run evs st = Some st' ->
  roomy st /\ Forall min_size (masks st) ->
  roomy st' /\ Forall min_size (masks st').
Proof.
  intros Hevs. revert st. induction Hevs as [|ev rest Hev _ IH]; intros st Hrun Hst.
  - now inversion Hrun; subst st'.
  - simpl in Hrun. destruct (dispatch ev st) as [st1|] eqn:E; [|discriminate].
    apply (IH st1 Hrun). eapply dispatch_min_size; eassumption.
Qed.

Lemma initialState_min_size :
  roomy initialState /\ Forall min_size (masks initialState).
Proof. split; [split; vm_compute; discriminate|constructor]. Qed.

Lemma reachable_min_size (evs : list Event) (st : State) :
  Forall large_image evs -> run evs initialState = Some st ->
  Forall min_size (masks st).
Proof.
  intros Hevs Hrun.
  exact (proj2 (run_min_size evs initialState st Hevs Hrun initialState_min_size)).
Qed.

(** A mask deleted by the keyboard while it is being dragged: the next
    pointer move finds no mask at the dragged index. *)
Lemma drag_after_key_delete :
  run [ImageLoaded 100 100; AddMask rectangle 1; MouseDown 50 50 100;
       KeyDelete; MouseMove 60 60 100] initialState = None.
Proof. reflexivity. Qed.

(** ** The two compositing routines *)

(** C2, as the code has it: with both buffers present, the solid
    background policy and no mask selected, renderComposite and
    exportImage each compute the algorithm of the specification, at their
    own output size and scale.  The export does so at every point
    (qx, qy) inside its output.  The preview does so at every point
    (px, py) inside the drawn rectangle and the stencil canvas where the
    draw of the stencil canvas through the transform of the device pixel
    ratio reproduces the stencil; by [drawnCanvas_unit] that is every
    such point at ratio 1.  The two points are independent: neither
    routine is restricted to the output of the other. *)
Theorem composite_paths_follow_spec `{M : MathLib} `{C : Canvas2D}
    (st : State) (img ht : ImageData.t) (devicePixelRatio : option Q)
    (displayWidth : Q) (prior : Px.t) (px py qx qy : Q) :
  let cSize := canvasSize st in
  let drawW := displayWidth in
  let drawH := Size.height cSize / Size.width cSize * displayWidth in
  let cs := drawW / Size.width cSize in
  let stencil := stencilCanvas (masks st) cs (Math_round drawW) (Math_round drawH) in
  let w := Size.width cSize * exportScale st in
  let h := Size.height cSize * exportScale st in
  imageCanvas st = Some img -> halftoneCanvas st = Some ht ->
  transparentBg st = false -> selectedMask st = None ->
  (inRect 0 0 drawW drawH px py = true ->
   inRect 0 0 (inject_Z (Math_round drawW)) (inject_Z (Math_round drawH)) px py = true ->
   drawnCanvas (pixelRatio devicePixelRatio) stencil px py = stencil px py ->
   renderComposite devicePixelRatio displayWidth st prior px py =
     Some (specCompositeEngine (baseLayerOf st img ht) (maskedLayerOf st img ht)
             (masks st) (solidBackground (bgColor st)) drawW drawH cs px py)) /\
  (inRect 0 0 w h qx qy = true ->
   exportImage st qx qy =
     Some (specCompositeEngine (baseLayerOf st img ht) (maskedLayerOf st img ht)
             (masks st) (solidBackground (bgColor st)) w h (exportScale st) qx qy)).
Proof.
  intros cSize drawW drawH cs stencil w h Himg Hht Hbg Hsel. split.
  - intros Hin Hstencil Hdrawn.
    unfold renderComposite, specCompositeEngine, specBackground,
      specForeground, specStencil, baseLayerOf, maskedLayerOf.
    rewrite Himg, Hht, Hbg, Hsel. cbn [mbind option_bind].
    fold cSize. fold drawH.
    change (displayWidth / Size.width cSize) with cs.
    change displayWidth with drawW.
    fold stencil. rewrite Hdrawn, Hin.
    unfold stencil, stencilCanvas. rewrite Hstencil.
    destruct (masks st) as [|m ms]; cbn [length Nat.ltb Nat.leb];
      destruct (maskContent st); reflexivity.
  - intros Hout.
    unfold exportImage, specCompositeEngine, specBackground,
      specForeground, specStencil, baseLayerOf, maskedLayerOf.
    rewrite Himg, Hht, Hbg. cbn [mbind option_bind negb].
    fold cSize. fold w. fold h. rewrite Hout.
    destruct (masks st) as [|m ms]; cbn [length Nat.ltb Nat.leb];
      destruct (maskContent st); reflexivity.
Qed.

(** The masked 8 x 8 image shown 80 wide at device pixel ratio 1 and
    exported at scale 1: the preview at (40, 40), a point outside the
    8 x 8 export, and the export at (1, 1). *)
Lemma composite_paths_follow_spec_witness :
  renderComposite (M:=rationalMath) (C:=plainCanvas) (Some 1) 80 solidMasked
    Px.transparent 40 40 =
    Some (specCompositeEngine (M:=rationalMath) (C:=plainCanvas)
            adjustedImage halftoneImage (masks solidMasked)
            (solidBackground "#0d6847") 80 (8 / 8 * 80) (80 / 8) 40 40) /\
  exportImage (M:=rationalMath) (C:=plainCanvas) solidMasked 1 1 =
    Some (specCompositeEngine (M:=rationalMath) (C:=plainCanvas)
            adjustedImage halftoneImage (masks solidMasked)
            (solidBackground "#0d6847") (8 * 1) (8 * 1) 1 1 1).
Proof.
  destruct (composite_paths_follow_spec (M:=rationalMath) (C:=plainCanvas)
              solidMasked adjustedImage halftoneImage (Some 1) 80 Px.transparent
              40 40 1 1 eq_refl eq_refl eq_refl eq_refl) as [Hpreview Hexport].
  split.
  - apply Hpreview; [reflexivity|reflexivity|].
    apply (drawnCanvas_unit (Canvas2D:=plainCanvas)). reflexivity.
  - apply Hexport. reflexivity.
Defined.

(** The 8 x 8 image under the transparent background policy, shown at
    its own size (device pixel ratio 1) and exported at scale 1: at the
    point (0, 0), where the
    image is transparent, the preview holds the opaque first tone of
    the checkerboard and the export a transparent pixel. *)
Lemma preview_checkerboard_export_transparent :
  exists p q,
    renderComposite (M:=rationalMath) (C:=plainCanvas) (Some 1) 8 loadedEditor
      Px.transparent 0 0 = Some p /\
    exportImage (M:=rationalMath) (C:=plainCanvas) loadedEditor 0 0 = Some q /\
    Px.eqv p (premultiplied 20 20 20 255) /\
    Px.eqv q Px.transparent /\
    ~ Px.eqv p q.
Proof.
  eexists. eexists. split; [reflexivity|]. split; [reflexivity|].
  split; [repeat split|]. split; [repeat split|].
  intros (_ & _ & _ & Ha). vm_compute in Ha. discriminate.
Qed.

(** Where the two routines part.  Under the transparent policy the
    preview paints the checkerboard behind the composite and the export
    paints nothing; a valid selection adds the outline and the handles
    to the preview only; the export needs both buffers. *)
Lemma renderComposite_transparent_policy `{M : MathLib} `{C : Canvas2D}
    (st : State) (img ht : ImageData.t) (devicePixelRatio : option Q)
    (displayWidth : Q) (prior : Px.t) (px py : Q) :
  let cSize := canvasSize st in
  let drawH := Size.height cSize / Size.width cSize * displayWidth in
  let cs := displayWidth / Size.width cSize in
  imageCanvas st = Some img -> halftoneCanvas st = Some ht ->
  transparentBg st = true -> selectedMask st = None ->
  inRect 0 0 displayWidth drawH px py = true ->
  inRect 0 0 (inject_Z (Math_round displayWidth)) (inject_Z (Math_round drawH)) px py = true ->
  pixelRatio devicePixelRatio == 1 ->
  renderComposite devicePixelRatio displayWidth st prior px py =
    Some (specCompositeEngine (baseLayerOf st img ht) (maskedLayerOf st img ht)
            (masks st) checkerboardBackground displayWidth drawH cs px py).
Proof.
  intros cSize drawH cs Himg Hht Hbg Hsel Hin Hstencil Hdpr.
  unfold renderComposite, specCompositeEngine, specBackground,
    specForeground, specStencil, baseLayerOf, maskedLayerOf.
  rewrite Himg, Hht, Hbg, Hsel. cbn [mbind option_bind].
  fold cSize. fold drawH. fold cs.
  rewrite (drawnCanvas_unit _ _ _ _ Hdpr), Hin.
  unfold stencilCanvas. rewrite Hstencil.
  destruct (masks st) as [|m ms]; cbn [length Nat.ltb Nat.leb];
    destruct (maskContent st); reflexivity.
Qed.

Lemma exportImage_transparent_policy `{M : MathLib} `{C : Canvas2D}
    (st : State) (img ht : ImageData.t) (px py : Q) :
  let w := Size.width (canvasSize st) * exportScale st in
  let h := Size.height (canvasSize st) * exportScale st in
  imageCanvas st = Some img -> halftoneCanvas st = Some ht ->
  transparentBg st = true ->
  inRect 0 0 w h px py = true ->
  exportImage st px py =
    Some (specForeground (baseLayerOf st img ht) (maskedLayerOf st img ht)
            (masks st) w h (exportScale st) px py).
Proof.
  intros w h Himg Hht Hbg Hout.
  unfold exportImage, specForeground, specStencil, baseLayerOf, maskedLayerOf.
  rewrite Himg, Hht, Hbg. cbn [mbind option_bind negb].
  fold w. fold h. rewrite Hout.
  destruct (masks st) as [|m ms]; cbn [length Nat.ltb Nat.leb];
    destruct (maskContent st); reflexivity.
Qed.

Lemma renderComposite_selection `{M : MathLib} `{C : Canvas2D}
    (st : State) (img ht : ImageData.t) (devicePixelRatio : option Q)
    (displayWidth : Q) (prior : Px.t) (px py : Q) (sel : nat) (mask : Mask.t) :
  let cSize := canvasSize st in
  let drawH := Size.height cSize / Size.width cSize * displayWidth in
  let cs := displayWidth / Size.width cSize in
  imageCanvas st = Some img -> halftoneCanvas st = Some ht ->
  transparentBg st = false ->
  selectedMask st = Some sel -> masks st !! sel = Some mask ->
  inRect 0 0 displayWidth drawH px py = true ->
  inRect 0 0 (inject_Z (Math_round displayWidth)) (inject_Z (Math_round drawH)) px py = true ->
  pixelRatio devicePixelRatio == 1 ->
  renderComposite devicePixelRatio displayWidth st prior px py =
    Some (drawSelection mask cs px py
            (specCompositeEngine (baseLayerOf st img ht) (maskedLayerOf st img ht)
               (masks st) (solidBackground (bgColor st)) displayWidth drawH cs px py)).
Proof.
  intros cSize drawH cs Himg Hht Hbg Hsel Hmask Hin Hstencil Hdpr.
  unfold renderComposite, specCompositeEngine, specBackground,
    specForeground, specStencil, baseLayerOf, maskedLayerOf.
  rewrite Himg, Hht, Hbg, Hsel, Hmask. cbn [mbind option_bind].
  fold cSize. fold drawH. fold cs.
  rewrite (drawnCanvas_unit _ _ _ _ Hdpr), Hin.
  unfold stencilCanvas. rewrite Hstencil.
  destruct (masks st) as [|m ms]; cbn [length Nat.ltb Nat.leb];
    destruct (maskContent st); reflexivity.
Qed.

Lemma exportImage_needs_both_buffers `{M : MathLib} `{C : Canvas2D}
    (st : State) (px py : Q) :
  halftoneCanvas st = None -> exportImage st px py = None.
Proof.
  intros Hht. unfold exportImage. rewrite Hht.
  now destruct (imageCanvas st).
Qed.

Lemma renderComposite_without_halftone `{M : MathLib} `{C : Canvas2D}
    (st : State) (img : ImageData.t) (devicePixelRatio : option Q)
    (displayWidth : Q) (prior : Px.t) (px py : Q) :
  imageCanvas st = Some img ->
  is_Some (renderComposite devicePixelRatio displayWidth st prior px py).
Proof. intros Himg. unfold renderComposite. rewrite Himg. simpl. eauto. Qed.

(** ** The checkerboard *)

Lemma Px_eqv_refl (p : Px.t) : Px.eqv p p.
Proof. repeat split; reflexivity. Qed.

Lemma Px_eqv_trans (p q s : Px.t) : Px.eqv p q -> Px.eqv q s -> Px.eqv p s.
Proof.
  intros (Hr & Hg & Hb & Ha) (Hr' & Hg' & Hb' & Ha').
  repeat split; etransitivity; eassumption.
Qed.

Lemma destination_over_eqv (d d' s s' : Px.t) :
  Px.eqv d d' -> Px.eqv s s' ->
  Px.eqv (destination_over d s) (destination_over d' s').
Proof.
  intros (Hr & Hg & Hb & Ha) (Hr' & Hg' & Hb' & Ha').
  unfold destination_over, Px.eqv; simpl.
  rewrite Hr, Hg, Hb, Ha, Hr', Hg', Hb', Ha'. repeat split; reflexivity.
Qed.

Lemma destination_over_transparent (d : Px.t) :
  Px.eqv (destination_over d Px.transparent) d.
Proof. unfold destination_over, Px.eqv; simpl. repeat split; ring. Qed.

Lemma paintRect_outside (color : Px.t) (x y w h px py : Q) :
  inRect x y w h px py = false -> paintRect color x y w h px py = Px.transparent.
Proof. unfold paintRect. now intros ->. Qed.

Lemma paintRect_inside (color : Px.t) (x y w h px py : Q) :
  inRect x y w h px py = true -> paintRect color x y w h px py = color.
Proof. unfold paintRect. now intros ->. Qed.

(** The tile of side 8 with index k on an axis holds the coordinate p
    exactly when k is the integer part of p / 8. *)
Lemma tile_index (k : nat) (p : Q) :
  (Qnat k * 8 <= p /\ p < Qnat k * 8 + 8) <-> Qfloor (p / 8) = Z.of_nat k.
Proof.
  unfold Qnat. split.
  - intros [Hlo Hhi]. apply Qfloor_unique; unfold Qdiv;
      change (/ 8) with (1 # 8); lra.
  - intros Hfl. apply Qfloor_bounds in Hfl. destruct Hfl as [Hlo Hhi].
    unfold Qdiv in *. change (/ 8) with (1 # 8) in *. split; lra.
Qed.

Lemma inRect_tile (kx ky : nat) (px py : Q) :
  inRect (Qnat kx * 8) (Qnat ky * 8) 8 8 px py = true <->
  Qfloor (px / 8) = Z.of_nat kx /\ Qfloor (py / 8) = Z.of_nat ky.
Proof.
  unfold inRect, Qltb. rewrite !andb_true_iff, !negb_true_iff.
  rewrite <- !tile_index, !Qle_bool_iff.
  assert (Hlt : forall a b, Qle_bool b a = false <-> a < b).
  { intros a b. split.
    - intros E. destruct (Qlt_le_dec a b) as [Hl|Hl]; [exact Hl|].
      apply Qle_bool_iff in Hl. congruence.
    - intros Hl. destruct (Qle_bool b a) eqn:E; [|reflexivity].
      apply Qle_bool_iff in E. lra. }
  rewrite !Hlt. tauto.
Qed.

Lemma Qfloor_tile_origin (k : nat) : Math_floor (Qnat k * 8 / 8) = Z.of_nat k.
Proof.
  unfold Math_floor, Qnat.
  rewrite (Qfloor_comp _ (inject_Z (Z.of_nat k))) by field.
  apply Qfloor_Z.
Qed.

Lemma tile_column (p limit : Q) :
  0 <= p -> p < limit ->
  Z.of_nat (Z.to_nat (Qfloor (p / 8))) = Qfloor (p / 8) /\
  (Z.to_nat (Qfloor (p / 8)) < Z.to_nat (Qceiling (limit / 8)))%nat.
Proof.
  intros Hp Hlim.
  assert (H0 : (0 <= Qfloor (p / 8))%Z).
  { change 0%Z with (Qfloor 0). apply Qfloor_resp_le.
    unfold Qdiv. change (/ 8) with (1 # 8). lra. }
  assert (H1 : (Qfloor (p / 8) < Qceiling (limit / 8))%Z).
  { rewrite Zlt_Qlt.
    pose proof (Qfloor_le (p / 8)) as Hf.
    pose proof (Qle_ceiling (limit / 8)) as Hc.
    unfold Qdiv in *. change (/ 8) with (1 # 8) in *. lra. }
  split; lia.
Qed.

(** The checkerboard loops paint, behind the content, the tone of the
    one tile that holds the point: the first tone where the sum of the
    tile indices is even, the second where it is odd. *)
Lemma checkerboard_tile `{C : Canvas2D} (drawW drawH px py : Q) (c : Px.t) :
  0 <= px -> px < drawW -> 0 <= py -> py < drawH ->
  Px.eqv (checkerboard drawW drawH px py c)
    (destination_over c (tileTone (Qfloor (px / 8) + Qfloor (py / 8)))).
Proof.
  intros Hx0 Hx1 Hy0 Hy1.
  destruct (tile_column px drawW Hx0 Hx1) as [EX HX].
  destruct (tile_column py drawH Hy0 Hy1) as [EY HY].
  set (KX := Z.to_nat (Qfloor (px / 8))) in *.
  set (KY := Z.to_nat (Qfloor (py / 8))) in *.
  unfold checkerboard. cbv zeta.
  apply (for_range_single Px.eqv _ KY
           (fun c => destination_over c (tileTone (Qfloor (px / 8) + Qfloor (py / 8)))));
    [| |exact HY|apply Px_eqv_refl].
  - intros ky acc c0 Hky Hacc.
    apply (for_range_invariant (fun a => Px.eqv a c0)); [exact Hacc|].
    intros kx a _ Ha. rewrite paintRect_outside.
    + eapply Px_eqv_trans; [apply destination_over_transparent|exact Ha].
    + destruct (inRect _ _ _ _ _ _) eqn:E; [|reflexivity].
      apply inRect_tile in E. lia.
  - intros acc c0 Hacc.
    apply (for_range_single Px.eqv _ KX
             (fun c => destination_over c (tileTone (Qfloor (px / 8) + Qfloor (py / 8)))));
      [| |exact HX|exact Hacc].
    + intros kx a c1 Hkx Ha. rewrite paintRect_outside.
      * eapply Px_eqv_trans; [apply destination_over_transparent|exact Ha].
      * destruct (inRect _ _ _ _ _ _) eqn:E; [|reflexivity].
        apply inRect_tile in E. lia.
    + intros a c1 Ha. rewrite paintRect_inside.
      * apply destination_over_eqv; [exact Ha|].
        rewrite !Qfloor_tile_origin, EX, EY. apply Px_eqv_refl.
      * apply inRect_tile. now rewrite EX, EY.
Qed.

(** ** The two passes, pixel by pixel *)

(** A counting loop whose invariant depends on the counter. *)
Lemma for_range_indexed {St : Type} (P : nat -> St -> Prop) (n : nat)
    (body : nat -> St -> St) (s : St) :
  P 0%nat s ->
  (forall i acc, (i < n)%nat -> P i acc -> P (S i) (body i acc)) ->
  P n (for_range n body s).
Proof.
  intros Hs Hstep. unfold for_range.
  assert (Hgen : forall m a acc, (a + m <= n)%nat -> P a acc ->
            P (a + m)%nat (fold_left (fun acc i => body i acc) (seq a m) acc)).
  { induction m as [|m IH]; intros a acc Hle Hacc; simpl.
    - now rewrite Nat.add_0_r.
    - replace (a + S m)%nat with (S a + m)%nat by lia.
      apply IH; [lia|]. apply Hstep; [lia|exact Hacc]. }
  apply (Hgen n 0%nat s); [lia|exact Hs].
Qed.

Lemma pixelAt_insert_other (data : list Z) (p q c : nat) (v : Z) :
  p <> q -> (c < 4)%nat ->
  pixelAt (<[(q * 4 + c)%nat := v]> data) p = pixelAt data p.
Proof.
  intros Hne Hc. unfold pixelAt.
  now rewrite !list_lookup_insert_ne by lia.
Qed.

Lemma pixelAt_Some (data : list Z) (p : nat) (r g b a : Z) :
  pixelAt data p = Some (r, g, b, a) <->
  data !! (p * 4)%nat = Some r /\ data !! (p * 4 + 1)%nat = Some g /\
  data !! (p * 4 + 2)%nat = Some b /\ data !! (p * 4 + 3)%nat = Some a.
Proof.
  unfold pixelAt. split.
  - destruct (data !! (p * 4)%nat) as [r'|]; [|discriminate].
    destruct (data !! (p * 4 + 1)%nat) as [g'|]; [|discriminate].
    destruct (data !! (p * 4 + 2)%nat) as [b'|]; [|discriminate].
    destruct (data !! (p * 4 + 3)%nat) as [a'|]; [|discriminate].
    simpl. now intros [= -> -> -> ->].
  - now intros (-> & -> & -> & ->).
Qed.

Lemma pixelAt_is_Some (data : list Z) (p n : nat) :
  length data = (4 * n)%nat -> (p < n)%nat -> is_Some (pixelAt data p).
Proof.
  intros Hlen Hp.
  destruct (lookup_lt_is_Some_2 data (p * 4)) as [r Hr]; [lia|].
  destruct (lookup_lt_is_Some_2 data (p * 4 + 1)) as [g Hg]; [lia|].
  destruct (lookup_lt_is_Some_2 data (p * 4 + 2)) as [b Hb]; [lia|].
  destruct (lookup_lt_is_Some_2 data (p * 4 + 3)) as [a Ha]; [lia|].
  exists (r, g, b, a). now apply pixelAt_Some.
Qed.

Lemma row_major (w x y : nat) :
  (x < w)%nat -> ((y * w + x) mod w = x /\ (y * w + x) / w = y)%nat.
Proof.
  intros Hx. split.
  - rewrite Nat.add_comm, Nat.Div0.mod_add. now apply Nat.mod_small.
  - rewrite Nat.add_comm, Nat.div_add by lia. rewrite Nat.div_small by lia. lia.
Qed.

(** The two nested loops visit the pixels in row-major order: a body
    that treats pixel y * w + x and leaves the others alone treats the
    whole buffer. *)
Lemma row_major_pass (f rest : nat -> nat -> Z * Z * Z * Z -> Z * Z * Z * Z)
    (src : list Z) (w h : nat) (body : nat -> nat -> list Z -> list Z)
    (data0 : list Z) :
  treated f rest src w (w * h) 0 data0 ->
  (forall y x data, (y < h)%nat -> (x < w)%nat ->
     treated f rest src w (w * h) (y * w + x) data ->
     treated f rest src w (w * h) (S (y * w + x)) (body y x data)) ->
  treated f rest src w (w * h) (w * h)
    (for_range h (fun y => for_range w (body y)) data0).
Proof.
  intros H0 Hstep.
  replace (treated f rest src w (w * h) (w * h))
    with (treated f rest src w (w * h) (h * w)) by (f_equal; lia).
  apply (for_range_indexed (fun y => treated f rest src w (w * h) (y * w))).
  - exact H0.
  - intros y acc Hy Hacc.
    replace (S y * w)%nat with (y * w + w)%nat by lia.
    apply (for_range_indexed (fun x => treated f rest src w (w * h) (y * w + x))).
    + now rewrite Nat.add_0_r.
    + intros x acc' Hx Hacc'.
      replace (y * w + S x)%nat with (S (y * w + x)) by lia.
      now apply Hstep.
Qed.

Lemma treated_step (f rest : nat -> nat -> Z * Z * Z * Z -> Z * Z * Z * Z)
    (src : list Z) (w n x y : nat) (data data' : list Z) :
  (x < w)%nat -> (y * w + x < n)%nat ->
  treated f rest src w n (y * w + x) data ->
  length data' = length data ->
  (forall p, p <> (y * w + x)%nat -> pixelAt data' p = pixelAt data p) ->
  (forall px, pixelAt src (y * w + x) = Some px ->
     pixelAt data (y * w + x) = Some (rest x y px) ->
     pixelAt data' (y * w + x) = Some (f x y px)) ->
  treated f rest src w n (S (y * w + x)) data'.
Proof.
  intros Hx Hq [Hlen Hpix] Hlen' Hother Hhere. split; [congruence|].
  intros p px Hp Hsrc.
  destruct (row_major w x y Hx) as [Emod Ediv].
  destruct (decide (p = y * w + x)%nat) as [->|Hne].
  - rewrite Emod, Ediv.
    destruct (Nat.ltb_spec (y * w + x) (S (y * w + x))) as [_|]; [|lia].
    apply Hhere; [exact Hsrc|].
    rewrite (Hpix _ _ Hq Hsrc), Emod, Ediv.
    destruct (Nat.ltb_spec (y * w + x) (y * w + x)) as [|_]; [lia|reflexivity].
  - rewrite Hother by exact Hne. rewrite (Hpix _ _ Hp Hsrc).
    destruct (Nat.ltb_spec p (y * w + x)), (Nat.ltb_spec p (S (y * w + x)));
      try reflexivity; lia.
Qed.

Lemma treated_done (f rest : nat -> nat -> Z * Z * Z * Z -> Z * Z * Z * Z)
    (src : list Z) (w h x y : nat) (data : list Z) (px : Z * Z * Z * Z) :
  treated f rest src w (w * h) (w * h) data ->
  (x < w)%nat -> (y < h)%nat -> pixelAt src (y * w + x) = Some px ->
  pixelAt data (y * w + x) = Some (f x y px).
Proof.
  intros Ht Hx Hy Hpx.
  assert (Hq : (y * w + x < w * h)%nat) by nia.
  rewrite (proj2 Ht _ _ Hq Hpx).
  destruct (row_major w x y Hx) as [-> ->].
  destruct (Nat.ltb_spec (y * w + x) (w * h)); [reflexivity|lia].
Qed.

Lemma adjustPixel_treated `{M : MathLib} (adj : ImageAdjustments) (src : list Z)
    (w h y x : nat) (data : list Z) :
  length src = (4 * (w * h))%nat -> (y < h)%nat -> (x < w)%nat ->
  treated (adjustedPixel adj) (fun _ _ px => px) src w (w * h) (y * w + x) data ->
  treated (adjustedPixel adj) (fun _ _ px => px) src w (w * h)
    (S (y * w + x)) (adjustPixel adj w y x data).
Proof.
  intros Hsrc Hy Hx Ht.
  assert (Hq : (y * w + x < w * h)%nat) by nia.
  set (q := (y * w + x)%nat) in *.
  destruct (pixelAt_is_Some src q _ Hsrc Hq) as [[[[r0 g0] b0] a] Hpx].
  pose proof (proj2 Ht q _ Hq Hpx) as Hdata.
  destruct (Nat.ltb_spec q q) as [|_]; [lia|].
  apply pixelAt_Some in Hdata. destruct Hdata as (Er & Eg & Eb & Ea).
  apply (treated_step _ _ src w (w * h) x y data); try assumption.
  - unfold adjustPixel. fold q. rewrite Ea, Er, Eg, Eb.
    destruct (a <? 10)%Z; [reflexivity|].
    destruct (adjustedSamples adj x y r0 g0 b0) as [[r g] b].
    now rewrite !length_insert.
  - intros p Hne. unfold adjustPixel. fold q. rewrite Ea, Er, Eg, Eb.
    destruct (a <? 10)%Z; [reflexivity|].
    destruct (adjustedSamples adj x y r0 g0 b0) as [[r g] b].
    rewrite (pixelAt_insert_other _ p q 2), (pixelAt_insert_other _ p q 1)
      by (assumption || lia).
    replace q with (q * 1 + 0)%nat at 1 by lia.
    unfold pixelAt. now rewrite !list_lookup_insert_ne by lia.
  - intros px Hsrcq _. fold q in Hsrcq. rewrite Hpx in Hsrcq. inversion Hsrcq; subst px.
    unfold adjustPixel. fold q. rewrite Ea, Er, Eg, Eb. unfold adjustedPixel.
    destruct (a <? 10)%Z; [now apply pixelAt_Some|].
    destruct (adjustedSamples adj x y r0 g0 b0) as [[r g] b].
    assert (Hlen : (q * 4 + 3 < length data)%nat) by (rewrite (proj1 Ht); lia).
    apply pixelAt_Some. repeat split.
    + rewrite !list_lookup_insert_ne by lia. apply list_lookup_insert_eq. lia.
    + rewrite !list_lookup_insert_ne by lia. apply list_lookup_insert_eq.
      rewrite length_insert. lia.
    + apply list_lookup_insert_eq. rewrite !length_insert. lia.
    + now rewrite !list_lookup_insert_ne by lia.
Qed.

Lemma applyImageAdjustments_treated `{M : MathLib} (adj : ImageAdjustments)
    (src : ImageData.t) :
  ImageData.wf src ->
  treated (adjustedPixel adj) (fun _ _ px => px) (ImageData.data src)
    (ImageData.width src) (ImageData.width src * ImageData.height src)
    (ImageData.width src * ImageData.height src)
    (ImageData.data (applyImageAdjustments adj src)).
Proof.
  intros Hwf. unfold applyImageAdjustments. cbv zeta. cbn [ImageData.data].
  apply row_major_pass.
  - split; [exact Hwf|]. intros p px' _ Hp. now rewrite Hp.
  - intros y x data Hy Hx. now apply adjustPixel_treated.
Qed.

Lemma pixelAt_replicate (n p : nat) :
  (p < n)%nat -> pixelAt (replicate (4 * n) 0%Z) p = Some (0, 0, 0, 0)%Z.
Proof.
  intros Hp. apply pixelAt_Some.
  repeat split; apply lookup_replicate_2; lia.
Qed.

Lemma halftonePixel_treated `{M : MathLib} (options : HalftoneParams)
    (src : list Z) (w h y x : nat) (dst : list Z) :
  length src = (4 * (w * h))%nat -> (y < h)%nat -> (x < w)%nat ->
  treated (halftonedPixel options) (fun _ _ _ => (0, 0, 0, 0)%Z) src w (w * h)
    (y * w + x) dst ->
  treated (halftonedPixel options) (fun _ _ _ => (0, 0, 0, 0)%Z) src w (w * h)
    (S (y * w + x)) (halftonePixel options src w y x dst).
Proof.
  intros Hsrc Hy Hx Ht.
  assert (Hq : (y * w + x < w * h)%nat) by nia.
  set (q := (y * w + x)%nat) in *.
  destruct (pixelAt_is_Some src q _ Hsrc Hq) as [[[[r g] b] a] Hpx].
  pose proof Hpx as Hsrcq.
  apply pixelAt_Some in Hpx. destruct Hpx as (Er & Eg & Eb & Ea).
  replace (q * 4 + 0)%nat with (q * 4)%nat in * by lia.
  apply (treated_step _ _ src w (w * h) x y dst); try assumption.
  - unfold halftonePixel. fold q. rewrite Ea, Er, Eg, Eb.
    destruct (a <? 10)%Z; [reflexivity|].
    destruct (onLine options x y r g b); [|reflexivity].
    now rewrite !length_insert.
  - intros p Hne. unfold halftonePixel. fold q. rewrite Ea, Er, Eg, Eb.
    destruct (a <? 10)%Z; [reflexivity|].
    destruct (onLine options x y r g b); [|reflexivity].
    rewrite (pixelAt_insert_other _ p q 3), (pixelAt_insert_other _ p q 2),
      (pixelAt_insert_other _ p q 1) by (assumption || lia).
    unfold pixelAt. now rewrite !list_lookup_insert_ne by lia.
  - intros px Hsrcq' Hdst. fold q in Hsrcq', Hdst.
    rewrite Hsrcq in Hsrcq'. inversion Hsrcq'; subst px.
    unfold halftonePixel. fold q. rewrite Ea, Er, Eg, Eb. unfold halftonedPixel.
    destruct (a <? 10)%Z; [exact Hdst|].
    destruct (onLine options x y r g b); [|exact Hdst].
    assert (Hlen : (q * 4 + 3 < length dst)%nat) by (rewrite (proj1 Ht); lia).
    apply pixelAt_Some.
    destruct (write_pixel_same dst (q * 4)
                (toUint8Clamped (at_index (lineColor options) 0))
                (toUint8Clamped (at_index (lineColor options) 1))
                (toUint8Clamped (at_index (lineColor options) 2)) a Hlen)
      as (H0 & H1 & H2 & H3).
    repeat split; assumption.
Qed.

Lemma applyLinearHalftone_treated `{M : MathLib} (options : HalftoneParams)
    (src : ImageData.t) :
  ImageData.wf src ->
  treated (halftonedPixel options) (fun _ _ _ => (0, 0, 0, 0)%Z)
    (ImageData.data src)
    (ImageData.width src) (ImageData.width src * ImageData.height src)
    (ImageData.width src * ImageData.height src)
    (ImageData.data (applyLinearHalftone options src)).
Proof.
  intros Hwf. unfold applyLinearHalftone. cbv zeta. cbn [ImageData.data].
  rewrite clear_replicate. apply row_major_pass.
  - split; [apply length_replicate|]. intros p px' Hp _. now apply pixelAt_replicate.
  - intros y x data Hy Hx. now apply halftonePixel_treated.
Qed.

(** The adjustment pass is a map over the pixels: the output pixel at
    column x of row y is the input pixel when its alpha is below 10, and
    otherwise the three adjusted samples of that input pixel with its
    alpha.  No other pixel of the input has a part in it. *)
Theorem applyImageAdjustments_pointwise `{M : MathLib} (adj : ImageAdjustments)
    (src : ImageData.t) (x y : nat) (px : Z * Z * Z * Z) :
  ImageData.wf src ->
  (x < ImageData.width src)%nat -> (y < ImageData.height src)%nat ->
  pixelAt (ImageData.data src) (y * ImageData.width src + x) = Some px ->
  pixelAt (ImageData.data (applyImageAdjustments adj src))
    (y * ImageData.width src + x) = Some (adjustedPixel adj x y px).
Proof.
  intros Hwf Hx Hy Hpx.
  exact (treated_done _ _ _ _ _ x y _ px
           (applyImageAdjustments_treated adj src Hwf) Hx Hy Hpx).
Qed.

Lemma applyImageAdjustments_pointwise_witness :
  pixelAt
    (ImageData.data (applyImageAdjustments (M:=rationalMath) DEFAULT_ADJUSTMENTS twoPixels))
    (0 * 2 + 1)
  = Some (adjustedPixel (M:=rationalMath) DEFAULT_ADJUSTMENTS 1 0 (1, 2, 3, 5)%Z).
Proof.
  apply (applyImageAdjustments_pointwise (M:=rationalMath) DEFAULT_ADJUSTMENTS
           twoPixels 1 0 (1, 2, 3, 5)%Z);
    [reflexivity|simpl; lia|simpl; lia|reflexivity].
Defined.

(** The halftone pass is a map over the pixels as well: the output
    pixel at column x of row y is the line colour with the input alpha
    when the input pixel has alpha 10 or more and lies on a line, and
    transparent black otherwise. *)
Theorem applyLinearHalftone_pointwise `{M : MathLib} (options : HalftoneParams)
    (src : ImageData.t) (x y : nat) (px : Z * Z * Z * Z) :
  ImageData.wf src ->
  (x < ImageData.width src)%nat -> (y < ImageData.height src)%nat ->
  pixelAt (ImageData.data src) (y * ImageData.width src + x) = Some px ->
  pixelAt (ImageData.data (applyLinearHalftone options src))
    (y * ImageData.width src + x) = Some (halftonedPixel options x y px).
Proof.
  intros Hwf Hx Hy Hpx.
  exact (treated_done _ _ _ _ _ x y _ px
           (applyLinearHalftone_treated options src Hwf) Hx Hy Hpx).
Qed.

Lemma applyLinearHalftone_pointwise_witness :
  pixelAt
    (ImageData.data (applyLinearHalftone (M:=rationalMath) defaultHalftone twoPixels))
    (0 * 2 + 0)
  = Some (halftonedPixel (M:=rationalMath) defaultHalftone 0 0 (10, 20, 30, 255)%Z).
Proof.
  apply (applyLinearHalftone_pointwise (M:=rationalMath) defaultHalftone
           twoPixels 0 0 (10, 20, 30, 255)%Z);
    [reflexivity|simpl; lia|simpl; lia|reflexivity].
Defined.

(** ** Eight-bit buffers *)

Lemma clamp255_range (v : Q) : sample8 (clamp255 v).
Proof. unfold sample8, clamp255. lia. Qed.

Lemma store255_range (v : option Q) : sample8 (store255 v).
Proof. destruct v; simpl; [apply clamp255_range|unfold sample8; lia]. Qed.

Lemma toUint8Clamped_range (v : option Z) : sample8 (toUint8Clamped v).
Proof. destruct v; unfold sample8; simpl; lia. Qed.

Lemma adjustedSamples_range `{M : MathLib} (adj : ImageAdjustments) (x y : nat)
    (r0 g0 b0 : Z) :
  let '(r, g, b) := adjustedSamples adj x y r0 g0 b0 in
  sample8 r /\ sample8 g /\ sample8 b.
Proof.
  unfold adjustedSamples. destruct (toneChannels adj r0 g0 b0) as [[r g] b].
  repeat split; apply store255_range.
Qed.

Lemma buffer8_insert (n i : nat) (v : Z) (d : list Z) :
  sample8 v -> buffer8 n d -> buffer8 n (<[i := v]> d).
Proof.
  intros Hv [Hlen Hall]. split; [now rewrite length_insert|].
  now apply Forall_insert.
Qed.

(** The adjustment pass returns a buffer of the dimensions of its input
    whose samples are integers of 0..255. *)
Theorem applyImageAdjustments_samples8 `{M : MathLib} (adj : ImageAdjustments)
    (src : ImageData.t) :
  ImageData.wf src -> ImageData.samples8 src ->
  ImageData.width (applyImageAdjustments adj src) = ImageData.width src /\
  ImageData.height (applyImageAdjustments adj src) = ImageData.height src /\
  ImageData.wf (applyImageAdjustments adj src) /\
  ImageData.samples8 (applyImageAdjustments adj src).
Proof.
  intros Hwf H8. split; [reflexivity|]. split; [reflexivity|].
  unfold ImageData.wf, ImageData.samples8, applyImageAdjustments; simpl.
  apply (for_range_nested_invariant
           (buffer8 (4 * (ImageData.width src * ImageData.height src)))).
  - split; assumption.
  - intros y x acc _ _ Hacc. unfold adjustPixel.
    destruct (acc !! _) as [a|]; [|exact Hacc].
    destruct (acc !! _) as [r0|]; [|exact Hacc].
    destruct (acc !! _) as [g0|]; [|exact Hacc].
    destruct (acc !! _) as [b0|]; [|exact Hacc].
    destruct (a <? 10)%Z; [exact Hacc|].
    pose proof (adjustedSamples_range adj x y r0 g0 b0) as Hr.
    destruct (adjustedSamples adj x y r0 g0 b0) as [[r g] b].
    destruct Hr as (Hr & Hg & Hb).
    now repeat apply buffer8_insert.
Qed.

Lemma applyImageAdjustments_samples8_witness :
  ImageData.width (applyImageAdjustments (M:=rationalMath) noisy twoPixels) = 2%nat /\
  ImageData.height (applyImageAdjustments (M:=rationalMath) noisy twoPixels) = 1%nat /\
  ImageData.wf (applyImageAdjustments (M:=rationalMath) noisy twoPixels) /\
  ImageData.samples8 (applyImageAdjustments (M:=rationalMath) noisy twoPixels).
Proof.
  apply (applyImageAdjustments_samples8 (M:=rationalMath) noisy twoPixels).
  - reflexivity.
  - unfold ImageData.samples8. simpl. repeat (constructor; [lia|]). constructor.
Defined.

(** The halftone pass returns a buffer of the dimensions of its input
    whose samples are integers of 0..255, whatever the line colour
    holds (a NaN channel is stored as 0). *)
Theorem applyLinearHalftone_samples8 `{M : MathLib} (options : HalftoneParams)
    (src : ImageData.t) :
  ImageData.samples8 src ->
  ImageData.width (applyLinearHalftone options src) = ImageData.width src /\
  ImageData.height (applyLinearHalftone options src) = ImageData.height src /\
  ImageData.wf (applyLinearHalftone options src) /\
  ImageData.samples8 (applyLinearHalftone options src).
Proof.
  intros H8. split; [reflexivity|]. split; [reflexivity|].
  unfold ImageData.wf, ImageData.samples8, applyLinearHalftone.
  cbv zeta. cbn [ImageData.data ImageData.width ImageData.height].
  rewrite clear_replicate.
  apply (for_range_nested_invariant
           (buffer8 (4 * (ImageData.width src * ImageData.height src)))).
  - split; [apply length_replicate|].
    apply Forall_replicate. unfold sample8. lia.
  - intros y x acc _ _ Hacc. unfold halftonePixel.
    set (idx := ((y * ImageData.width src + x) * 4)%nat).
    destruct (ImageData.data src !! (idx + 3)%nat) as [a|] eqn:Ea; [|exact Hacc].
    destruct (ImageData.data src !! idx) as [r0|]; [|exact Hacc].
    destruct (ImageData.data src !! (idx + 1)%nat) as [g0|]; [|exact Hacc].
    destruct (ImageData.data src !! (idx + 2)%nat) as [b0|]; [|exact Hacc].
    destruct (a <? 10)%Z; [exact Hacc|].
    destruct (onLine options x y r0 g0 b0); [|exact Hacc].
    assert (Ha : sample8 a).
    { unfold ImageData.samples8 in H8. rewrite Forall_lookup in H8. exact (H8 _ _ Ea). }
    repeat apply buffer8_insert; try apply toUint8Clamped_range; assumption.
Qed.

Lemma applyLinearHalftone_samples8_witness :
  ImageData.width (applyLinearHalftone (M:=rationalMath) defaultHalftone twoPixels) = 2%nat /\
  ImageData.height (applyLinearHalftone (M:=rationalMath) defaultHalftone twoPixels) = 1%nat /\
  ImageData.wf (applyLinearHalftone (M:=rationalMath) defaultHalftone twoPixels) /\
  ImageData.samples8 (applyLinearHalftone (M:=rationalMath) defaultHalftone twoPixels).
Proof.
  apply (applyLinearHalftone_samples8 (M:=rationalMath) defaultHalftone twoPixels).
  unfold ImageData.samples8. simpl. repeat (constructor; [lia|]). constructor.
Defined.

(** ** Greyscale *)

Lemma greyscale_equal_samples `{M : MathLib} (adj : ImageAdjustments)
    (x y : nat) (r0 g0 b0 : Z) :
  greyscale adj = true -> overlayOpacity adj <= 0 ->
  noiseEnabled adj = false \/ noiseOpacity adj <= 0 ->
  exists v, adjustedSamples adj x y r0 g0 b0 = (v, v, v).
Proof.
  intros Hg Ho Hn. unfold adjustedSamples, toneChannels. rewrite Hg. cbv zeta.
  unfold overlayChannel, noiseChannel. rewrite (Qltb_false _ _ Ho).
  assert (En : noiseEnabled adj && Qltb 0 (noiseOpacity adj) = false).
  { destruct Hn as [->|Hn]; [reflexivity|].
    rewrite (Qltb_false _ _ Hn). apply andb_false_r. }
  rewrite En. eexists. reflexivity.
Qed.

(** With greyscale on and neither overlay nor noise, every pixel of
    alpha 10 or more leaves the adjustment pass with three equal colour
    samples and its alpha. *)
Theorem greyscale_equal_channels `{M : MathLib} (adj : ImageAdjustments)
    (src : ImageData.t) (x y : nat) (r0 g0 b0 a : Z) :
  ImageData.wf src ->
  (x < ImageData.width src)%nat -> (y < ImageData.height src)%nat ->
  greyscale adj = true -> overlayOpacity adj <= 0 ->
  noiseEnabled adj = false \/ noiseOpacity adj <= 0 ->
  pixelAt (ImageData.data src) (y * ImageData.width src + x) = Some (r0, g0, b0, a) ->
  (10 <= a)%Z ->
  exists v,
    pixelAt (ImageData.data (applyImageAdjustments adj src))
      (y * ImageData.width src + x) = Some (v, v, v, a).
Proof.
  intros Hwf Hx Hy Hg Ho Hn Hpx Ha.
  destruct (greyscale_equal_samples adj x y r0 g0 b0 Hg Ho Hn) as [v Hv].
  exists v.
  rewrite (treated_done _ _ _ _ _ x y _ _
             (applyImageAdjustments_treated adj src Hwf) Hx Hy Hpx).
  unfold adjustedPixel. rewrite Hv.
  destruct (Z.ltb_spec a 10); [lia|reflexivity].
Qed.

Lemma greyscale_equal_channels_witness :
  exists v,
    pixelAt
      (ImageData.data (applyImageAdjustments (M:=rationalMath) greyscaleOnly twoPixels))
      (0 * 2 + 0) = Some (v, v, v, 255%Z).
Proof.
  apply (greyscale_equal_channels (M:=rationalMath) greyscaleOnly twoPixels
           0 0 10 20 30 255);
    first [reflexivity|simpl; lia|left; reflexivity|unfold Qle; simpl; lia].
Defined.

(** ** The lowest contrast *)

(** With highlights and shadows at 0 the shift of lines 108-111 is 0
    whatever the two weights are, so the luminance of the flattened
    pixel, which binary64 computes a hair below 0.5, has no part in the
    result. *)
Lemma flat_channel (v k hi sh hW sW : Q) :
  k == -1 -> hi == 0 -> sh == 0 ->
  (v - 0.5) * (1 + k) + 0.5 + (hi * hW * 0.5 + sh * sW * 0.5) == 0.5.
Proof. intros -> -> ->. ring. Qed.

Lemma clamp255_half (v : Q) : v == 0.5 -> clamp255 v = 128%Z.
Proof.
  intros Hv. unfold clamp255, Math_round.
  rewrite (Qfloor_unique (v * 255 + 0.5) 128); [reflexivity| |];
    change (inject_Z 128) with 128; lra.
Qed.

Lemma flat_samples `{M : MathLib} (adj : ImageAdjustments) (x y : nat) (r0 g0 b0 : Z) :
  contrast adj == -1 -> highlights adj == 0 -> shadows adj == 0 ->
  overlayOpacity adj <= 0 ->
  noiseEnabled adj = false \/ noiseOpacity adj <= 0 ->
  adjustedSamples adj x y r0 g0 b0 = (128, 128, 128)%Z.
Proof.
  intros Hc Hhi Hsh Ho Hn. unfold adjustedSamples.
  assert (Et : let '(r, g, b) := toneChannels adj r0 g0 b0 in
               r == 0.5 /\ g == 0.5 /\ b == 0.5).
  { unfold toneChannels, contrastFactor.
    destruct (greyscale adj); cbv beta zeta iota;
      repeat split; apply flat_channel; assumption. }
  destruct (toneChannels adj r0 g0 b0) as [[r g] b].
  destruct Et as (Er & Eg & Eb).
  unfold overlayChannel, noiseChannel. rewrite (Qltb_false _ _ Ho).
  assert (En : noiseEnabled adj && Qltb 0 (noiseOpacity adj) = false).
  { destruct Hn as [->|Hn]; [reflexivity|].
    rewrite (Qltb_false _ _ Hn). apply andb_false_r. }
  rewrite En. simpl.
  now rewrite (clamp255_half r Er), (clamp255_half g Eg), (clamp255_half b Eb).
Qed.

(** At contrast -1, with highlights and shadows at 0, an exposure of
    the control's range and neither overlay nor noise, every pixel of
    alpha 10 or more leaves the adjustment pass as the mid-grey
    (128, 128, 128) with its alpha, whatever the greyscale switch and
    the exposure.  (The exposure is bounded for Math.pow(2, exposure) to
    be a finite number; with shadows below 0 binary64 stores 127 for
    some settings, see [flat_binary64].) *)
Theorem minimum_contrast_flattens `{M : MathLib} (adj : ImageAdjustments)
    (src : ImageData.t) (x y : nat) (r0 g0 b0 a : Z) :
  ImageData.wf src ->
  (x < ImageData.width src)%nat -> (y < ImageData.height src)%nat ->
  contrast adj == -1 -> highlights adj == 0 -> shadows adj == 0 ->
  -2 <= exposure adj <= 2 ->
  overlayOpacity adj <= 0 ->
  noiseEnabled adj = false \/ noiseOpacity adj <= 0 ->
  pixelAt (ImageData.data src) (y * ImageData.width src + x) = Some (r0, g0, b0, a) ->
  (10 <= a)%Z ->
  pixelAt (ImageData.data (applyImageAdjustments adj src))
    (y * ImageData.width src + x) = Some (128, 128, 128, a)%Z.
Proof.
  intros Hwf Hx Hy Hc Hhi Hsh _ Ho Hn Hpx Ha.
  rewrite (treated_done _ _ _ _ _ x y _ _
             (applyImageAdjustments_treated adj src Hwf) Hx Hy Hpx).
  unfold adjustedPixel. rewrite (flat_samples adj x y r0 g0 b0 Hc Hhi Hsh Ho Hn).
  destruct (Z.ltb_spec a 10); [lia|reflexivity].
Qed.

Lemma minimum_contrast_flattens_witness :
  pixelAt
    (ImageData.data (applyImageAdjustments (M:=rationalMath) flatContrast twoPixels))
    (0 * 2 + 0) = Some (128, 128, 128, 255)%Z.
Proof.
  apply (minimum_contrast_flattens (M:=rationalMath) flatContrast twoPixels
           0 0 10 20 30 255);
    first [reflexivity|simpl; lia|left; reflexivity
          |split; vm_compute; discriminate|vm_compute; discriminate].
Defined.

(** The same in IEEE-754 doubles, with and without greyscale: at
    exposure factor 1 on the pixels of blue 0 or 255, at factors 1/4 and
    4 on the grey and the single-channel pixels; and the value 127 that
    the code stores at shadows -1. *)
Lemma flat_binary64 :
  Binary64.flatPixelsKept = true /\ Binary64.flatShadowsOff = true.
Proof. split; vm_compute; reflexivity. Qed.

(** ** Remainders *)

Lemma Qtrunc_nonneg (v : Q) : 0 <= v -> Qtrunc v = Qfloor v.
Proof.
  intros Hv. unfold Qtrunc. now rewrite (proj2 (Qle_bool_iff 0 v) Hv).
Qed.

Lemma Qtrunc_neg (v : Q) : v < 0 -> Qtrunc v = Qceiling v.
Proof.
  intros Hv. unfold Qtrunc.
  destruct (Qle_bool 0 v) eqn:E; [|reflexivity].
  apply Qle_bool_iff in E. lra.
Qed.

(** [a % b] for a positive divisor: the remainder has the sign of the
    dividend and is smaller than the divisor. *)
Lemma jsRem_nonneg (a b : Q) : 0 < b -> 0 <= a -> 0 <= jsRem a b /\ jsRem a b < b.
Proof.
  intros Hb Ha. unfold jsRem.
  assert (Hq : 0 <= a / b) by (apply Qle_shift_div_l; lra).
  rewrite (Qtrunc_nonneg _ Hq).
  pose proof (Qfloor_le (a / b)) as Hlo.
  pose proof (Qlt_floor (a / b)) as Hhi.
  rewrite inject_Z_plus in Hhi. change (inject_Z 1) with 1 in Hhi.
  set (k := inject_Z (Qfloor (a / b))) in *. clearbody k.
  assert (Ea : a == b * (a / b)) by (rewrite Qmult_div_r; lra).
  set (q := a / b) in *. clearbody q.
  assert (H1 : 0 <= (q - k) * b) by (apply Qmult_le_0_compat; lra).
  assert (H2 : 0 < (k + 1 - q) * b) by (apply Qmult_lt_0_compat; lra).
  split; lra.
Qed.

Lemma jsRem_neg (a b : Q) : 0 < b -> a < 0 -> - b < jsRem a b /\ jsRem a b <= 0.
Proof.
  intros Hb Ha. unfold jsRem.
  assert (Hq : a / b < 0) by (apply Qlt_shift_div_r; lra).
  rewrite (Qtrunc_neg _ Hq).
  pose proof (Qle_ceiling (a / b)) as Hhi.
  pose proof (Qceiling_lt (a / b)) as Hlo.
  unfold Z.sub in Hlo. rewrite inject_Z_plus in Hlo.
  change (inject_Z (- (1))) with (-1) in Hlo.
  set (k := inject_Z (Qceiling (a / b))) in *. clearbody k.
  assert (Ea : a == b * (a / b)) by (rewrite Qmult_div_r; lra).
  set (q := a / b) in *. clearbody q.
  assert (H1 : 0 <= (k - q) * b) by (apply Qmult_le_0_compat; lra).
  assert (H2 : 0 < (q - (k + -1)) * b) by (apply Qmult_lt_0_compat; lra).
  split; lra.
Qed.

(** The double remainder [((v % L) + L) % L] wraps any number into one
    period. *)
Lemma wrapped_in_period (v L : Q) :
  0 < L -> 0 <= jsRem (jsRem v L + L) L /\ jsRem (jsRem v L + L) L < L.
Proof.
  intros HL. apply jsRem_nonneg; [exact HL|].
  destruct (Qlt_le_dec v 0) as [Hv|Hv].
  - pose proof (jsRem_neg v L HL Hv). lra.
  - pose proof (jsRem_nonneg v L HL Hv). lra.
Qed.

(** The grain never mixes in more of the noise colour than the noise
    opacity: the amount lies between 0 and noiseOpacity. *)
Theorem noiseAmount_range `{M : MathLib} (adj : ImageAdjustments) (x y : nat) :
  0 <= noiseOpacity adj ->
  0 <= noiseAmount adj x y /\ noiseAmount adj x y <= noiseOpacity adj.
Proof.
  intros Hno. unfold noiseAmount. cbv zeta.
  set (v := Math_sin _ * 43758.5453). clearbody v.
  destruct (wrapped_in_period v 1 ltac:(lra)) as [Hlo Hhi].
  set (nv := jsRem (jsRem v 1 + 1) 1) in *. clearbody nv.
  assert (H1 : 0 <= noiseOpacity adj * nv) by (apply Qmult_le_0_compat; lra).
  assert (H2 : 0 <= noiseOpacity adj * (1 - nv)) by (apply Qmult_le_0_compat; lra).
  split; lra.
Qed.

Lemma noiseAmount_range_witness :
  0 <= noiseAmount (M:=rationalMath) noisy 3 5 /\
  noiseAmount (M:=rationalMath) noisy 3 5 <= noiseOpacity noisy.
Proof.
  apply (noiseAmount_range (M:=rationalMath) noisy 3 5).
  vm_compute. discriminate.
Defined.

(** ** Ink lines *)

Lemma lineSpacing_pos (options : HalftoneParams) : 0 < lineSpacing options.
Proof.
  unfold lineSpacing. pose proof (Q.le_max_l 2 (72 / frequency options)). lra.
Qed.

Lemma onLine_spec `{M : MathLib} (options : HalftoneParams) (x y : nat) (r g b : Z) :
  onLine options x y r g b = true <->
  ~ frequency options == 0 /\
  distFromCenter options x y < (1 - brightness r g b) * thickness options.
Proof.
  unfold onLine, distFromCenter, brightness, Qltb. cbv zeta.
  destruct (Qeq_bool (frequency options) 0) eqn:Ef.
  - apply Qeq_bool_iff in Ef. split; [discriminate|]. now intros [Hf _].
  - apply Qeq_bool_neq in Ef.
    rewrite negb_true_iff, <- not_true_iff_false, Qle_bool_iff.
    split.
    + intros H. split; [exact Ef|now apply Qnot_le_lt].
    + intros [_ H]. now apply Qlt_not_le.
Qed.

Lemma distFromCenter_range `{M : MathLib} (options : HalftoneParams) (x y : nat) :
  0 <= distFromCenter options x y <= 1.
Proof.
  unfold distFromCenter. cbv zeta.
  set (rx := Qnat x * cos options + Qnat y * sin options). clearbody rx.
  pose proof (lineSpacing_pos options) as HL.
  destruct (wrapped_in_period rx _ HL) as [Hlo Hhi].
  set (pos := jsRem _ _) in *. clearbody pos.
  set (L := lineSpacing options) in *. clearbody L.
  assert (H0 : 0 <= pos / L) by (apply Qle_shift_div_l; lra).
  assert (H1 : pos / L <= 1) by (apply Qle_shift_div_r; lra).
  set (n := pos / L) in *. clearbody n.
  pose proof (Qabs_nonneg (n - 0.5)) as Ha.
  assert (Hb : Qabs (n - 0.5) <= 0.5) by (apply Qabs_Qle_condition; split; lra).
  split; lra.
Qed.

(** Ink follows darkness: where a pixel is inked, a pixel that is no
    brighter is inked at the same position (for a thickness that is not
    negative). *)
Theorem onLine_monotone `{M : MathLib} (options : HalftoneParams) (x y : nat)
    (r g b r' g' b' : Z) :
  0 <= thickness options ->
  brightness r' g' b' <= brightness r g b ->
  onLine options x y r g b = true -> onLine options x y r' g' b' = true.
Proof.
  intros Ht Hb. rewrite !onLine_spec. intros [Hf H]. split; [exact Hf|].
  eapply Qlt_le_trans; [exact H|].
  apply Qmult_le_compat_r; lra.
Qed.

Lemma onLine_monotone_witness :
  onLine (M:=rationalMath) defaultHalftone 0 2 0 0 0 = true.
Proof.
  apply (onLine_monotone (M:=rationalMath) defaultHalftone 0 2 10 20 30 0 0 0).
  - vm_compute. discriminate.
  - vm_compute. discriminate.
  - vm_compute. reflexivity.
Defined.

Lemma onLine_saturated `{M : MathLib} (options : HalftoneParams) (x y : nat)
    (r g b : Z) :
  1 <= frequency options ->
  1 < (1 - brightness r g b) * thickness options ->
  onLine options x y r g b = true.
Proof.
  intros Hf H. apply onLine_spec. split; [lra|].
  pose proof (distFromCenter_range options x y). lra.
Qed.

Lemma onLine_unsaturated `{M : MathLib} (options : HalftoneParams) (x y : nat)
    (r g b : Z) :
  (1 - brightness r g b) * thickness options <= 0 ->
  onLine options x y r g b = false.
Proof.
  intros H. apply not_true_iff_false. rewrite onLine_spec. intros [_ Hd].
  pose proof (distFromCenter_range options x y). lra.
Qed.

(** A black pixel of alpha 10 or more under a thickness above 1 is
    inked wherever it lies, for a frequency of at least 1 and an angle
    of 0 to 180 degrees (the ranges of the two controls): a black area
    becomes solid line colour.  Its brightness is 0 and its line width
    the thickness itself, in binary64 as over exact numbers; the bounds
    keep the line spacing and the rotated coordinate finite in the
    source. *)
Theorem applyLinearHalftone_solid_ink `{M : MathLib} (options : HalftoneParams)
    (src : ImageData.t) (x y : nat) (a : Z) :
  ImageData.wf src ->
  (x < ImageData.width src)%nat -> (y < ImageData.height src)%nat ->
  pixelAt (ImageData.data src) (y * ImageData.width src + x) = Some (0, 0, 0, a)%Z ->
  (10 <= a)%Z ->
  1 <= frequency options -> 0 <= angle options <= 180 ->
  1 < thickness options ->
  pixelAt (ImageData.data (applyLinearHalftone options src))
    (y * ImageData.width src + x)
  = Some (toUint8Clamped (at_index (lineColor options) 0),
          toUint8Clamped (at_index (lineColor options) 1),
          toUint8Clamped (at_index (lineColor options) 2), a).
Proof.
  intros Hwf Hx Hy Hpx Ha Hf _ Hthick.
  rewrite (treated_done _ _ _ _ _ x y _ _
             (applyLinearHalftone_treated options src Hwf) Hx Hy Hpx).
  unfold halftonedPixel.
  assert (Hw : 1 < (1 - brightness 0 0 0) * thickness options).
  { assert (E : brightness 0 0 0 == 0) by reflexivity. rewrite E. lra. }
  rewrite (onLine_saturated options x y 0 0 0 Hf Hw).
  destruct (Z.ltb_spec a 10); [lia|reflexivity].
Qed.

Lemma applyLinearHalftone_solid_ink_witness :
  pixelAt
    (ImageData.data (applyLinearHalftone (M:=rationalMath) thickHalftone blackPixel))
    (0 * 1 + 0)
  = Some (toUint8Clamped (at_index (lineColor thickHalftone) 0),
          toUint8Clamped (at_index (lineColor thickHalftone) 1),
          toUint8Clamped (at_index (lineColor thickHalftone) 2), 255%Z).
Proof.
  apply (applyLinearHalftone_solid_ink (M:=rationalMath) thickHalftone blackPixel
           0 0 255).
  - reflexivity.
  - simpl; lia.
  - simpl; lia.
  - reflexivity.
  - lia.
  - vm_compute. discriminate.
  - split; vm_compute; discriminate.
  - vm_compute. reflexivity.
Defined.

(** A pixel whose line width (1 - brightness) * thickness is 0 or less
    is never inked: a white area stays transparent in the halftone. *)
Theorem applyLinearHalftone_no_ink `{M : MathLib} (options : HalftoneParams)
    (src : ImageData.t) (x y : nat) (r g b a : Z) :
  ImageData.wf src ->
  (x < ImageData.width src)%nat -> (y < ImageData.height src)%nat ->
  pixelAt (ImageData.data src) (y * ImageData.width src + x) = Some (r, g, b, a) ->
  (1 - brightness r g b) * thickness options <= 0 ->
  pixelAt (ImageData.data (applyLinearHalftone options src))
    (y * ImageData.width src + x) = Some (0, 0, 0, 0)%Z.
Proof.
  intros Hwf Hx Hy Hpx Hthin.
  rewrite (treated_done _ _ _ _ _ x y _ _
             (applyLinearHalftone_treated options src Hwf) Hx Hy Hpx).
  unfold halftonedPixel. rewrite (onLine_unsaturated options x y r g b Hthin).
  now destruct (a <? 10)%Z.
Qed.

Lemma applyLinearHalftone_no_ink_witness :
  pixelAt
    (ImageData.data (applyLinearHalftone (M:=rationalMath) defaultHalftone whitePixel))
    (0 * 1 + 0)
  = Some (0, 0, 0, 0)%Z.
Proof.
  apply (applyLinearHalftone_no_ink (M:=rationalMath) defaultHalftone whitePixel
           0 0 255 255 255 255).
  - reflexivity.
  - simpl; lia.
  - simpl; lia.
  - reflexivity.
  - vm_compute. discriminate.
Defined.

Lemma no_integer_offset (k : Z) : ~ 90 * inject_Z k + 0.01 == 0.
Proof.
  intros H.
  assert (E : inject_Z (9000 * k + 1) == 0).
  { rewrite inject_Z_plus, inject_Z_mult.
    change (inject_Z 9000) with 9000. change (inject_Z 1) with 1. lra. }
  unfold Qeq in E. simpl in E. lia.
Qed.

(** For an angle of 0 to 180 degrees (the range of the control), the
    angle handed to the circular functions is not a multiple of 90
    degrees: the test that shifts such an angle by 0.01 fails on the
    adjusted angle.  (Over exact numbers this holds for every angle; in
    binary64 the shift is absorbed by multiples of 90 from about 2^47
    on, which the bound leaves out.) *)
Theorem adjustedAngle_off_axis (options : HalftoneParams) :
  0 <= angle options <= 180 ->
  Qeq_bool (jsRem (adjustedAngle options) 90) 0 = false.
Proof.
  intros _. apply Qeq_bool_false. unfold adjustedAngle.
  destruct (Qeq_bool (jsRem (angle options) 90) 0) eqn:E.
  - apply Qeq_bool_iff in E. unfold jsRem in *.
    set (k := Qtrunc (angle options / 90)) in E.
    set (k' := Qtrunc ((angle options + 0.01) / 90)).
    intros H. apply (no_integer_offset (k - k')).
    unfold Z.sub. rewrite inject_Z_plus, inject_Z_opp. lra.
  - now apply Qeq_bool_neq.
Qed.

Lemma adjustedAngle_off_axis_witness :
  Qeq_bool (jsRem (adjustedAngle defaultHalftone) 90) 0 = false.
Proof.
  apply (adjustedAngle_off_axis defaultHalftone).
  split; vm_compute; discriminate.
Defined.

(** ** Colours *)

Lemma hexDigit_range (c : ascii) (d : Z) : hexDigit c = Some d -> (0 <= d <= 15)%Z.
Proof.
  unfold hexDigit. set (n := Z.of_nat (nat_of_ascii c)). clearbody n.
  destruct ((48 <=? n) && (n <=? 57))%Z eqn:E1.
  { intros [= <-]. lia. }
  destruct ((97 <=? n) && (n <=? 102))%Z eqn:E2.
  { intros [= <-]. lia. }
  destruct ((65 <=? n) && (n <=? 70))%Z eqn:E3; [|discriminate].
  intros [= <-]. lia.
Qed.

Lemma Forall_three {A : Type} (P : A -> Prop) (a b c : A) :
  P a -> P b -> P c -> Forall P [a; b; c].
Proof. intros Ha Hb Hc. repeat (constructor; [assumption|]). constructor. Qed.

(** A colour that the text field hands to onChange is never read as
    NaN: hexToRgb gives three integers of 0..255 for it (black while
    fewer than six digits are typed). *)
Theorem colorTextChange_no_NaN (input v : string) :
  colorTextChange input = Some v -> Forall channel8 (hexToRgb v).
Proof.
  unfold colorTextChange. cbv zeta.
  set (v0 := if startsWithHash input then input else ("#" ++ input)%string).
  clearbody v0. destruct (hexColorPrefix v0) eqn:E; [|discriminate].
  intros [= <-]. unfold hexColorPrefix in E.
  destruct v0 as [|c0 rest]; [discriminate|].
  destruct (ascii_dec c0 "#") as [->|Hc].
  2:{ exfalso. destruct c0 as [[] [] [] [] [] [] [] []]; try discriminate. now apply Hc. }
  apply andb_true_iff in E. destruct E as [Hall Hlen].
  apply Nat.leb_le in Hlen.
  unfold hexToRgb. cbv zeta. cbn [String.length].
  destruct (7 <=? S (String.length rest))%nat eqn:E7.
  - apply Nat.leb_le in E7.
    destruct rest as [|c1 [|c2 [|c3 [|c4 [|c5 [|c6 [|c7 rest]]]]]]];
      simpl in Hlen, E7; try lia.
    simpl in Hall. unfold isHexDigit in Hall.
    destruct (hexDigit c1) as [d1|] eqn:E1; [|discriminate].
    destruct (hexDigit c2) as [d2|] eqn:E2; [|discriminate].
    destruct (hexDigit c3) as [d3|] eqn:E3; [|discriminate].
    destruct (hexDigit c4) as [d4|] eqn:E4; [|discriminate].
    destruct (hexDigit c5) as [d5|] eqn:E5; [|discriminate].
    destruct (hexDigit c6) as [d6|] eqn:E6; [|discriminate].
    apply hexDigit_range in E1 as H1, E2 as H2, E3 as H3, E4 as H4, E5 as H5, E6 as H6.
    unfold parseInt16, slice. simpl. rewrite E1, E2, E3, E4, E5, E6. simpl.
    apply Forall_three; eexists; (split; [reflexivity|unfold sample8; lia]).
  - apply Forall_three; exists 0%Z; (split; [reflexivity|unfold sample8; lia]).
Qed.

Lemma colorTextChange_no_NaN_witness : Forall channel8 (hexToRgb "#1a2B3c").
Proof.
  apply (colorTextChange_no_NaN "1a2B3c" "#1a2B3c"). reflexivity.
Defined.

(** overlayBlend maps the unit square into the unit interval. *)
Theorem overlayBlend_unit (base blend : Q) :
  0 <= base <= 1 -> 0 <= blend <= 1 ->
  0 <= overlayBlend base blend <= 1.
Proof.
  intros [Hb0 Hb1] [Hl0 Hl1]. unfold overlayBlend.
  destruct (Qltb base 0.5) eqn:E.
  - unfold Qltb in E. apply negb_true_iff in E.
    assert (Hlt : base < 0.5).
    { apply Qnot_le_lt. intros H. apply Qle_bool_iff in H. congruence. }
    assert (H1 : 0 <= base * blend) by (apply Qmult_le_0_compat; lra).
    assert (H2 : 0 <= base * (1 - blend)) by (apply Qmult_le_0_compat; lra).
    split; lra.
  - unfold Qltb in E. apply negb_false_iff, Qle_bool_iff in E.
    assert (H1 : 0 <= (1 - base) * (1 - blend)) by (apply Qmult_le_0_compat; lra).
    assert (H2 : 0 <= (1 - base) * blend) by (apply Qmult_le_0_compat; lra).
    split; lra.
Qed.

Lemma overlayBlend_unit_witness : 0 <= overlayBlend 0.25 0.5 <= 1.
Proof.
  apply (overlayBlend_unit 0.25 0.5); split; vm_compute; discriminate.
Defined.

(** ** Hits and the bounding box *)

Lemma Qpos_factor (w t : Q) : 0 < w -> 0 <= w * t -> 0 <= t.
Proof.
  intros Hw Ht. destruct (Qlt_le_dec t 0) as [Hneg|Hpos]; [|exact Hpos].
  assert (H : 0 < w * (- t)) by (apply Qmult_lt_0_compat; lra). lra.
Qed.

Lemma Qsquare_nonneg (u : Q) : 0 <= u * u.
Proof.
  destruct (Qlt_le_dec u 0) as [Hneg|Hpos].
  - assert (H : 0 <= (- u) * (- u)) by (apply Qmult_le_0_compat; lra). lra.
  - apply Qmult_le_0_compat; lra.
Qed.

Lemma square_bound (u r : Q) : 0 < r -> u * u <= r * r -> - r <= u /\ u <= r.
Proof.
  intros Hr H. split.
  - destruct (Qlt_le_dec u (- r)) as [Hlt|Hge]; [|exact Hge].
    assert (Hp : 0 < (- r - u) * (r - u)) by (apply Qmult_lt_0_compat; lra). lra.
  - destruct (Qlt_le_dec r u) as [Hlt|Hge]; [|exact Hge].
    assert (Hp : 0 < (u - r) * (u + r)) by (apply Qmult_lt_0_compat; lra). lra.
Qed.

Lemma ellipse_term_bound (u v r s : Q) :
  0 < r -> 0 < s ->
  u ^ 2 / r ^ 2 + v ^ 2 / s ^ 2 <= 1 -> - r <= u /\ u <= r.
Proof.
  intros Hr Hs. rewrite !Qsquare. intros H.
  assert (HR : 0 < r * r) by (apply Qmult_lt_0_compat; lra).
  assert (HS : 0 < s * s) by (apply Qmult_lt_0_compat; lra).
  assert (Hv : 0 <= v * v / (s * s)).
  { apply Qle_shift_div_l; [exact HS|]. pose proof (Qsquare_nonneg v). lra. }
  assert (Eu : u * u == (r * r) * (u * u / (r * r))) by (rewrite Qmult_div_r; lra).
  set (T := u * u / (r * r)) in *. clearbody T.
  set (T' := v * v / (s * s)) in *. clearbody T'.
  assert (Hp : 0 <= (r * r) * (1 - T)) by (apply Qmult_le_0_compat; lra).
  apply square_bound; [exact Hr|]. lra.
Qed.

(** A point that hits a mask of positive size lies in the mask's
    bounding box, for each of the three shapes. *)
Theorem isPointInMask_in_box (px py : Q) (mask : Mask.t) (cs : Q) :
  0 < Mask.width mask -> 0 < Mask.height mask -> 0 < cs ->
  isPointInMask px py mask cs = true -> inBoundingBox px py mask cs.
Proof.
  intros Hw Hh Hcs. unfold isPointInMask, inBoundingBox. cbv zeta.
  set (cx := Mask.x mask * cs). set (cy := Mask.y mask * cs).
  set (w := Mask.width mask * cs). set (h := Mask.height mask * cs).
  assert (Hwpos : 0 < w) by (apply Qmult_lt_0_compat; lra).
  assert (Hhpos : 0 < h) by (apply Qmult_lt_0_compat; lra).
  clearbody cx cy w h.
  destruct (Mask.shape mask).
  - rewrite !andb_true_iff, !Qle_bool_iff. intros [[[H1 H2] H3] H4].
    repeat split; assumption.
  - destruct (Qeq_bool ((w / 2) ^ 2) 0 || Qeq_bool ((h / 2) ^ 2) 0); [discriminate|].
    rewrite Qle_bool_iff. intros H.
    assert (Hr : 0 < w / 2) by (apply Qlt_shift_div_l; lra).
    assert (Hs : 0 < h / 2) by (apply Qlt_shift_div_l; lra).
    destruct (ellipse_term_bound (px - cx) (py - cy) (w / 2) (h / 2) Hr Hs H).
    assert (H' : (py - cy) ^ 2 / (h / 2) ^ 2 + (px - cx) ^ 2 / (w / 2) ^ 2 <= 1) by lra.
    destruct (ellipse_term_bound (py - cy) (px - cx) (h / 2) (w / 2) Hs Hr H').
    repeat split; lra.
  - assert (Hwh : 0 < w * h) by (apply Qmult_lt_0_compat; lra).
    set (d := (cy + h / 2 - (cy + h / 2)) * (cx - (cx - w / 2)) +
              (cx - w / 2 - (cx + w / 2)) * (cy - h / 2 - (cy + h / 2))).
    assert (Ed : d == w * h) by (unfold d; field).
    assert (Hd : ~ d == 0) by (rewrite Ed; lra).
    rewrite (Qeq_bool_false _ _ Hd).
    set (Na := (cy + h / 2 - (cy + h / 2)) * (px - (cx - w / 2)) +
               (cx - w / 2 - (cx + w / 2)) * (py - (cy + h / 2))).
    set (Nb := (cy + h / 2 - (cy - h / 2)) * (px - (cx - w / 2)) +
               (cx - (cx - w / 2)) * (py - (cy + h / 2))).
    rewrite !andb_true_iff, !Qle_bool_iff. intros [[Ha Hb] Hc].
    assert (Ea : Na == w * (cy + h / 2 - py)) by (unfold Na; field).
    assert (Eb : Nb == h * (px - (cx - w / 2)) - (w / 2) * (cy + h / 2 - py))
      by (unfold Nb; field).
    assert (Ga : 0 <= Na).
    { assert (E : Na == d * (Na / d)) by (rewrite Qmult_div_r; [reflexivity|exact Hd]).
      rewrite E. apply Qmult_le_0_compat; lra. }
    assert (Gb : 0 <= Nb).
    { assert (E : Nb == d * (Nb / d)) by (rewrite Qmult_div_r; [reflexivity|exact Hd]).
      rewrite E. apply Qmult_le_0_compat; lra. }
    assert (Gc : 0 <= d - Na - Nb).
    { assert (E : d - Na - Nb == d * (1 - Na / d - Nb / d)) by (field; exact Hd).
      rewrite E. apply Qmult_le_0_compat; lra. }
    clearbody d Na Nb.
    assert (Hy3 : 0 <= cy + h / 2 - py) by (apply (Qpos_factor w); lra).
    assert (Hy1 : 0 <= py - (cy - h / 2)).
    { apply (Qpos_factor w); [lra|].
      assert (w * (py - (cy - h / 2)) == w * h - w * (cy + h / 2 - py)) by field. lra. }
    assert (Hhalf : 0 <= (w / 2) * (cy + h / 2 - py)).
    { apply Qmult_le_0_compat; [|lra]. apply Qle_shift_div_l; lra. }
    assert (Hx3 : 0 <= px - (cx - w / 2)) by (apply (Qpos_factor h); lra).
    assert (Hx2 : 0 <= cx + w / 2 - px).
    { apply (Qpos_factor h); [lra|].
      assert (h * (cx + w / 2 - px) == w * h - h * (px - (cx - w / 2))) by field.
      assert (w * (cy + h / 2 - py) == 2 * ((w / 2) * (cy + h / 2 - py))) by field.
      lra. }
    repeat split; lra.
Qed.

Lemma isPointInMask_in_box_witness :
  inBoundingBox 100 90 (Mask.mk triangle 50 40 30 20 1) 2.
Proof.
  apply (isPointInMask_in_box 100 90 (Mask.mk triangle 50 40 30 20 1) 2);
    vm_compute; reflexivity.
Defined.

(** The search of handleMouseDown returns the hit of largest index, the
    mask drawn last; it returns none only when no mask is hit. *)
Theorem topmostHit_topmost (n : nat) (x y cs : Q) (currentMasks : list Mask.t) :
  match topmostHit n x y cs currentMasks with
  | Some (i, m) =>
      (i < n)%nat /\ currentMasks !! i = Some m /\ isPointInMask x y m cs = true /\
      forall j m', (i < j < n)%nat -> currentMasks !! j = Some m' ->
        isPointInMask x y m' cs = false
  | None =>
      forall j m', (j < n)%nat -> currentMasks !! j = Some m' ->
        isPointInMask x y m' cs = false
  end.
Proof.
  induction n as [|n IH]; simpl.
  - intros j m' Hj. lia.
  - destruct (currentMasks !! n) as [m|] eqn:Em.
    + destruct (isPointInMask x y m cs) eqn:Ehit.
      * repeat split; try assumption; try lia; intros j m' Hj; lia.
      * destruct (topmostHit n x y cs currentMasks) as [[i m0]|].
        -- destruct IH as (Hi & Hm & Hhit & Habove).
           repeat split; try assumption; try lia.
           intros j m' Hj Hm'. destruct (decide (j = n)) as [->|Hne].
           ++ congruence.
           ++ apply (Habove j m'); [lia|exact Hm'].
        -- intros j m' Hj Hm'. destruct (decide (j = n)) as [->|Hne].
           ++ congruence.
           ++ apply (IH j m'); [lia|exact Hm'].
    + destruct (topmostHit n x y cs currentMasks) as [[i m0]|].
      * destruct IH as (Hi & Hm & Hhit & Habove).
        repeat split; try assumption; try lia.
        intros j m' Hj Hm'. destruct (decide (j = n)) as [->|Hne].
        -- congruence.
        -- apply (Habove j m'); [lia|exact Hm'].
      * intros j m' Hj Hm'. destruct (decide (j = n)) as [->|Hne].
        -- congruence.
        -- apply (IH j m'); [lia|exact Hm'].
Qed.

(** ** Pressing and dragging *)

Lemma topmostHit_lookup (n : nat) (x y cs : Q) (ms : list Mask.t) (i : nat) (m : Mask.t) :
  topmostHit n x y cs ms = Some (i, m) -> ms !! i = Some m.
Proof.
  induction n as [|n IH]; simpl; [discriminate|].
  destruct (ms !! n) as [m0|] eqn:Em; [|exact IH].
  destruct (isPointInMask x y m0 cs); [|exact IH].
  now intros [= <- <-].
Qed.

Lemma pressedHandle_index (x y cs : Q) (st : State) (ds : DragState) :
  pressedHandle x y cs st = Some ds ->
  exists sel ax ay mask, ds = Resize sel ax ay /\ selectedMask st = Some sel /\
                         masks st !! sel = Some mask.
Proof.
  unfold pressedHandle.
  destruct (selectedMask st) as [sel|]; [|discriminate].
  destruct (masks st !! sel) as [mask|] eqn:Em; [|discriminate].
  destruct (find _ _) as [h|]; [|discriminate].
  destruct (resizeAnchor mask (HandlePosition.pos h)) as [ax ay].
  intros [= <-]. now exists sel, ax, ay, mask.
Qed.

Lemma handleMouseMove_Some (x y cs : Q) (st : State) :
  drag_ok st -> is_Some (handleMouseMove x y cs st).
Proof.
  unfold drag_ok, handleMouseMove. destruct (dragState st) as [ds|]; [|now eexists].
  intros Hds. destruct ds as [i ox oy|i ax ay]; simpl in Hds;
    destruct (lookup_lt_is_Some_2 _ _ Hds) as [m Em]; simpl; rewrite Em; simpl;
    now eexists.
Qed.

Lemma handleMouseDown_masks (x y cs : Q) (st : State) :
  masks (handleMouseDown x y cs st) = masks st.
Proof.
  unfold handleMouseDown. destruct (pressedHandle x y cs st); [reflexivity|].
  destruct (topmostHit _ _ _ _ _) as [[i m]|]; reflexivity.
Qed.

Lemma handleMouseDown_drag_ok (x y cs : Q) (st : State) :
  drag_ok st -> drag_ok (handleMouseDown x y cs st).
Proof.
  intros Hst. unfold drag_ok. rewrite handleMouseDown_masks. unfold handleMouseDown.
  destruct (pressedHandle x y cs st) as [ds|] eqn:Eh.
  - destruct (pressedHandle_index _ _ _ _ _ Eh) as (sel & ax & ay & mask & -> & _ & Em).
    simpl. now apply lookup_lt_Some in Em.
  - destruct (topmostHit _ _ _ _ _) as [[i m]|] eqn:Et.
    + simpl. apply topmostHit_lookup in Et. now apply lookup_lt_Some in Et.
    + exact Hst.
Qed.

(** A press never leaves a drag that the next move cannot follow: with
    no drag in progress, handleMouseDown followed by handleMouseMove
    always finds the mask it drags. *)
Theorem press_then_move (x y cs x' y' cs' : Q) (st : State) :
  dragState st = None ->
  is_Some (handleMouseMove x' y' cs' (handleMouseDown x y cs st)).
Proof.
  intros Hds. apply handleMouseMove_Some, handleMouseDown_drag_ok.
  unfold drag_ok. now rewrite Hds.
Qed.

Lemma press_then_move_witness :
  is_Some (handleMouseMove 70 80 1 (handleMouseDown 50 50 1 squareSelected)).
Proof.
  apply (press_then_move 50 50 1 70 80 1 squareSelected). reflexivity.
Defined.

(** A press on a mask (and on no handle) followed by a move at the
    same display scale: the pressed mask becomes the selection and its
    centre moves by the displacement of the pointer in image space; its
    size, shape and id, and all the other masks, stay as they are. *)
Theorem move_drag_translates (x y x' y' cs : Q) (st : State) (i : nat) (m : Mask.t) :
  ~ cs == 0 ->
  pressedHandle x y cs st = None ->
  topmostHit (length (masks st)) x y cs (masks st) = Some (i, m) ->
  exists st' m',
    handleMouseMove x' y' cs (handleMouseDown x y cs st) = Some st' /\
    selectedMask st' = Some i /\
    masks st' !! i = Some m' /\
    Mask.x m' == Mask.x m + (x' - x) / cs /\
    Mask.y m' == Mask.y m + (y' - y) / cs /\
    Mask.width m' = Mask.width m /\ Mask.height m' = Mask.height m /\
    Mask.shape m' = Mask.shape m /\ Mask.id m' = Mask.id m /\
    length (masks st') = length (masks st) /\
    forall j, j <> i -> masks st' !! j = masks st !! j.
Proof.
  intros Hcs Hh Ht. unfold handleMouseDown. rewrite Hh, Ht.
  pose proof (topmostHit_lookup _ _ _ _ _ _ _ Ht) as Em.
  unfold handleMouseMove. cbn [dragState setDragState setSelectedMask masks dragMasks].
  rewrite Em. cbn [mbind option_bind].
  eexists. eexists. split; [reflexivity|].
  cbn [selectedMask masks setMasks setSelectedMask setDragState].
  split; [reflexivity|]. split.
  { apply list_lookup_insert_eq. now apply lookup_lt_Some in Em. }
  cbn [Mask.x Mask.y Mask.width Mask.height Mask.shape Mask.id].
  split; [field; exact Hcs|]. split; [field; exact Hcs|].
  do 4 (split; [reflexivity|]). split; [apply length_insert|].
  intros j Hj. now apply list_lookup_insert_ne.
Qed.

Lemma move_drag_translates_witness :
  exists st' m',
    handleMouseMove 70 80 1 (handleMouseDown 50 50 1 squareSelected) = Some st' /\
    selectedMask st' = Some 0%nat /\
    masks st' !! 0%nat = Some m' /\
    Mask.x m' == Mask.x squareMask + (70 - 50) / 1 /\
    Mask.y m' == Mask.y squareMask + (80 - 50) / 1 /\
    Mask.width m' = Mask.width squareMask /\ Mask.height m' = Mask.height squareMask /\
    Mask.shape m' = Mask.shape squareMask /\ Mask.id m' = Mask.id squareMask /\
    length (masks st') = length (masks squareSelected) /\
    forall j, j <> 0%nat -> masks st' !! j = masks squareSelected !! j.
Proof.
  apply (move_drag_translates 50 50 70 80 1 squareSelected 0 squareMask).
  - vm_compute. discriminate.
  - reflexivity.
  - reflexivity.
Defined.

(** ** Adding, deleting and the selection *)

(** Deleting the mask that addMask has just added gives back the mask
    list, with nothing selected. *)
Theorem addMask_then_deleteMask (shape : Shape) (now : Z) (st : State) :
  masks (deleteMask (length (masks st)) (addMask shape now st)) = masks st /\
  selectedMask (deleteMask (length (masks st)) (addMask shape now st)) = None.
Proof.
  split.
  - rewrite deleteMask_masks. unfold addMask; simpl.
    rewrite delete_middle. apply app_nil_r.
  - rewrite (deleteMask_selected _ _ (length (masks st))).
    + now rewrite Nat.eqb_refl.
    + unfold addMask; simpl. rewrite length_app; simpl. f_equal. lia.
Qed.

Lemma delete_out_of_range {A : Type} (l : list A) (k : nat) :
  (length l <= k)%nat -> delete k l = l.
Proof.
  revert k. induction l as [|a l IH]; intros k Hk; [now destruct k|].
  destruct k as [|k]; simpl in Hk; [lia|].
  simpl. f_equal. apply IH. lia.
Qed.

Lemma dispatch_index_ok (ev : Event) (st st' : State) :
  index_ok st -> dispatch ev st = Some st' -> index_ok st'.
Proof.
  unfold index_ok. intros Hst Hev. destruct ev as [w h|shape now|x y cw|x y cw| |k| ];
    simpl in Hev.
  - inversion Hev; subst st'. exact I.
  - inversion Hev; subst st'. unfold addMask; simpl. rewrite length_app; simpl. lia.
  - inversion Hev; subst st'. rewrite handleMouseDown_masks. unfold handleMouseDown.
    destruct (pressedHandle _ _ _ _); [exact Hst|].
    destruct (topmostHit _ _ _ _ _) as [[i m]|] eqn:Et; simpl; [|exact I].
    apply topmostHit_lookup in Et. now apply lookup_lt_Some in Et.
  - unfold handleMouseMove in Hev. destruct (dragState st) as [ds|].
    + destruct (dragMasks ds _ _ (masks st)) as [u|] eqn:Eu; [|discriminate].
      inversion Hev; subst st'. simpl.
      assert (Hlen : length u = length (masks st)).
      { destruct ds as [i ox oy|i ax ay]; simpl in Eu;
          destruct (masks st !! i); try discriminate;
          inversion Eu; subst u; apply length_insert. }
      rewrite Hlen. exact Hst.
    + inversion Hev; subst st'. exact Hst.
  - inversion Hev; subst st'. exact Hst.
  - inversion Hev; subst st'. rewrite deleteMask_masks.
    destruct (selectedMask st) as [sel|] eqn:Es.
    + rewrite (deleteMask_selected _ _ _ Es).
      destruct (Nat.eqb_spec sel k) as [->|Hne]; [exact I|].
      destruct (Nat.ltb_spec k sel) as [Hlt|Hge].
      * rewrite length_delete by (apply lookup_lt_is_Some_2; lia). lia.
      * destruct (decide (k < length (masks st))%nat) as [Hk|Hk].
        -- rewrite length_delete by (now apply lookup_lt_is_Some_2). lia.
        -- rewrite delete_out_of_range by lia. exact Hst.
    + unfold deleteMask. rewrite Es. simpl. now rewrite Es.
  - inversion Hev; subst st'. unfold handleKeyDelete.
    destruct (selectedMask st) as [sel|] eqn:Es; simpl; [exact I|]. now rewrite Es.
Qed.

(** Whatever commands the editor has gone through since it was
    mounted (image loads, added and deleted masks, presses, moves,
    releases, the delete key, clicks in the mask list), each move
    having found the mask it drags, a selection designates a mask of
    the list. *)
Theorem selection_in_range (cmds : list Command) (st : State) :
  steps cmds initialState = Some st ->
  match selectedMask st with
  | Some i => is_Some (masks st !! i)
  | None => True
  end.
Proof.
  intros Hrun.
  assert (Hgen : forall cs s, index_ok s -> steps cs s = Some st -> index_ok st).
  { induction cs as [|cmd cs IH]; intros s Hs Hr; simpl in Hr.
    - now inversion Hr; subst.
    - destruct (step cmd s) as [s'|] eqn:Ed; [|discriminate].
      simpl in Hr. apply (IH s'); [|exact Hr].
      destruct cmd as [ev|i]; simpl in Ed.
      + now apply (dispatch_index_ok ev s).
      + destruct (masks s !! i) as [m|] eqn:Em; [|discriminate].
        inversion Ed; subst s'. unfold index_ok; simpl.
        now apply lookup_lt_Some in Em. }
  pose proof (Hgen cmds initialState I Hrun) as H.
  unfold index_ok in H. destruct (selectedMask st) as [i|]; [|exact I].
  now apply lookup_lt_is_Some_2.
Qed.

Lemma selection_in_range_witness :
  match selectedMask
          (deleteMask 0
             (setSelectedMask (Some 1%nat)
                (addMask circle 2 (addMask rectangle 1 initialState)))) with
  | Some i =>
      is_Some
        (masks
           (deleteMask 0
              (setSelectedMask (Some 1%nat)
                 (addMask circle 2 (addMask rectangle 1 initialState)))) !! i)
  | None => True
  end.
Proof.
  apply (selection_in_range
           [EditorEvent (AddMask rectangle 1); EditorEvent (AddMask circle 2);
            SelectFromList 1; EditorEvent (DeleteMask 0)]).
  reflexivity.
Defined.

Lemma reachable_min_size_witness :
  Forall min_size (masks (addMask rectangle 1 (imageLoaded 100 100 initialState))).
Proof.
  apply (reachable_min_size [ImageLoaded 100 100; AddMask rectangle 1]).
  - constructor; [simpl; lia|]. constructor; [exact I|]. constructor.
  - reflexivity.
Defined.

Lemma deleteMask_keeps_selected_mask_witness :
  exists j', selectedMask (deleteMask 0 twoMasks) = Some j' /\
             masks (deleteMask 0 twoMasks) !! j'
             = Some (Mask.mk circle (800 / 2) (800 / 2) (800 * 0.35) (800 * 0.35) 2).
Proof.
  apply (deleteMask_keeps_selected_mask twoMasks 0 1
           (Mask.mk circle (800 / 2) (800 / 2) (800 * 0.35) (800 * 0.35) 2)).
  - reflexivity.
  - lia.
  - reflexivity.
Defined.

(** ** Zoom *)

Lemma zoomIn_range (z : Q) : zoomRange z -> zoomRange (Qmin (z * 1.25) 4).
Proof.
  intros [Hlo Hhi]. unfold zoomRange.
  destruct (Q.min_spec (z * 1.25) 4) as [[H E]|[H E]]; rewrite E; split; lra.
Qed.

Lemma zoomOut_range (z : Q) : zoomRange z -> zoomRange (Qmax (z / 1.25) 0.25).
Proof.
  intros [Hlo Hhi]. unfold zoomRange.
  assert (E : z / 1.25 == z * 0.8) by (field).
  destruct (Q.max_spec (z / 1.25) 0.25) as [[H E']|[H E']]; rewrite E'; split; lra.
Qed.

Lemma zoomStep_range (z : Q) (cmd : ZoomCommand) :
  zoomRange z -> zoomRange (zoomStep z cmd).
Proof.
  intros Hz. destruct cmd as [| | |tagName key|]; simpl.
  - now apply zoomIn_range.
  - now apply zoomOut_range.
  - unfold zoomReset, zoomRange. split; lra.
  - unfold handleKey.
    destruct ((tagName =? "INPUT") || (tagName =? "TEXTAREA"))%string; [exact Hz|].
    destruct ((key =? "+") || (key =? "="))%string; [now apply zoomIn_range|].
    destruct (key =? "-")%string; [now apply zoomOut_range|].
    destruct (key =? "0")%string; [unfold zoomRange; split; lra|exact Hz].
  - unfold zoomRange. split; lra.
Qed.

(** Whatever buttons, keys and image loads follow, a zoom factor
    between 25% and 400% (it starts at 100%) stays between them. *)
Theorem zoom_stays_in_range (cmds : list ZoomCommand) (z : Q) :
  zoomRange z -> zoomRange (fold_left zoomStep cmds z).
Proof.
  revert z. induction cmds as [|cmd cmds IH]; intros z Hz; simpl; [exact Hz|].
  apply IH. now apply zoomStep_range.
Qed.

Lemma zoom_stays_in_range_witness :
  zoomRange
    (fold_left zoomStep
       [ZoomInButton; KeyDown "BODY" "="; KeyDown "INPUT" "-"; ZoomOutButton;
        KeyDown "BODY" "0"; KeyDown "BODY" "-"; ZoomImageLoaded] 1).
Proof.
  apply (zoom_stays_in_range
           [ZoomInButton; KeyDown "BODY" "="; KeyDown "INPUT" "-"; ZoomOutButton;
            KeyDown "BODY" "0"; KeyDown "BODY" "-"; ZoomImageLoaded] 1).
  split; vm_compute; discriminate.
Defined.

(** ** Compositing at a point *)

Lemma checkerboard_tile_witness :
  Px.eqv (checkerboard (C:=plainCanvas) 16 16 3 9 Px.transparent)
    (destination_over Px.transparent
       (tileTone (C:=plainCanvas) (Qfloor (3 / 8) + Qfloor (9 / 8)))).
Proof.
  apply (checkerboard_tile (C:=plainCanvas) 16 16 3 9 Px.transparent);
    vm_compute; first [discriminate|reflexivity].
Defined.

(** Inside and outside the masks. *)

Lemma stencil_stays_opaque `{M : MathLib} `{C : Canvas2D}
    (ms : list Mask.t) (scale px py : Q) (acc : Px.t) :
  Px.a acc == 1 -> Px.a (fold_left (stencilStep scale px py) ms acc) == 1.
Proof.
  revert acc. induction ms as [|m ms IH]; intros acc Hacc; simpl; [exact Hacc|].
  apply IH. unfold stencilStep, source_over, paint; simpl. rewrite Hacc. ring.
Qed.

Lemma stencil_opaque `{M : MathLib} `{C : Canvas2D}
    (ms : list Mask.t) (scale px py : Q) (acc : Px.t) (m : Mask.t) :
  Px.a (styleOf "#fff") == 1 ->
  m ∈ ms -> fillCoverage (drawMaskShape m scale) px py == 1 ->
  Px.a (fold_left (stencilStep scale px py) ms acc) == 1.
Proof.
  intros Hwhite Hin Hcov. revert acc.
  induction Hin as [m ms|m m' ms Hin IH]; intros acc; simpl.
  - apply stencil_stays_opaque. unfold stencilStep, source_over, paint; simpl.
    rewrite Hcov, Hwhite. ring.
  - now apply IH.
Qed.

Lemma stencil_transparent `{M : MathLib} `{C : Canvas2D}
    (ms : list Mask.t) (scale px py : Q) (acc : Px.t) :
  Forall (fun m => fillCoverage (drawMaskShape m scale) px py == 0) ms ->
  Px.eqv (fold_left (stencilStep scale px py) ms acc) acc.
Proof.
  intros Hall. revert acc. induction Hall as [|m ms Hm Hall IH]; intros acc; simpl.
  - apply Px_eqv_refl.
  - eapply Px_eqv_trans; [apply IH|].
    unfold stencilStep, source_over, paint, Px.eqv; simpl. rewrite Hm.
    repeat split; ring.
Qed.

Lemma erased_then_behind (c stencil s : Px.t) :
  Px.a stencil == 1 ->
  Px.eqv (destination_over (destination_out c stencil) s) s.
Proof.
  intros H. unfold destination_over, destination_out, Px.eqv; simpl. rewrite H.
  repeat split; ring.
Qed.

Lemma kept_then_nothing_behind (c stencil : Px.t) (layer : Px.t) (clip : Q) :
  Px.eqv stencil Px.transparent -> clip == 0 ->
  Px.eqv (destination_over (destination_out c stencil) (paint layer clip)) c.
Proof.
  intros (_ & _ & _ & Ha) Hclip. simpl in Ha.
  unfold destination_over, destination_out, paint, Px.eqv; simpl. rewrite Ha, Hclip.
  repeat split; ring.
Qed.

(** Inside a mask the export shows the masked layer alone: where a
    mask shape covers the point fully (and "#fff" is an opaque
    colour), the base layer is erased, also where the masked layer is
    transparent. *)
Theorem exportImage_inside_mask `{M : MathLib} `{C : Canvas2D}
    (st : State) (img ht : ImageData.t) (m : Mask.t)
    (px py : Q) :
  let w := Size.width (canvasSize st) * exportScale st in
  let h := Size.height (canvasSize st) * exportScale st in
  imageCanvas st = Some img -> halftoneCanvas st = Some ht ->
  transparentBg st = true ->
  Px.a (styleOf "#fff") == 1 ->
  inRect 0 0 w h px py = true ->
  m ∈ masks st ->
  fillCoverage (drawMaskShape m (exportScale st)) px py == 1 ->
  exists c, exportImage st px py = Some c /\
    Px.eqv c
      (paint (drawnImage (maskedLayerOf st img ht) w h px py)
         (fillCoverage
            (concat (map (fun m => drawMaskShape m (exportScale st)) (masks st)))
            px py)).
Proof.
  intros w h Himg Hht Hbg Hwhite Hin Hm Hcov. unfold exportImage.
  rewrite Himg, Hht, Hbg. cbn [mbind option_bind negb]. fold w. fold h. rewrite Hin.
  assert (Hlen : (0 <? length (masks st))%nat = true).
  { apply Nat.ltb_lt. destruct (masks st); [now apply elem_of_nil in Hm|simpl; lia]. }
  rewrite Hlen. eexists. split; [reflexivity|].
  unfold maskedLayerOf.
  pose proof (stencil_opaque (masks st) (exportScale st) px py Px.transparent m
                Hwhite Hm Hcov) as Hop.
  destruct (maskContent st); apply erased_then_behind; exact Hop.
Qed.

Lemma exportImage_inside_mask_witness :
  exists c,
    exportImage (M:=rationalMath) (C:=plainCanvas) maskedEditor 1 1 = Some c /\
    Px.eqv c
      (paint
         (drawnImage (Canvas2D:=plainCanvas)
            (maskedLayerOf maskedEditor adjustedImage halftoneImage)
            (Size.width (canvasSize maskedEditor) * exportScale maskedEditor)
            (Size.height (canvasSize maskedEditor) * exportScale maskedEditor) 1 1)
         (fillCoverage (Canvas2D:=plainCanvas)
            (concat
               (map (fun m => drawMaskShape (M:=rationalMath) m (exportScale maskedEditor))
                  (masks maskedEditor)))
            1 1)).
Proof.
  apply (exportImage_inside_mask (M:=rationalMath) (C:=plainCanvas) maskedEditor
           adjustedImage halftoneImage (Mask.mk rectangle 2 4 4 8 1) 1 1).
  - reflexivity.
  - reflexivity.
  - reflexivity.
  - vm_compute. reflexivity.
  - vm_compute. reflexivity.
  - constructor.
  - vm_compute. reflexivity.
Defined.

(** Outside every mask the export shows the base layer alone, as it
    does without masks. *)
Theorem exportImage_outside_masks `{M : MathLib} `{C : Canvas2D}
    (st : State) (img ht : ImageData.t) (px py : Q) :
  let w := Size.width (canvasSize st) * exportScale st in
  let h := Size.height (canvasSize st) * exportScale st in
  imageCanvas st = Some img -> halftoneCanvas st = Some ht ->
  transparentBg st = true ->
  Forall (fun m => fillCoverage (drawMaskShape m (exportScale st)) px py == 0)
    (masks st) ->
  fillCoverage (concat (map (fun m => drawMaskShape m (exportScale st)) (masks st)))
    px py == 0 ->
  exists c, exportImage st px py = Some c /\
    Px.eqv c (drawnImage (baseLayerOf st img ht) w h px py).
Proof.
  intros w h Himg Hht Hbg Hall Hclip. unfold exportImage.
  rewrite Himg, Hht, Hbg. cbn [mbind option_bind negb]. fold w. fold h.
  eexists. split; [reflexivity|].
  assert (Hbase : forall p, Px.eqv (source_over Px.transparent p) p).
  { intros p. unfold source_over, Px.eqv; simpl. repeat split; ring. }
  unfold baseLayerOf.
  destruct (0 <? length (masks st))%nat.
  - assert (Hst : Px.eqv
                    (if inRect 0 0 w h px py
                     then fold_left (stencilStep (exportScale st) px py) (masks st)
                            Px.transparent
                     else Px.transparent) Px.transparent).
    { destruct (inRect 0 0 w h px py); [|apply Px_eqv_refl].
      now apply stencil_transparent. }
    destruct (maskContent st);
      (eapply Px_eqv_trans; [apply kept_then_nothing_behind; [exact Hst|exact Hclip]|]);
      apply Hbase.
  - destruct (maskContent st); apply Hbase.
Qed.

Lemma exportImage_outside_masks_witness :
  exists c,
    exportImage (M:=rationalMath) (C:=plainCanvas) maskedEditor 6 1 = Some c /\
    Px.eqv c
      (drawnImage (Canvas2D:=plainCanvas)
         (baseLayerOf maskedEditor adjustedImage halftoneImage)
         (Size.width (canvasSize maskedEditor) * exportScale maskedEditor)
         (Size.height (canvasSize maskedEditor) * exportScale maskedEditor) 6 1).
Proof.
  apply (exportImage_outside_masks (M:=rationalMath) (C:=plainCanvas) maskedEditor
           adjustedImage halftoneImage 6 1).
  - reflexivity.
  - reflexivity.
  - reflexivity.
  - constructor; [vm_compute; reflexivity|constructor].
  - vm_compute. reflexivity.
Defined.

(** Where the image is opaque and there is no mask, the export shows
    the image whichever background policy and colour are set. *)
Theorem exportImage_opaque_hides_background `{M : MathLib} `{C : Canvas2D}
    (st : State) (img ht : ImageData.t)
    (px py : Q) :
  let w := Size.width (canvasSize st) * exportScale st in
  let h := Size.height (canvasSize st) * exportScale st in
  imageCanvas st = Some img -> halftoneCanvas st = Some ht ->
  masks st = [] ->
  Px.a (drawnImage (baseLayerOf st img ht) w h px py) == 1 ->
  exists c, exportImage st px py = Some c /\
    Px.eqv c (drawnImage (baseLayerOf st img ht) w h px py).
Proof.
  intros w h Himg Hht Hms Hop. unfold exportImage.
  rewrite Himg, Hht, Hms. cbn [mbind option_bind length Nat.ltb Nat.leb].
  fold w. fold h. eexists. split; [reflexivity|].
  unfold baseLayerOf in *.
  destruct (transparentBg st); cbn [negb];
    destruct (maskContent st);
    unfold destination_over, source_over, Px.eqv; simpl; rewrite ?Hop;
    repeat split; ring.
Qed.

Lemma exportImage_opaque_hides_background_witness :
  exists c,
    exportImage (M:=rationalMath) (C:=plainCanvas) loadedEditor 1 1 = Some c /\
    Px.eqv c
      (drawnImage (Canvas2D:=plainCanvas)
         (baseLayerOf loadedEditor adjustedImage halftoneImage)
         (Size.width (canvasSize loadedEditor) * exportScale loadedEditor)
         (Size.height (canvasSize loadedEditor) * exportScale loadedEditor) 1 1).
Proof.
  apply (exportImage_opaque_hides_background (M:=rationalMath) (C:=plainCanvas)
           loadedEditor adjustedImage halftoneImage 1 1).
  - reflexivity.
  - reflexivity.
  - reflexivity.
  - vm_compute. reflexivity.
Defined.
